(** * Campaign engine and post scheduler of the XTEP demo application

    A shallow embedding of [src/services/CampaignService.ts] and of the
    scheduler service, with the properties of the written specification
    stated over it.

    Conventions of the embedding.
    - A JavaScript [Map<string, V>] owned by a service is a [gmap string V];
      the map of scheduled posts, which the sweep iterates, is an association
      list in insertion order.  Campaign objects live only in the service's
      map and are mutated in place there, so the map holds them by value.
      Post objects are replaced by copies and also held by suspended calls,
      so the scheduler keeps them in a store of objects and its map holds
      references.
    - Arrays are lists.  Where the source keeps a second array holding
      references to the objects of a first one ([availablePrizes],
      [eligibleParticipants]), the second array is a list of positions in the
      first, and a mutation through such a reference is an [alter] at that
      position.
    - Counts ([quantity], [remaining]) are integer-valued JavaScript numbers:
      [Z]; a quantity that is not an integer is not a value of the model.
      Timestamps are milliseconds: [Z].  Probabilities and the results of
      [Math.random()] are rationals, and the products formed with them are
      exact where the program rounds them to a double: what is stated of
      every draw holds of the program, what is stated of one draw is stated
      of the exact product.
    - [Math.random()], [new Date()] and [generateId()] are inputs of the
      operation that calls them.
    - In [Campaigns] and in [Scheduler] a call of the campaign engine is
      taken as a whole: it is awaited before the next one is made, as the
      specification's resource model has it.  [Overlap] has the calls of the
      campaign engine in steps, from one [await] to the next, so that calls
      can overlap; [OverlapTheory.awaited_exec] shows that a call awaited at
      once is the call of [Campaigns].  The log output is not modelled. *)

From stdpp Require Import gmap strings list.
From stdpp Require Import sorting.
From Stdlib Require Import QArith Qround.

Local Open Scope Z_scope.

(** ** JavaScript values shared by both services *)

(** The result of [Math.random()]: a number in the half-open unit interval. *)
Definition in_unit_interval (q : Q) : bool :=
  Qle_bool 0 q && negb (Qle_bool 1 q).

Record MathRandom := {
  rnd_value : Q;
  rnd_in_range : Is_true (in_unit_interval rnd_value)
}.

(** [Math.floor(Math.random() * n)] for an array length [n]. *)
Definition random_index (r : MathRandom) (n : nat) : nat :=
  Z.to_nat (Qfloor (rnd_value r * inject_Z (Z.of_nat n))).

(** JavaScript [a < b] on two numbers. *)
Definition js_lt (a b : Q) : bool := negb (Qle_bool b a).

(** Truthiness of a string: every string but the empty one. *)
Definition truthy_string (s : string) : bool :=
  match s with EmptyString => false | String _ _ => true end.

(** A call either returns, or throws the [TypeError] of a property access on
    [undefined]. *)
Inductive completion (A : Type) : Type :=
  | Returned (a : A)
  | Threw.
Arguments Returned {A} a.
Arguments Threw {A}.

(** Positions of the elements of [l] that satisfy [f], counted from [i]:
    the array of references that [l.filter(f)] builds. *)
Fixpoint positions_from {A : Type} (f : A -> bool) (l : list A) (i : nat)
  : list nat :=
  match l with
  | [] => []
  | x :: l' =>
      if f x then i :: positions_from f l' (S i) else positions_from f l' (S i)
  end.

Definition positions {A : Type} (f : A -> bool) (l : list A) : list nat :=
  positions_from f l 0.

Module Campaigns.

(** ** Data model ([types/index.ts]) *)

Inductive CampaignType := later_lottery | instant_web | instant_auto.
Inductive CampaignStatus := draft | active | ended.

Record XUser := {
  user_id : string;
  user_username : string;
  displayName : string;
  followers : Z;
  following : Z
}.

Record Prize := {
  prize_id : string;
  prize_name : string;
  quantity : Z;
  remaining : Z;
  imageUrl : option string
}.

Record Participant := {
  userId : string;
  username : string;
  enteredAt : Z;
  won : bool;
  prizeId : option string
}.

Record CampaignRules := {
  requireFollow : bool;
  requireRetweet : bool;
  requireLike : bool;
  requireHashtag : option string;
  winProbability : option Q
}.

Record Campaign := {
  campaign_id : string;
  campaign_name : string;
  type : CampaignType;
  description : string;
  startDate : Z;
  endDate : Z;
  prizes : list Prize;
  participants : list Participant;
  status : CampaignStatus;
  rules : CampaignRules;
  createdAt : Z;
  updatedAt : Z
}.

#[global] Instance CampaignType_eq_dec : EqDecision CampaignType.
Proof. solve_decision. Defined.
#[global] Instance CampaignStatus_eq_dec : EqDecision CampaignStatus.
Proof. solve_decision. Defined.

(** The service's state: [private campaigns: Map<string, Campaign>]. *)
Abbreviation store := (gmap string Campaign).

(** *** Field assignments *)

Definition set_remaining (n : Z) (p : Prize) : Prize :=
  {| prize_id := prize_id p; prize_name := prize_name p;
     quantity := quantity p; remaining := n; imageUrl := imageUrl p |}.

Definition set_won (pid : string) (p : Participant) : Participant :=
  {| userId := userId p; username := username p; enteredAt := enteredAt p;
     won := true; prizeId := Some pid |}.

Definition set_status (st : CampaignStatus) (now : Z) (c : Campaign)
  : Campaign :=
  {| campaign_id := campaign_id c; campaign_name := campaign_name c;
     type := type c; description := description c;
     startDate := startDate c; endDate := endDate c;
     prizes := prizes c; participants := participants c;
     status := st; rules := rules c;
     createdAt := createdAt c; updatedAt := now |}.

Definition set_prizes (ps : list Prize) (c : Campaign) : Campaign :=
  {| campaign_id := campaign_id c; campaign_name := campaign_name c;
     type := type c; description := description c;
     startDate := startDate c; endDate := endDate c;
     prizes := ps; participants := participants c;
     status := status c; rules := rules c;
     createdAt := createdAt c; updatedAt := updatedAt c |}.

Definition set_participants (l : list Participant) (c : Campaign) : Campaign :=
  {| campaign_id := campaign_id c; campaign_name := campaign_name c;
     type := type c; description := description c;
     startDate := startDate c; endDate := endDate c;
     prizes := prizes c; participants := l;
     status := status c; rules := rules c;
     createdAt := createdAt c; updatedAt := updatedAt c |}.

(** The same campaign with another period (no operation assigns the dates;
    used to compare campaigns that differ in them). *)
Definition set_dates (start_ end_ : Z) (c : Campaign) : Campaign :=
  {| campaign_id := campaign_id c; campaign_name := campaign_name c;
     type := type c; description := description c;
     startDate := start_; endDate := end_;
     prizes := prizes c; participants := participants c;
     status := status c; rules := rules c;
     createdAt := createdAt c; updatedAt := updatedAt c |}.

(** ** Operations ([CampaignService]) *)

(** [createCampaign]: every prize starts with [remaining = quantity]; the
    campaign is a draft without participants.  [newId] is the result of
    [generateId()], the two timestamps are the two [new Date()]. *)
Definition createCampaign (s : store) (newId name : string)
    (ty : CampaignType) (descr : string) (start_ end_ : Z)
    (ps : list Prize) (rs : CampaignRules) (now1 now2 : Z)
  : Campaign * store :=
  let campaign :=
    {| campaign_id := newId; campaign_name := name; type := ty;
       description := descr; startDate := start_; endDate := end_;
       prizes := map (fun p => set_remaining (quantity p) p) ps;
       participants := [];
       status := draft; rules := rs;
       createdAt := now1; updatedAt := now2 |} in
  (campaign, <[newId := campaign]> s).

Definition getCampaign (s : store) (id : string) : option Campaign := s !! id.

(** [getActiveCampaigns], as a test on one campaign and as the filter over
    the values of the map. *)
Definition in_active_window (now : Z) (c : Campaign) : bool :=
  bool_decide (status c = active)
  && (startDate c <=? now) && (now <=? endDate c).

Definition getActiveCampaigns (s : store) (now : Z) : list Campaign :=
  filter (fun c => Is_true (in_active_window now c)) (map snd (map_to_list s)).

Definition startCampaign (s : store) (id : string) (now : Z)
  : option Campaign * store :=
  match s !! id with
  | None => (None, s)
  | Some c =>
      let c' := set_status active now c in
      (Some c', <[id := c']> s)
  end.

Definition endCampaign (s : store) (id : string) (now : Z)
  : option Campaign * store :=
  match s !! id with
  | None => (None, s)
  | Some c =>
      let c' := set_status ended now c in
      (Some c', <[id := c']> s)
  end.

(** [campaign.rules.winProbability || 10]: the right operand is taken when
    the left one is falsy, that is [undefined] or the number zero. *)
Definition effectiveWinProbability (rs : CampaignRules) : Q :=
  match winProbability rs with
  | None => 10
  | Some p => if Qeq_bool p 0 then 10 else p
  end%Q.

Record LotteryResult := {
  result_won : bool;
  result_prizeId : option string
}.

Definition lost : LotteryResult :=
  {| result_won := false; result_prizeId := None |}.

(** [prize.remaining--] *)
Definition decrement (p : Prize) : Prize := set_remaining (remaining p - 1) p.

(** [runInstantLottery].  [r1] is the draw against the probability, [r2] the
    draw that selects the prize (made only on a win).  The campaign returned
    is the campaign after [prize.remaining--].  A position taken from
    [availablePrizes] always holds a prize. *)
Definition runInstantLottery (c : Campaign) (r1 r2 : MathRandom)
  : completion (LotteryResult * Campaign) :=
  let availablePrizes := positions (fun p => 0 <? remaining p) (prizes c) in
  match availablePrizes with
  | [] => Returned (lost, c)
  | _ :: _ =>
      let winProb := effectiveWinProbability (rules c) in
      let random := (rnd_value r1 * 100)%Q in
      if js_lt random winProb then
        match availablePrizes !! random_index r2 (length availablePrizes) with
        | None => Threw
        | Some ref =>
            match prizes c !! ref with
            | None => Threw
            | Some prize =>
                Returned
                  ({| result_won := true;
                      result_prizeId := Some (prize_id prize) |},
                   set_prizes (alter decrement ref (prizes c)) c)
            end
        end
      else Returned (lost, c)
  end.

Definition is_instant (ty : CampaignType) : bool :=
  match ty with
  | instant_web | instant_auto => true
  | later_lottery => false
  end.

(** [result.won && result.prizeId] *)
Definition won_with_prize (r : LotteryResult) : option string :=
  if result_won r then
    match result_prizeId r with
    | Some pid => if truthy_string pid then Some pid else None
    | None => None
    end
  else None.

(** The participant record that [enterCampaign] creates. *)
Definition new_participant (user : XUser) (now : Z) : Participant :=
  {| userId := user_id user; username := user_username user;
     enteredAt := now; won := false; prizeId := None |}.

(** [enterCampaign].  A [TypeError] inside the instant draw rejects the call
    before anything was assigned. *)
Definition enterCampaign (s : store) (campaignId : string) (user : XUser)
    (now : Z) (r1 r2 : MathRandom) : completion bool * store :=
  match s !! campaignId with
  | None => (Returned false, s)
  | Some c =>
      if negb (bool_decide (status c = active)) then (Returned false, s)
      else if existsb (fun p => bool_decide (userId p = user_id user))
                      (participants c)
      then (Returned false, s)
      else
        let participant := new_participant user now in
        let drawn :=
          if is_instant (type c) then
            match runInstantLottery c r1 r2 with
            | Threw => Threw
            | Returned (result, c1) =>
                match won_with_prize result with
                | Some pid => Returned (set_won pid participant, c1)
                | None => Returned (participant, c1)
                end
            end
          else Returned (participant, c) in
        match drawn with
        | Threw => (Threw, s)
        | Returned (p, c1) =>
            (Returned true,
             <[campaignId := set_participants (participants c1 ++ [p]) c1]> s)
        end
  end.

(** *** The later lottery *)

(** The variables of the drawing loop of [runLaterLottery].  The winners and
    the eligible participants are references into [campaign.participants]. *)
Record DrawState := {
  ds_participants : list Participant;
  ds_eligible : list nat;
  ds_winners : list nat;
  ds_draws : nat
}.

(** The inner loop [for (let i = 0; i < prize.quantity; i++)], with [n] the
    number of iterations left.  The flag of the result tells whether
    [winner.won = true] threw on an [undefined] winner; the participants
    marked before that stay marked. *)
Fixpoint drawForPrize (n : nat) (pid : string) (rnd : nat -> MathRandom)
    (st : DrawState) : bool * DrawState :=
  match n with
  | O => (false, st)
  | S n' =>
      match ds_eligible st with
      | [] => (false, st)
      | _ :: _ =>
          let randomIndex :=
            random_index (rnd (ds_draws st)) (length (ds_eligible st)) in
          match ds_eligible st !! randomIndex with
          | None => (true, st)
          | Some winner =>
              drawForPrize n' pid rnd
                {| ds_participants :=
                     alter (set_won pid) winner (ds_participants st);
                   ds_eligible := delete randomIndex (ds_eligible st);
                   ds_winners := ds_winners st ++ [winner];
                   ds_draws := S (ds_draws st) |}
          end
      end
  end.

(** The outer loop [for (const prize of campaign.prizes)].  A loop bounded by
    [i < prize.quantity] runs [Z.to_nat quantity] times. *)
Fixpoint drawForPrizes (ps : list Prize) (rnd : nat -> MathRandom)
    (st : DrawState) : bool * DrawState :=
  match ps with
  | [] => (false, st)
  | p :: ps' =>
      match drawForPrize (Z.to_nat (quantity p)) (prize_id p) rnd st with
      | (true, st') => (true, st')
      | (false, st') => drawForPrizes ps' rnd st'
      end
  end.

Definition initialDraw (c : Campaign) : DrawState :=
  {| ds_participants := participants c;
     ds_eligible := positions (fun p => negb (won p)) (participants c);
     ds_winners := [];
     ds_draws := 0 |}.

(** The drawing loops of [runLaterLottery] on a campaign. *)
Definition laterLotteryDraw (c : Campaign) (rnd : nat -> MathRandom)
  : bool * DrawState :=
  drawForPrizes (prizes c) rnd (initialDraw c).

(** [runLaterLottery]; [rnd k] is the result of the [k]-th call of
    [Math.random()]. *)
Definition runLaterLottery (s : store) (campaignId : string)
    (rnd : nat -> MathRandom) : completion (list Participant) * store :=
  match s !! campaignId with
  | None => (Returned [], s)
  | Some c =>
      if negb (bool_decide (type c = later_lottery)) then (Returned [], s)
      else
        let '(threw, st) := laterLotteryDraw c rnd in
        let s' := <[campaignId := set_participants (ds_participants st) c]> s in
        if threw then (Threw, s')
        else
          (Returned (omap (fun i => ds_participants st !! i) (ds_winners st)),
           s')
  end.

(** *** Read-only views *)

Definition getWinners (s : store) (campaignId : string) : list Participant :=
  match s !! campaignId with
  | None => []
  | Some c => filter (fun p => Is_true (won p)) (participants c)
  end.

(** The two sums of [getCampaignStats]. *)
Definition totalPrizes (c : Campaign) : Z :=
  fold_left (fun sum p => sum + quantity p) (prizes c) 0.

Definition prizesRemaining (c : Campaign) : Z :=
  fold_left (fun sum p => sum + remaining p) (prizes c) 0.

(** The awards of a prize: the participants of the campaign that hold its id. *)
Definition awards (c : Campaign) (pid : string) : Z :=
  Z.of_nat
    (length (filter (fun p => prizeId p = Some pid) (participants c))).

(** ** Sequences of operations *)

Inductive op :=
  | CreateCampaign (newId name : string) (ty : CampaignType) (descr : string)
      (start_ end_ : Z) (ps : list Prize) (rs : CampaignRules) (now1 now2 : Z)
  | StartCampaign (id : string) (now : Z)
  | EndCampaign (id : string) (now : Z)
  | EnterCampaign (campaignId : string) (user : XUser) (now : Z)
      (r1 r2 : MathRandom)
  | RunLaterLottery (campaignId : string) (rnd : nat -> MathRandom).

(** The store after one operation. *)
Definition exec (s : store) (o : op) : store :=
  match o with
  | CreateCampaign newId name ty descr start_ end_ ps rs now1 now2 =>
      snd (createCampaign s newId name ty descr start_ end_ ps rs now1 now2)
  | StartCampaign id now => snd (startCampaign s id now)
  | EndCampaign id now => snd (endCampaign s id now)
  | EnterCampaign campaignId user now r1 r2 =>
      snd (enterCampaign s campaignId user now r1 r2)
  | RunLaterLottery campaignId rnd => snd (runLaterLottery s campaignId rnd)
  end.

(** The store after a sequence of operations on a new service. *)
Definition run (ops : list op) : store := fold_left exec ops ∅.

(** ** Predicates of the statements *)

(** The user has a participant record in the campaign. *)
Definition already_entered (c : Campaign) (user : XUser) : Prop :=
  exists p, p ∈ participants c /\ userId p = user_id user.

(** A property of single campaigns, lifted to the store. *)
Definition every_campaign (P : Campaign -> Prop) (s : store) : Prop :=
  forall id c, s !! id = Some c -> P c.

(** The counter of a prize is within its bounds. *)
Definition in_range (p : Prize) : Prop := 0 <= remaining p <= quantity p.

(** An operation that hands no negative quantity to [createCampaign]. *)
Definition well_stocked (o : op) : Prop :=
  match o with
  | CreateCampaign _ _ _ _ _ _ ps _ _ _ => Forall (fun p => 0 <= quantity p) ps
  | _ => True
  end.

(** The number of draws that the loops can make for a list of prizes. *)
Definition drawsFor (ps : list Prize) : nat :=
  foldr (fun p n => (Z.to_nat (quantity p) + n)%nat) 0%nat ps.

(** What holds of the variables of the drawing loop, with [l0] the
    participants at the time of the call: the eligible and the winners are
    distinct participants; an eligible one is untouched and has not won; a
    winner had not won and is now marked; whoever is not a winner is as
    before; every participant eligible at first is still eligible or a
    winner. *)
Record draw_inv (l0 : list Participant) (st : DrawState) : Prop := {
  inv_nodup : NoDup (ds_eligible st ++ ds_winners st);
  inv_eligible : forall i, i ∈ ds_eligible st ->
    exists p, l0 !! i = Some p /\ won p = false /\
              ds_participants st !! i = Some p;
  inv_winners : forall i, i ∈ ds_winners st ->
    exists p pid, l0 !! i = Some p /\ won p = false /\
                  ds_participants st !! i = Some (set_won pid p);
  inv_others : forall i, i ∉ ds_winners st ->
    ds_participants st !! i = l0 !! i;
  inv_count :
    (length (ds_eligible st) + length (ds_winners st))%nat
    = length (positions (fun p => negb (won p)) l0)
}.

(** ** Statistics *)

Record CampaignStats := {
  stats_totalParticipants : Z;
  stats_totalWinners : Z;
  stats_winRate : Q;
  stats_prizesRemaining : Z;
  stats_prizesDistributed : Z
}.

Definition winners_of (c : Campaign) : list Participant :=
  filter (fun p => Is_true (won p)) (participants c).

(** [getCampaignStats]; the rate is the quotient of the two counts, times
    100, as a rational. *)
Definition getCampaignStats (s : store) (id : string) : option CampaignStats :=
  match s !! id with
  | None => None
  | Some c =>
      let totalParticipants := Z.of_nat (length (participants c)) in
      let totalWinners := Z.of_nat (length (winners_of c)) in
      let winRate :=
        if 0 <? totalParticipants
        then (inject_Z totalWinners / inject_Z totalParticipants * 100)%Q
        else 0%Q in
      Some {| stats_totalParticipants := totalParticipants;
              stats_totalWinners := totalWinners;
              stats_winRate := winRate;
              stats_prizesRemaining := prizesRemaining c;
              stats_prizesDistributed := totalPrizes c - prizesRemaining c |}
  end.

(** ** Further predicates of the statements *)

(** The id that an operation acts on, and whether it creates it. *)
Definition target (o : op) : string :=
  match o with
  | CreateCampaign newId _ _ _ _ _ _ _ _ _ => newId
  | StartCampaign id _ | EndCampaign id _ => id
  | EnterCampaign id _ _ _ _ => id
  | RunLaterLottery id _ => id
  end.

Definition creates (o : op) (id : string) : Prop :=
  match o with
  | CreateCampaign newId _ _ _ _ _ _ _ _ _ => newId = id
  | _ => False
  end.

(** What a prize is, apart from its counter. *)
Definition prize_label (p : Prize) : string * string * Z * option string :=
  (prize_id p, prize_name p, quantity p, imageUrl p).

(** What a participant is, apart from the outcome of a draw. *)
Definition entry_of (p : Participant) : string * string * Z :=
  (userId p, username p, enteredAt p).

(** [c'] is a later state of the campaign [c]: the same campaign with the
    same prizes, of which none has more left than before, with the former
    participants in their places, the winners among them as they were. *)
Record evolves (c c' : Campaign) : Prop := {
  ev_id : campaign_id c' = campaign_id c;
  ev_name : campaign_name c' = campaign_name c;
  ev_type : type c' = type c;
  ev_description : description c' = description c;
  ev_dates : startDate c' = startDate c /\ endDate c' = endDate c;
  ev_rules : rules c' = rules c;
  ev_createdAt : createdAt c' = createdAt c;
  ev_labels : prize_label <$> prizes c' = prize_label <$> prizes c;
  ev_remaining :
    Forall2 (fun p p' => remaining p' <= remaining p) (prizes c) (prizes c');
  ev_entries :
    (entry_of <$> participants c) `prefix_of` (entry_of <$> participants c');
  ev_winners : forall i q,
    participants c !! i = Some q -> won q = true ->
    participants c' !! i = Some q
}.

(** A participant has won exactly when a prize is recorded, and the prize
    recorded is one of the ids [ids]. *)
Definition prize_recorded (ids : list string) (q : Participant) : Prop :=
  (won q = true <-> is_Some (prizeId q)) /\
  forall pid, prizeId q = Some pid -> pid ∈ ids.

(** An operation that hands no prize with an empty id to [createCampaign]. *)
Definition well_labelled (o : op) : Prop :=
  match o with
  | CreateCampaign _ _ _ _ _ _ ps _ _ _ =>
      Forall (fun p => truthy_string (prize_id p) = true) ps
  | _ => True
  end.

(** The participants who have not won. *)
Definition eligible_count (c : Campaign) : nat :=
  length (filter (fun p => won p = false) (participants c)).

(** Whether the instant draw of an entry is a win: the campaign is an
    instant one, a prize is left and the first draw is below the
    probability. *)
Definition instant_win (c : Campaign) (r1 : MathRandom) : bool :=
  is_instant (type c)
  && match positions (fun p => 0 <? remaining p) (prizes c) with
     | [] => false
     | _ :: _ => true
     end
  && js_lt (rnd_value r1 * 100)%Q (effectiveWinProbability (rules c)).

(** The two regimes of the counters of a campaign whose prizes all have a
    non-empty id: in an instant campaign what the prizes have lost is what
    the participants have won; in a later lottery no prize has lost
    anything. *)
Definition counters_agree (c : Campaign) : Prop :=
  Forall (fun p => truthy_string (prize_id p) = true) (prizes c) /\
  if is_instant (type c)
  then totalPrizes c - prizesRemaining c = Z.of_nat (length (winners_of c))
  else Forall (fun p => remaining p = quantity p) (prizes c).

End Campaigns.

(** ** Calls that overlap

    [enterCampaign] and [runLaterLottery] are asynchronous functions that
    wait: a call runs up to its first [await], and each further stretch of
    it runs later, after whatever the program did in between.
    [Campaigns.enterCampaign] and [Campaigns.runLaterLottery] are such calls
    with nothing in between.  Here a call is a sequence of steps, one for
    each stretch between two awaits, and the steps of several calls may
    alternate.  A suspended call holds the campaign object that it took from
    the map, so the campaign objects are kept by reference. *)
Module Overlap.
Import Campaigns.

(** A call suspended at an [await], with the variables it holds.
    - [EnterAwaitsDraw]: [enterCampaign] at
      [await this.runInstantLottery(campaign, participant)]; the draw itself
      has run, its result is in the promise.
    - [EnterAwaitsNotify]: [enterCampaign] at [await this.notifyWinner(...)]
      or [await this.notifyLoser(...)].
    - [LaterAwaitsNotify]: [runLaterLottery] at [await this.notifyWinner(...)]
      in the loop for the prize [pid], of which [n] iterations are left
      and after which the prizes [rest] follow; [eligible] and [winners] are
      its two arrays of references into [campaign.participants]. *)
Inductive Call :=
  | EnterAwaitsDraw (campaignId : string) (campaign : nat)
      (participant : Participant) (result : LotteryResult)
  | EnterAwaitsNotify (campaignId : string) (campaign : nat)
      (participant : Participant)
  | LaterAwaitsNotify (campaignId : string) (campaign : nat)
      (pid : string) (n : nat) (rest : list Prize)
      (eligible winners : list nat).

(** What the promise of a finished call holds: a campaign object or [null],
    a boolean, the winners as they are when the call returns, or the
    [TypeError] that it was rejected with. *)
Inductive Outcome :=
  | ReturnedCampaign (campaign : option nat)
  | ReturnedBool (b : bool)
  | ReturnedWinners (ws : list Participant)
  | Rejected.

(** The service and the calls under way.
    - [objects]: the campaign objects, by reference; [nextRef] is the next
      new one.
    - [campaigns]: the field of the class.
    - [suspended]: the calls that wait at an [await].
    - [returned]: the outcomes of the calls that have finished, in the order
      in which they finished. *)
Record Engine := {
  objects : gmap nat Campaign;
  nextRef : nat;
  campaigns : gmap string nat;
  suspended : list Call;
  returned : list Outcome
}.

Definition initial : Engine :=
  {| objects := ∅; nextRef := 0; campaigns := ∅; suspended := [];
     returned := [] |}.

(** *** Assignments *)

(** An assignment to fields of the campaign object [ref]. *)
Definition assign (ref : nat) (c : Campaign) (e : Engine) : Engine :=
  {| objects := <[ref := c]> (objects e); nextRef := nextRef e;
     campaigns := campaigns e; suspended := suspended e;
     returned := returned e |}.

(** [this.campaigns.set(campaignId, campaign)] *)
Definition campaigns_set (campaignId : string) (ref : nat) (e : Engine)
  : Engine :=
  {| objects := objects e; nextRef := nextRef e;
     campaigns := <[campaignId := ref]> (campaigns e);
     suspended := suspended e; returned := returned e |}.

Definition with_suspended (ts : list Call) (e : Engine) : Engine :=
  {| objects := objects e; nextRef := nextRef e; campaigns := campaigns e;
     suspended := ts; returned := returned e |}.

(** A call finishes with the outcome [o]. *)
Definition settle (o : Outcome) (e : Engine) : Engine :=
  {| objects := objects e; nextRef := nextRef e; campaigns := campaigns e;
     suspended := suspended e; returned := returned e ++ [o] |}.

(** The place of a call among the suspended ones: a call that has not
    waited yet has none, the [k]-th suspended call has the place [k]. *)
Definition put_call (slot : option nat) (t : Call) (ts : list Call)
  : list Call :=
  match slot with
  | None => ts ++ [t]
  | Some k => <[k := t]> ts
  end.

Definition drop_call (slot : option nat) (ts : list Call) : list Call :=
  match slot with
  | None => ts
  | Some k => delete k ts
  end.

(** *** The calls that do not wait *)

Definition createCampaign (e : Engine) (newId name : string)
    (ty : CampaignType) (descr : string) (start_ end_ : Z)
    (ps : list Prize) (rs : CampaignRules) (now1 now2 : Z) : Engine :=
  let campaign :=
    (Campaigns.createCampaign ∅ newId name ty descr start_ end_ ps rs
       now1 now2).1 in
  settle (ReturnedCampaign (Some (nextRef e)))
    {| objects := <[nextRef e := campaign]> (objects e);
       nextRef := S (nextRef e);
       campaigns := <[newId := nextRef e]> (campaigns e);
       suspended := suspended e; returned := returned e |}.

(** [startCampaign] and [endCampaign]: the status [st] is assigned. *)
Definition setCampaignStatus (st : CampaignStatus) (e : Engine) (id : string)
    (now : Z) : Engine :=
  match campaigns e !! id with
  | None => settle (ReturnedCampaign None) e
  | Some ref =>
      match objects e !! ref with
      | None => e
      | Some c =>
          settle (ReturnedCampaign (Some ref))
            (campaigns_set id ref (assign ref (set_status st now c) e))
      end
  end.

Definition startCampaign := setCampaignStatus active.
Definition endCampaign := setCampaignStatus ended.

(** *** [enterCampaign] *)

(** The call up to its first [await], or to its end when it does not wait:
    the three tests; then, in an instant campaign, the instant draw, which
    runs within the call and takes the prize at once (it does not throw).
    In a later lottery the participant is pushed without waiting.  A
    reference held by the map always denotes an object. *)
Definition enterCampaign (e : Engine) (campaignId : string) (user : XUser)
    (now : Z) (r1 r2 : MathRandom) : Engine :=
  match campaigns e !! campaignId with
  | None => settle (ReturnedBool false) e
  | Some ref =>
      match objects e !! ref with
      | None => e
      | Some c =>
          if negb (bool_decide (status c = active))
          then settle (ReturnedBool false) e
          else if existsb (fun p => bool_decide (userId p = user_id user))
                          (participants c)
          then settle (ReturnedBool false) e
          else
            let participant := new_participant user now in
            if is_instant (type c) then
              match runInstantLottery c r1 r2 with
              | Threw => settle Rejected e
              | Returned (result, c1) =>
                  with_suspended
                    (suspended e
                     ++ [EnterAwaitsDraw campaignId ref participant result])
                    (assign ref c1 e)
              end
            else
              settle (ReturnedBool true)
                (campaigns_set campaignId ref
                   (assign ref
                      (set_participants (participants c ++ [participant]) c)
                      e))
      end
  end.

(** The call from the result of the draw to the second [await]: the
    participant object, which only the call holds, is marked on a win. *)
Definition enterCampaign_drawn (e : Engine) (k : nat) (campaignId : string)
    (ref : nat) (participant : Participant) (result : LotteryResult)
  : Engine :=
  let participant' :=
    match won_with_prize result with
    | Some pid => set_won pid participant
    | None => participant
    end in
  with_suspended
    (<[k := EnterAwaitsNotify campaignId ref participant']> (suspended e)) e.

(** The call from the second [await] to its end: the participant is pushed
    to the array that the campaign object has by now, and the object is put
    under the id. *)
Definition enterCampaign_notified (e : Engine) (k : nat) (campaignId : string)
    (ref : nat) (participant : Participant) : Engine :=
  match objects e !! ref with
  | None => e
  | Some c =>
      settle (ReturnedBool true)
        (with_suspended (delete k (suspended e))
           (campaigns_set campaignId ref
              (assign ref
                 (set_participants (participants c ++ [participant]) c) e)))
  end.

(** *** [runLaterLottery] *)

(** The two loops from a point where [n] iterations are left for the
    prize [pid] and the prizes [rest] follow, with somebody eligible: the
    next iteration, if there is one, with what is left after it.  No
    operation changes the array of prizes of a campaign object, nor the id
    or the quantity of a prize, so that the call has the prizes that follow
    as they were when it was made. *)
Fixpoint next_draw (rest : list Prize) (n : nat) (pid : string)
    {struct rest} : option (nat * string * list Prize) :=
  match n with
  | S n' => Some (n', pid, rest)
  | O =>
      match rest with
      | [] => None
      | p :: rest' => next_draw rest' (Z.to_nat (quantity p)) (prize_id p)
      end
  end.

(** The loops of [runLaterLottery] from such a point up to the next [await],
    or to the end of the call.  With nobody eligible every iteration breaks.
    [r] is the result of [Math.random()] if a draw is made.  The winner is
    marked in the array that the campaign object has by now. *)
Definition runLaterLottery_loop (e : Engine) (slot : option nat)
    (campaignId : string) (ref : nat) (n : nat) (pid : string)
    (rest : list Prize) (eligible winners : list nat) (r : MathRandom)
  : Engine :=
  match objects e !! ref with
  | None => e
  | Some c =>
      match match eligible with
            | [] => None
            | _ :: _ => next_draw rest n pid
            end with
      | None =>
          settle
            (ReturnedWinners (omap (fun i => participants c !! i) winners))
            (with_suspended (drop_call slot (suspended e))
               (campaigns_set campaignId ref e))
      | Some (n', pid', rest') =>
          let randomIndex := random_index r (length eligible) in
          match eligible !! randomIndex with
          | None =>
              settle Rejected
                (with_suspended (drop_call slot (suspended e)) e)
          | Some winner =>
              with_suspended
                (put_call slot
                   (LaterAwaitsNotify campaignId ref pid' n' rest'
                      (delete randomIndex eligible) (winners ++ [winner]))
                   (suspended e))
                (assign ref
                   (set_participants
                      (alter (set_won pid') winner (participants c)) c)
                   e)
          end
      end
  end.

(** The call up to its first [await], or to its end when nothing is drawn. *)
Definition runLaterLottery (e : Engine) (campaignId : string)
    (r : MathRandom) : Engine :=
  match campaigns e !! campaignId with
  | None => settle (ReturnedWinners []) e
  | Some ref =>
      match objects e !! ref with
      | None => e
      | Some c =>
          if negb (bool_decide (type c = later_lottery))
          then settle (ReturnedWinners []) e
          else
            runLaterLottery_loop e None campaignId ref 0 EmptyString
              (prizes c)
              (positions (fun p => negb (won p)) (participants c)) [] r
      end
  end.

(** *** Steps *)

(** The [k]-th suspended call runs its next stretch. *)
Definition resume (e : Engine) (k : nat) (r : MathRandom) : Engine :=
  match suspended e !! k with
  | None => e
  | Some (EnterAwaitsDraw campaignId ref participant result) =>
      enterCampaign_drawn e k campaignId ref participant result
  | Some (EnterAwaitsNotify campaignId ref participant) =>
      enterCampaign_notified e k campaignId ref participant
  | Some (LaterAwaitsNotify campaignId ref pid n rest eligible winners) =>
      runLaterLottery_loop e (Some k) campaignId ref n pid rest
        eligible winners r
  end.

(** A call of the service is made, or a suspended call goes on.  The events
    of a sequence come in any order; the runtime lets suspended calls go on
    in the order in which what they wait for settles, which is one of
    them. *)
Inductive event :=
  | CreateCampaign (newId name : string) (ty : CampaignType) (descr : string)
      (start_ end_ : Z) (ps : list Prize) (rs : CampaignRules) (now1 now2 : Z)
  | StartCampaign (id : string) (now : Z)
  | EndCampaign (id : string) (now : Z)
  | EnterCampaign (campaignId : string) (user : XUser) (now : Z)
      (r1 r2 : MathRandom)
  | RunLaterLottery (campaignId : string) (r : MathRandom)
  | Resume (k : nat) (r : MathRandom).

Definition step (e : Engine) (ev : event) : Engine :=
  match ev with
  | CreateCampaign newId name ty descr start_ end_ ps rs now1 now2 =>
      createCampaign e newId name ty descr start_ end_ ps rs now1 now2
  | StartCampaign id now => startCampaign e id now
  | EndCampaign id now => endCampaign e id now
  | EnterCampaign campaignId user now r1 r2 =>
      enterCampaign e campaignId user now r1 r2
  | RunLaterLottery campaignId r => runLaterLottery e campaignId r
  | Resume k r => resume e k r
  end.

(** The engine after a sequence of events on a new service. *)
Definition trace (evs : list event) : Engine := fold_left step evs initial.

(** The campaign stored under an id. *)
Definition getCampaign (e : Engine) (id : string) : option Campaign :=
  match campaigns e !! id with
  | None => None
  | Some ref => objects e !! ref
  end.

(** *** Calls that are awaited *)

(** The [k]-th suspended call runs stretch after stretch until it has
    finished, for at most [fuel] stretches; [rnd j] is the result of the
    [j]-th call of [Math.random()] since the call was made. *)
Fixpoint resume_to_end (fuel : nat) (k : nat) (rnd : nat -> MathRandom)
    (j : nat) (e : Engine) : Engine :=
  match fuel with
  | O => e
  | S fuel' =>
      match suspended e !! k with
      | None => e
      | Some _ => resume_to_end fuel' k rnd (S j) (resume e k (rnd j))
      end
  end.

(** A call of the service with nothing between its stretches, as in
    [await service.enterCampaign(...)].  [enterCampaign] waits twice at
    most; [runLaterLottery] waits once for each winner, and there are no
    more winners than participants. *)
Definition awaited (e : Engine) (o : op) : Engine :=
  let k := length (suspended e) in
  match o with
  | Campaigns.CreateCampaign newId name ty descr start_ end_ ps rs now1 now2 =>
      createCampaign e newId name ty descr start_ end_ ps rs now1 now2
  | Campaigns.StartCampaign id now => startCampaign e id now
  | Campaigns.EndCampaign id now => endCampaign e id now
  | Campaigns.EnterCampaign campaignId user now r1 r2 =>
      resume (resume (enterCampaign e campaignId user now r1 r2) k r1) k r1
  | Campaigns.RunLaterLottery campaignId rnd =>
      let fuel :=
        match getCampaign e campaignId with
        | None => O
        | Some c => length (participants c)
        end in
      resume_to_end fuel k rnd 1 (runLaterLottery e campaignId (rnd O))
  end.

(** The events that [resume_to_end] and [awaited] consist of. *)
Fixpoint resumptions (fuel : nat) (k : nat) (rnd : nat -> MathRandom)
    (j : nat) (e : Engine) : list event :=
  match fuel with
  | O => []
  | S fuel' =>
      match suspended e !! k with
      | None => []
      | Some _ =>
          Resume k (rnd j) :: resumptions fuel' k rnd (S j) (resume e k (rnd j))
      end
  end.

Definition events_of (e : Engine) (o : op) : list event :=
  let k := length (suspended e) in
  match o with
  | Campaigns.CreateCampaign newId name ty descr start_ end_ ps rs now1 now2 =>
      [CreateCampaign newId name ty descr start_ end_ ps rs now1 now2]
  | Campaigns.StartCampaign id now => [StartCampaign id now]
  | Campaigns.EndCampaign id now => [EndCampaign id now]
  | Campaigns.EnterCampaign campaignId user now r1 r2 =>
      [EnterCampaign campaignId user now r1 r2; Resume k r1; Resume k r1]
  | Campaigns.RunLaterLottery campaignId rnd =>
      let fuel :=
        match getCampaign e campaignId with
        | None => O
        | Some c => length (participants c)
        end in
      RunLaterLottery campaignId (rnd O)
      :: resumptions fuel k rnd 1 (runLaterLottery e campaignId (rnd O))
  end.

(** The events of a sequence of calls, each awaited before the next is
    made. *)
Fixpoint events_of_all (e : Engine) (ops : list op) : list event :=
  match ops with
  | [] => []
  | o :: ops' => events_of e o ++ events_of_all (awaited e o) ops'
  end.

(** What an awaited call returns, by what the call of [Campaigns] on the
    store [s] returns. *)
Definition outcome_of (e : Engine) (s : store) (o : op) : Outcome :=
  match o with
  | Campaigns.CreateCampaign _ _ _ _ _ _ _ _ _ _ =>
      ReturnedCampaign (Some (nextRef e))
  | Campaigns.StartCampaign id _ | Campaigns.EndCampaign id _ =>
      ReturnedCampaign (campaigns e !! id)
  | Campaigns.EnterCampaign campaignId user now r1 r2 =>
      match (Campaigns.enterCampaign s campaignId user now r1 r2).1 with
      | Returned b => ReturnedBool b
      | Threw => Rejected
      end
  | Campaigns.RunLaterLottery campaignId rnd =>
      match (Campaigns.runLaterLottery s campaignId rnd).1 with
      | Returned ws => ReturnedWinners ws
      | Threw => Rejected
      end
  end.

(** The loops of [Campaigns.runLaterLottery] from a point where [n]
    iterations are left for the prize [pid] and the prizes [rest] follow. *)
Definition drawFrom (n : nat) (pid : string) (rest : list Prize)
    (rnd : nat -> MathRandom) (st : DrawState) : bool * DrawState :=
  match drawForPrize n pid rnd st with
  | (true, st') => (true, st')
  | (false, st') => drawForPrizes rest rnd st'
  end.

(** ** Predicates of the statements *)

(** The user ids of the participants that suspended calls of
    [enterCampaign] are about to push to the campaign object [ref]. *)
Definition entering_into (ref : nat) (t : Call) : option string :=
  match t with
  | EnterAwaitsDraw _ ref' participant _
  | EnterAwaitsNotify _ ref' participant =>
      if decide (ref' = ref) then Some (userId participant) else None
  | LaterAwaitsNotify _ _ _ _ _ _ _ => None
  end.

Definition entering (e : Engine) (ref : nat) : list string :=
  omap (entering_into ref) (suspended e).

(** An event that does not make a call of [enterCampaign] for a user while
    an earlier call for that user and that campaign is suspended. *)
Definition no_overlap (e : Engine) (ev : event) : Prop :=
  match ev with
  | EnterCampaign campaignId user _ _ _ =>
      forall ref, campaigns e !! campaignId = Some ref ->
                  user_id user ∉ entering e ref
  | _ => True
  end.

(** Every event of the sequence, made from [e] on, is such an event. *)
Fixpoint without_overlap (e : Engine) (evs : list event) : Prop :=
  match evs with
  | [] => True
  | ev :: evs' => no_overlap e ev /\ without_overlap (step e ev) evs'
  end.

(** The campaign object of a suspended call. *)
Definition call_ref (t : Call) : nat :=
  match t with
  | EnterAwaitsDraw _ ref _ _ | EnterAwaitsNotify _ ref _
  | LaterAwaitsNotify _ ref _ _ _ _ _ => ref
  end.

(** The engine with no call under way [e] and the store of campaigns [s]
    hold the same campaigns: every id has in the one what it has in the
    other, and no two ids share a campaign object. *)
Record represents (e : Engine) (s : store) : Prop := {
  rep_idle : suspended e = [];
  rep_campaigns : forall id, getCampaign e id = s !! id;
  rep_refs : forall id ref, campaigns e !! id = Some ref ->
    is_Some (objects e !! ref) /\ (ref < nextRef e)%nat;
  rep_distinct : forall id id' ref,
    campaigns e !! id = Some ref -> campaigns e !! id' = Some ref -> id = id'
}.

(** No user id occurs twice among the participants of a campaign object and
    those about to be pushed to it; the suspended calls and the map hold
    objects made so far. *)
Record unique_entries (e : Engine) : Prop := {
  ue_users : forall ref c, objects e !! ref = Some c ->
    NoDup ((userId <$> participants c) ++ entering e ref);
  ue_refs : forall t, t ∈ suspended e -> (call_ref t < nextRef e)%nat;
  ue_campaigns : forall id ref,
    campaigns e !! id = Some ref -> (ref < nextRef e)%nat
}.

End Overlap.


Module Scheduler.

(** ** Data model *)

Inductive PostStatus := pending | posted | failed.

#[global] Instance PostStatus_eq_dec : EqDecision PostStatus.
Proof. solve_decision. Defined.

Record ScheduledPost := {
  post_id : string;
  text : string;
  scheduledAt : Z;
  status : PostStatus;
  mediaUrls : option (list string);
  createdAt : Z
}.

(** [Partial<ScheduledPost>]: each key is present with a value, or absent. *)
Record PostUpdates := {
  upd_id : option string;
  upd_text : option string;
  upd_scheduledAt : option Z;
  upd_status : option PostStatus;
  upd_mediaUrls : option (option (list string));
  upd_createdAt : option Z
}.

(** The object spread [{ ...post, ...updates }]. *)
Definition spread (post : ScheduledPost) (updates : PostUpdates)
  : ScheduledPost :=
  {| post_id := default (post_id post) (upd_id updates);
     text := default (text post) (upd_text updates);
     scheduledAt := default (scheduledAt post) (upd_scheduledAt updates);
     status := default (status post) (upd_status updates);
     mediaUrls := default (mediaUrls post) (upd_mediaUrls updates);
     createdAt := default (createdAt post) (upd_createdAt updates) |}.

Definition set_status (st : PostStatus) (p : ScheduledPost) : ScheduledPost :=
  {| post_id := post_id p; text := text p; scheduledAt := scheduledAt p;
     status := st; mediaUrls := mediaUrls p; createdAt := createdAt p |}.

Definition set_scheduledAt (t : Z) (p : ScheduledPost) : ScheduledPost :=
  {| post_id := post_id p; text := text p; scheduledAt := t;
     status := status p; mediaUrls := mediaUrls p; createdAt := createdAt p |}.

(** What an armed timeout of the runtime does when it fires. *)
Inductive callback :=
  | CallExecutePost (postId : string)
  | CallCheckScheduledPosts.

(** An armed timeout: the delay after which the runtime fires it, and what it
    does then. *)
Record Timeout := {
  timeout_delay : Z;
  timeout_callback : callback
}.

(** The delay that [setTimeout(callback, ms)] arms in Node: a delay that is
    not between 1 and [TIMEOUT_MAX] = 2^31 - 1 milliseconds is replaced by
    1 millisecond.  The 60000 milliseconds of the sweep are armed as they
    are. *)
Definition TIMEOUT_MAX : Z := 2147483647.

Definition setTimeout_delay (ms : Z) : Z :=
  if (1 <=? ms) && (ms <=? TIMEOUT_MAX) then ms else 1.

(** A [Map<string, ScheduledPost>] keeps its keys in insertion order and its
    values are references to post objects. *)
Abbreviation PostMap := (list (string * nat)).

Fixpoint map_get (k : string) (m : PostMap) : option nat :=
  match m with
  | [] => None
  | (k', v) :: m' => if decide (k' = k) then Some v else map_get k m'
  end.

Fixpoint map_set (k : string) (v : nat) (m : PostMap) : PostMap :=
  match m with
  | [] => [(k, v)]
  | (k', v') :: m' =>
      if decide (k' = k) then (k, v) :: m' else (k', v') :: map_set k v m'
  end.

Fixpoint map_delete (k : string) (m : PostMap) : PostMap :=
  match m with
  | [] => []
  | (k', v') :: m' =>
      if decide (k' = k) then m' else (k', v') :: map_delete k m'
  end.

(** The service and the part of the runtime it uses.
    - [objects]: the post objects, by reference; [nextRef] is the next new one.
    - [scheduledPosts], [timers], [isRunning]: the three fields of the class;
      a timer is the handle of a timeout.
    - [timeouts]: the timeouts armed in the runtime; [nextHandle] is the
      handle of the next [setTimeout].
    - [publishing]: the calls of [executePost] suspended at
      [await this.publishPost(post)], each with its [postId] and the [post]
      object it holds. *)
Record State := {
  objects : gmap nat ScheduledPost;
  nextRef : nat;
  scheduledPosts : PostMap;
  timers : gmap string nat;
  isRunning : bool;
  timeouts : gmap nat Timeout;
  nextHandle : nat;
  publishing : list (string * nat)
}.

Definition initial : State :=
  {| objects := ∅; nextRef := 0; scheduledPosts := []; timers := ∅;
     isRunning := false; timeouts := ∅; nextHandle := 0; publishing := [] |}.

(** What [generateId()] gives: an id that no post object and no timer of
    the service carries. *)
Definition fresh_id (s : State) (newId : string) : Prop :=
  timers s !! newId = None /\
  forall ref post, objects s !! ref = Some post -> post_id post <> newId.

(** ** Operations *)

Definition getScheduledPost (s : State) (id : string)
  : option ScheduledPost :=
  match map_get id (scheduledPosts s) with
  | None => None
  | Some ref => objects s !! ref
  end.

(** [executePost] up to its first suspension: the post is looked up and
    [publishPost] is called. *)
Definition executePost (s : State) (postId : string) : State :=
  match map_get postId (scheduledPosts s) with
  | None => s
  | Some ref =>
      {| objects := objects s; nextRef := nextRef s;
         scheduledPosts := scheduledPosts s; timers := timers s;
         isRunning := isRunning s; timeouts := timeouts s;
         nextHandle := nextHandle s;
         publishing := publishing s ++ [(postId, ref)] |}
  end.

(** [executePost] from the moment [publishPost] settles, for the [k]-th
    suspended call: the status is assigned on the object held by the call,
    which is put back under [postId], and the timer entry is dropped. *)
Definition resumeExecutePost (s : State) (k : nat) (published : bool)
  : State :=
  match publishing s !! k with
  | None => s
  | Some (postId, ref) =>
      {| objects :=
           alter (set_status (if published then posted else failed)) ref
                 (objects s);
         nextRef := nextRef s;
         scheduledPosts := map_set postId ref (scheduledPosts s);
         timers := delete postId (timers s);
         isRunning := isRunning s; timeouts := timeouts s;
         nextHandle := nextHandle s;
         publishing := delete k (publishing s) |}
  end.

(** [setupTimer]; [now] is its reading of the clock.  The timeout is armed
    with the delay that the runtime makes of the one computed. *)
Definition setupTimer (s : State) (post : ScheduledPost) (now : Z) : State :=
  let delay := scheduledAt post - now in
  if delay <=? 0 then executePost s (post_id post)
  else
    {| objects := objects s; nextRef := nextRef s;
       scheduledPosts := scheduledPosts s;
       timers := <[post_id post := nextHandle s]> (timers s);
       isRunning := isRunning s;
       timeouts :=
         <[nextHandle s :=
             {| timeout_delay := setTimeout_delay delay;
                timeout_callback := CallExecutePost (post_id post) |}]>
         (timeouts s);
       nextHandle := S (nextHandle s);
       publishing := publishing s |}.

(** [schedulePost].  [newId] is the result of [generateId()], [created] the
    clock at [createdAt: new Date()], [now] the clock in the test
    [scheduledAt > new Date()] and [now'] the clock inside [setupTimer]. *)
Definition schedulePost (s : State) (newId txt : string) (at_ : Z)
    (media : option (list string)) (created now now' : Z)
  : ScheduledPost * State :=
  let post :=
    {| post_id := newId; text := txt; scheduledAt := at_; status := pending;
       mediaUrls := media; createdAt := created |} in
  let s1 :=
    {| objects := <[nextRef s := post]> (objects s);
       nextRef := S (nextRef s);
       scheduledPosts := map_set newId (nextRef s) (scheduledPosts s);
       timers := timers s; isRunning := isRunning s;
       timeouts := timeouts s; nextHandle := nextHandle s;
       publishing := publishing s |} in
  (post, if isRunning s && (now <? at_) then setupTimer s1 post now' else s1).

(** [clearTimeout(timer); this.timers.delete(id)] when [id] has a timer. *)
Definition cancelTimer (s : State) (id : string) : State :=
  match timers s !! id with
  | None => s
  | Some h =>
      {| objects := objects s; nextRef := nextRef s;
         scheduledPosts := scheduledPosts s;
         timers := delete id (timers s);
         isRunning := isRunning s;
         timeouts := delete h (timeouts s);
         nextHandle := nextHandle s;
         publishing := publishing s |}
  end.

(** [updateScheduledPost]; [now] is the clock in the test of the new date,
    [now'] the clock inside [setupTimer].  A reference held by the map always
    denotes an object. *)
Definition updateScheduledPost (s : State) (id : string)
    (updates : PostUpdates) (now now' : Z)
  : option ScheduledPost * State :=
  match getScheduledPost s id with
  | None => (None, s)
  | Some post =>
      if negb (bool_decide (status post = pending)) then (None, s)
      else
        let s1 := cancelTimer s id in
        let updatedPost := spread post updates in
        let s2 :=
          {| objects := <[nextRef s1 := updatedPost]> (objects s1);
             nextRef := S (nextRef s1);
             scheduledPosts := map_set id (nextRef s1) (scheduledPosts s1);
             timers := timers s1; isRunning := isRunning s1;
             timeouts := timeouts s1; nextHandle := nextHandle s1;
             publishing := publishing s1 |} in
        (Some updatedPost,
         if bool_decide (is_Some (upd_scheduledAt updates))
            && isRunning s && (now <? scheduledAt updatedPost)
         then setupTimer s2 updatedPost now'
         else s2)
  end.

Definition deleteScheduledPost (s : State) (id : string) : bool * State :=
  match getScheduledPost s id with
  | None => (false, s)
  | Some post =>
      if negb (bool_decide (status post = pending)) then (false, s)
      else
        let s1 := cancelTimer s id in
        (true,
         {| objects := objects s1; nextRef := nextRef s1;
            scheduledPosts := map_delete id (scheduledPosts s1);
            timers := timers s1; isRunning := isRunning s1;
            timeouts := timeouts s1; nextHandle := nextHandle s1;
            publishing := publishing s1 |})
  end.

(** [retryPost]; [now] is the clock at [post.scheduledAt = new Date()].  The
    call runs up to the suspension of [executePost]; it returns [true] once
    that call has finished. *)
Definition retryPost (s : State) (postId : string) (now : Z) : bool * State :=
  match map_get postId (scheduledPosts s) with
  | None => (false, s)
  | Some ref =>
      match objects s !! ref with
      | None => (false, s)
      | Some post =>
          if negb (bool_decide (status post = failed)) then (false, s)
          else
            let s1 :=
              {| objects :=
                   alter (fun p => set_scheduledAt now (set_status pending p))
                         ref (objects s);
                 nextRef := nextRef s;
                 scheduledPosts := map_set postId ref (scheduledPosts s);
                 timers := timers s; isRunning := isRunning s;
                 timeouts := timeouts s; nextHandle := nextHandle s;
                 publishing := publishing s |} in
            (true, if isRunning s then executePost s1 postId else s1)
      end
  end.

(** [getScheduledPosts('pending')], as references. *)
Definition is_pending (s : State) (ref : nat) : bool :=
  match objects s !! ref with
  | None => false
  | Some post => bool_decide (status post = pending)
  end.

Definition pendingPosts (s : State) : list nat :=
  filter (fun ref => Is_true (is_pending s ref)) (map snd (scheduledPosts s)).

(** The body of the [forEach] of [checkScheduledPosts] on one pending post;
    [now] is the clock read before the loop, [now'] the clock inside
    [setupTimer]. *)
Definition sweepPost (now now' : Z) (s : State) (ref : nat) : State :=
  match objects s !! ref with
  | None => s
  | Some post =>
      let noTimer := negb (bool_decide (is_Some (timers s !! post_id post))) in
      if (scheduledAt post <=? now) && noTimer then
        executePost s (post_id post)
      else if (now <? scheduledAt post) && noTimer then
        setupTimer s post now'
      else s
  end.

Fixpoint sweepPosts (now : Z) (clock : nat -> Z) (k : nat) (s : State)
    (refs : list nat) : State :=
  match refs with
  | [] => s
  | ref :: refs' =>
      sweepPosts now clock (S k) (sweepPost now (clock k) s ref) refs'
  end.

(** [checkScheduledPosts]: the reconciliation sweep, which re-arms itself.
    [clock k] is the clock inside [setupTimer] for the [k]-th pending post. *)
Definition checkScheduledPosts (s : State) (now : Z) (clock : nat -> Z)
  : State :=
  if negb (isRunning s) then s
  else
    let s1 := sweepPosts now clock 0 s (pendingPosts s) in
    {| objects := objects s1; nextRef := nextRef s1;
       scheduledPosts := scheduledPosts s1; timers := timers s1;
       isRunning := isRunning s1;
       timeouts :=
         <[nextHandle s1 :=
             {| timeout_delay := 60000;
                timeout_callback := CallCheckScheduledPosts |}]>
         (timeouts s1);
       nextHandle := S (nextHandle s1);
       publishing := publishing s1 |}.

Definition start (s : State) (now : Z) (clock : nat -> Z) : State :=
  if isRunning s then s
  else
    checkScheduledPosts
      {| objects := objects s; nextRef := nextRef s;
         scheduledPosts := scheduledPosts s; timers := timers s;
         isRunning := true; timeouts := timeouts s;
         nextHandle := nextHandle s; publishing := publishing s |}
      now clock.

(** [stop]: the timeouts of all timers are cleared; the timeout of the sweep
    has no handle in [timers] and stays armed. *)
Definition stop (s : State) : State :=
  if negb (isRunning s) then s
  else
    {| objects := objects s; nextRef := nextRef s;
       scheduledPosts := scheduledPosts s; timers := ∅;
       isRunning := false;
       timeouts :=
         map_fold (fun _ h acc => delete h acc) (timeouts s) (timers s);
       nextHandle := nextHandle s; publishing := publishing s |}.

(** The runtime fires the armed timeout [h]. *)
Definition fireTimeout (s : State) (h : nat) (now : Z) (clock : nat -> Z)
  : State :=
  match timeouts s !! h with
  | None => s
  | Some t =>
      let s1 :=
        {| objects := objects s; nextRef := nextRef s;
           scheduledPosts := scheduledPosts s; timers := timers s;
           isRunning := isRunning s; timeouts := delete h (timeouts s);
           nextHandle := nextHandle s; publishing := publishing s |} in
      match timeout_callback t with
      | CallExecutePost postId => executePost s1 postId
      | CallCheckScheduledPosts => checkScheduledPosts s1 now clock
      end
  end.

(** ** Predicates of the statements *)

(** During the loop of a sweep that starts in [s1], the objects and the map
    stay as they are, and the id [newId] has a timer only when the
    publication of the post object [r] has started. *)
Definition sweeping (s1 : State) (newId : string) (r : nat) (st : State)
  : Prop :=
  objects st = objects s1 /\ scheduledPosts st = scheduledPosts s1 /\
  (timers st !! newId = None \/ (newId, r) ∈ publishing st).

(** ** Queries *)

(** [Array.prototype.sort] with a comparator: a stable sort, here by
    insertion from the right.  [x] goes before the first element that the
    comparator does not put before it. *)
Fixpoint sort_insert {A : Type} (cmp : A -> A -> Z) (x : A) (l : list A)
  : list A :=
  match l with
  | [] => [x]
  | y :: l' => if cmp x y <=? 0 then x :: y :: l' else y :: sort_insert cmp x l'
  end.

Definition js_sort {A : Type} (cmp : A -> A -> Z) (l : list A) : list A :=
  foldr (sort_insert cmp) [] l.

(** [array.slice(0, n)]: a negative [n] counts from the end. *)
Definition slice_to {A : Type} (n : Z) (l : list A) : list A :=
  if n <? 0 then take (Z.to_nat (Z.of_nat (length l) + n)) l
  else take (Z.to_nat n) l.

Definition ascending (a b : ScheduledPost) : Z := scheduledAt a - scheduledAt b.
Definition descending (a b : ScheduledPost) : Z := scheduledAt b - scheduledAt a.

(** [Array.from(this.scheduledPosts.values())] *)
Definition values (s : State) : list ScheduledPost :=
  omap (fun kr => objects s !! kr.2) (scheduledPosts s).

(** [getScheduledPosts]: with a status the posts of that status, in the
    order of the map; without one all posts, sorted by time. *)
Definition getScheduledPosts (s : State) (st : option PostStatus)
  : list ScheduledPost :=
  match st with
  | Some st => filter (fun post => status post = st) (values s)
  | None => js_sort ascending (values s)
  end.


(** [getPastPosts]: [if (limit)] does not hold for a missing limit, nor for
    the limit zero. *)
Definition getPastPosts (s : State) (limit : option Z) : list ScheduledPost :=
  let posts :=
    js_sort descending
      (filter (fun post => status post = posted \/ status post = failed)
              (values s)) in
  match limit with
  | None => posts
  | Some n => if n =? 0 then posts else slice_to n posts
  end.

Record Statistics := {
  totalScheduled : Z;
  count_pending : Z;
  count_posted : Z;
  count_failed : Z;
  upcomingToday : Z
}.

(** [getStatistics]; [today] and [tomorrow] are the two midnights that the
    runtime computes from the clock in local time. *)
Definition getStatistics (s : State) (today tomorrow : Z) : Statistics :=
  let all := values s in
  let count (P : ScheduledPost -> Prop) `{!forall p, Decision (P p)} :=
    Z.of_nat (length (filter P all)) in
  {| totalScheduled := Z.of_nat (length all);
     count_pending := count (fun p => status p = pending);
     count_posted := count (fun p => status p = posted);
     count_failed := count (fun p => status p = failed);
     upcomingToday :=
       count (fun p => status p = pending /\ today <= scheduledAt p
                       /\ scheduledAt p < tomorrow) |}.

(** ** Sequences of events *)

(** The calls of the service and the two events of the runtime. *)
Inductive action :=
  | Start (now : Z) (clock : nat -> Z)
  | Stop
  | SchedulePost (newId txt : string) (at_ : Z) (media : option (list string))
      (created now now' : Z)
  | UpdateScheduledPost (id : string) (updates : PostUpdates) (now now' : Z)
  | DeleteScheduledPost (id : string)
  | RetryPost (postId : string) (now : Z)
  | TimeoutFires (h : nat) (now : Z) (clock : nat -> Z)
  | PublishSettles (k : nat) (published : bool).

Definition perform (s : State) (a : action) : State :=
  match a with
  | Start now clock => start s now clock
  | Stop => stop s
  | SchedulePost newId txt at_ media created now now' =>
      (schedulePost s newId txt at_ media created now now').2
  | UpdateScheduledPost id updates now now' =>
      (updateScheduledPost s id updates now now').2
  | DeleteScheduledPost id => (deleteScheduledPost s id).2
  | RetryPost postId now => (retryPost s postId now).2
  | TimeoutFires h now clock => fireTimeout s h now clock
  | PublishSettles k published => resumeExecutePost s k published
  end.

(** The state after a sequence of events on a new service. *)
Definition runs (acts : list action) : State := fold_left perform acts initial.

(** What holds of every state of the service: the map has each key once;
    the references of the map and of the suspended calls are references of
    objects made so far, which all exist; the handles of the timers and of
    the armed timeouts are handles given out so far. *)
Record wf (s : State) : Prop := {
  wf_keys : NoDup (scheduledPosts s).*1;
  wf_refs : forall k r, (k, r) ∈ scheduledPosts s -> (r < nextRef s)%nat;
  wf_publishing : forall k r, (k, r) ∈ publishing s -> (r < nextRef s)%nat;
  wf_objects : forall r, (r < nextRef s)%nat -> is_Some (objects s !! r);
  wf_timers : forall id h, timers s !! id = Some h -> (h < nextHandle s)%nat;
  wf_timeouts : forall h, is_Some (timeouts s !! h) -> (h < nextHandle s)%nat
}.

End Scheduler.

(** ** Concrete data for the examples *)

Module Examples.
Import Campaigns.

Definition draw_005 : MathRandom :=
  {| rnd_value := 5 # 100; rnd_in_range := I |}.
Definition draw_099 : MathRandom :=
  {| rnd_value := 99 # 100; rnd_in_range := I |}.
Definition draws_005 (k : nat) : MathRandom := draw_005.

Definition rules_with (p : option Q) : CampaignRules :=
  {| requireFollow := false; requireRetweet := false; requireLike := false;
     requireHashtag := None; winProbability := p |}.

Definition one_prize (q : Z) : Prize :=
  {| prize_id := "prize1"; prize_name := "Prize"; quantity := q;
     remaining := q; imageUrl := None |}.

Definition alice : XUser :=
  {| user_id := "u1"; user_username := "alice"; displayName := "Alice";
     followers := 10; following := 20 |}.
Definition bob : XUser :=
  {| user_id := "u2"; user_username := "bob"; displayName := "Bob";
     followers := 1; following := 2 |}.

(** A started campaign ["c1"] of the given type with one prize. *)
Definition started (ty : CampaignType) (q : Z) (p : option Q) : list op :=
  [ CreateCampaign "c1" "Campaign" ty "demo" 100 200 [one_prize q]
      (rules_with p) 0 0;
    StartCampaign "c1" 1 ].

Definition alice_enters : op := EnterCampaign "c1" alice 2 draw_005 draw_005.
Definition bob_enters : op := EnterCampaign "c1" bob 3 draw_099 draw_099.

(** Two calls of [enterCampaign] for alice that are made before either is
    awaited, on a started instant lottery: each runs up to its first
    [await], then both go on in turn. *)
Definition overlapping_entries : list Overlap.event :=
  [ Overlap.CreateCampaign "c1" "Campaign" instant_web "demo" 100 200
      [one_prize 1] (rules_with None) 0 0;
    Overlap.StartCampaign "c1" 1;
    Overlap.EnterCampaign "c1" alice 2 draw_099 draw_099;
    Overlap.EnterCampaign "c1" alice 3 draw_099 draw_099;
    Overlap.Resume 0 draw_099; Overlap.Resume 1 draw_099;
    Overlap.Resume 0 draw_099; Overlap.Resume 0 draw_099 ].

(** The same two calls, the second made when the first has been awaited. *)
Definition entries_in_turn : list Overlap.event :=
  [ Overlap.CreateCampaign "c1" "Campaign" instant_web "demo" 100 200
      [one_prize 1] (rules_with None) 0 0;
    Overlap.StartCampaign "c1" 1;
    Overlap.EnterCampaign "c1" alice 2 draw_099 draw_099;
    Overlap.Resume 0 draw_099; Overlap.Resume 0 draw_099;
    Overlap.EnterCampaign "c1" alice 3 draw_099 draw_099 ].

(** Two calls of [runLaterLottery] that are made before either is awaited,
    on a later lottery with two prizes to draw among alice and bob. *)
Definition overlapping_draws : list Overlap.event :=
  [ Overlap.CreateCampaign "c1" "Campaign" later_lottery "demo" 100 200
      [one_prize 2] (rules_with None) 0 0;
    Overlap.StartCampaign "c1" 1;
    Overlap.EnterCampaign "c1" alice 2 draw_099 draw_099;
    Overlap.EnterCampaign "c1" bob 3 draw_099 draw_099;
    Overlap.RunLaterLottery "c1" draw_005;
    Overlap.RunLaterLottery "c1" draw_005;
    Overlap.Resume 0 draw_005; Overlap.Resume 1 draw_005;
    Overlap.Resume 0 draw_005 ].

(** A scheduler that was started at time 0 with nothing to do. *)
Definition running : Scheduler.State :=
  Scheduler.start Scheduler.initial 0 (fun _ => 0).

(** Sequences of events of the scheduler: a post for time 500 scheduled at
    time 100 on a running scheduler; a post for time 50 scheduled at time 100
    on a running scheduler, then the sweep of the next minute, then the
    failure of the publication. *)
Definition timer_armed : list Scheduler.action :=
  [Scheduler.Start 0 (fun _ => 0);
   Scheduler.SchedulePost "post1" "hello" 500 None 100 100 100].

Definition overdue_scheduled : list Scheduler.action :=
  [Scheduler.Start 0 (fun _ => 0);
   Scheduler.SchedulePost "post1" "hello" 50 None 100 100 100].

Definition being_published : list Scheduler.action :=
  overdue_scheduled ++ [Scheduler.TimeoutFires 0 60000 (fun _ => 60000)].

Definition publication_failed : list Scheduler.action :=
  being_published ++ [Scheduler.PublishSettles 0 false].

Definition new_time (t : Z) : Scheduler.PostUpdates :=
  {| Scheduler.upd_id := None; Scheduler.upd_text := None;
     Scheduler.upd_scheduledAt := Some t; Scheduler.upd_status := None;
     Scheduler.upd_mediaUrls := None; Scheduler.upd_createdAt := None |}.

Definition new_time_and_id (t : Z) (id : string) : Scheduler.PostUpdates :=
  {| Scheduler.upd_id := Some id; Scheduler.upd_text := None;
     Scheduler.upd_scheduledAt := Some t; Scheduler.upd_status := None;
     Scheduler.upd_mediaUrls := None; Scheduler.upd_createdAt := None |}.
End Examples.

(** ** Facts about the shared definitions *)

Section helpers.
Context {A : Type}.
Implicit Types (f : A -> bool) (l : list A).

Lemma elem_of_positions_from f l i j :
  j ∈ positions_from f l i <->
  (i <= j)%nat /\ exists x, l !! (j - i)%nat = Some x /\ f x = true.
Proof.
  revert i. induction l as [|x l IH]; intros i; simpl.
  - split; [intros H; inversion H | intros (_ & y & Hy & _); discriminate].
  - assert (Htail : j ∈ positions_from f l (S i) <->
                    (i < j)%nat /\
                    exists y, (x :: l) !! (j - i)%nat = Some y /\ f y = true).
    { rewrite IH. split.
      - intros (Hle & y & Hy & Hf). split; [lia|]. exists y. split; [|done].
        replace (j - i)%nat with (S (j - S i)) by lia. done.
      - intros (Hlt & y & Hy & Hf). split; [lia|]. exists y. split; [|done].
        replace (j - i)%nat with (S (j - S i)) in Hy by lia. done. }
    destruct (f x) eqn:Hfx.
    + rewrite elem_of_cons, Htail. split.
      * intros [->|(Hlt & Hy)].
        -- split; [lia|]. exists x. by rewrite Nat.sub_diag.
        -- split; [lia | done].
      * intros (Hle & y & Hy & Hf).
        destruct (decide (j = i)) as [->|Hne]; [by left|].
        right. split; [lia|]. by exists y.
    + rewrite Htail. split.
      * intros (Hlt & Hy). split; [lia | done].
      * intros (Hle & y & Hy & Hf).
        destruct (decide (j = i)) as [->|Hne].
        -- rewrite Nat.sub_diag in Hy. simpl in Hy. congruence.
        -- split; [lia|]. by exists y.
Qed.

Lemma elem_of_positions f l j :
  j ∈ positions f l <-> exists x, l !! j = Some x /\ f x = true.
Proof.
  unfold positions. rewrite elem_of_positions_from, Nat.sub_0_r.
  split; [by intros [_ H] | intros H; split; [lia | done]].
Qed.

Lemma NoDup_positions_from f l i : NoDup (positions_from f l i).
Proof.
  revert i. induction l as [|x l IH]; intros i; simpl; [constructor|].
  destruct (f x); [|apply IH].
  constructor; [|apply IH].
  rewrite elem_of_positions_from. lia.
Qed.

Lemma NoDup_positions f l : NoDup (positions f l).
Proof. apply NoDup_positions_from. Qed.

Lemma length_positions_from f l i :
  length (positions_from f l i) = length (filter (fun x => f x = true) l).
Proof.
  revert i. induction l as [|x l IH]; intros i; simpl; [done|].
  rewrite filter_cons. destruct (f x) eqn:Hfx.
  - rewrite decide_True by done. simpl. by rewrite IH.
  - rewrite decide_False by congruence. apply IH.
Qed.

Lemma length_positions f l :
  length (positions f l) = length (filter (fun x => f x = true) l).
Proof. apply length_positions_from. Qed.
End helpers.

Lemma rnd_value_bounds (r : MathRandom) :
  (0 <= rnd_value r)%Q /\ (rnd_value r < 1)%Q.
Proof.
  destruct r as [q Hq]. simpl. unfold in_unit_interval in Hq.
  apply Is_true_true, andb_true_iff in Hq. destruct Hq as [H0 H1].
  split; [by apply Qle_bool_iff|].
  apply Qnot_le_lt. intros Hle. apply Qle_bool_iff in Hle.
  rewrite Hle in H1. discriminate.
Qed.

(** [Math.floor(Math.random() * n)] is a valid index of an array of length
    [n > 0]. *)
Lemma random_index_lt (r : MathRandom) (n : nat) :
  (0 < n)%nat -> (random_index r n < n)%nat.
Proof.
  intros Hn. unfold random_index.
  destruct (rnd_value_bounds r) as [H0 H1].
  set (x := (rnd_value r * inject_Z (Z.of_nat n))%Q).
  assert (Hn0 : (0 < inject_Z (Z.of_nat n))%Q).
  { rewrite <- (Zlt_Qlt 0). lia. }
  assert (Hx0 : (0 <= x)%Q).
  { unfold x. apply Qmult_le_0_compat; [done | by apply Qlt_le_weak]. }
  assert (Hx1 : (x < inject_Z (Z.of_nat n))%Q).
  { unfold x.
    rewrite <- (Qmult_1_l (inject_Z (Z.of_nat n))) at 2.
    by apply Qmult_lt_compat_r. }
  assert (Hf0 : 0 <= Qfloor x).
  { change 0 with (Qfloor 0). by apply Qfloor_resp_le. }
  assert (Hf1 : Qfloor x < Z.of_nat n).
  { rewrite Zlt_Qlt. eapply Qle_lt_trans; [apply Qfloor_le | done]. }
  lia.
Qed.

Lemma js_lt_true (a b : Q) : js_lt a b = true <-> (a < b)%Q.
Proof.
  unfold js_lt. rewrite negb_true_iff. split.
  - intros H. apply Qnot_le_lt. intros Hle. apply Qle_bool_iff in Hle.
    congruence.
  - intros H. destruct (Qle_bool b a) eqn:E; [|done].
    apply Qle_bool_iff in E. exfalso. by apply (Qlt_not_le a b).
Qed.

(** ** The campaign engine *)

Module CampaignTheory.
Import Campaigns.

(** The two ways an instant draw ends: a loss that leaves the campaign as it
    is, or a win of an available prize whose counter goes down by one.  The
    draw never throws. *)
Lemma runInstantLottery_cases c r1 r2 :
  runInstantLottery c r1 r2 = Returned (lost, c) \/
  exists ref prize,
    prizes c !! ref = Some prize /\ 0 < remaining prize /\
    js_lt (rnd_value r1 * 100)%Q (effectiveWinProbability (rules c)) = true /\
    runInstantLottery c r1 r2 =
      Returned ({| result_won := true;
                   result_prizeId := Some (prize_id prize) |},
                set_prizes (alter decrement ref (prizes c)) c).
Proof.
  unfold runInstantLottery.
  destruct (positions _ (prizes c)) as [|i av] eqn:Hav; [by left|].
  destruct (js_lt _ _) eqn:Hlt; [|by left].
  right.
  destruct (lookup_lt_is_Some_2 (i :: av)
              (random_index r2 (length (i :: av)))) as [ref Href].
  { apply random_index_lt. simpl. lia. }
  rewrite Href.
  assert (Hin : ref ∈ positions (fun p => 0 <? remaining p) (prizes c)).
  { rewrite Hav. eapply list_elem_of_lookup_2, Href. }
  apply elem_of_positions in Hin as (prize & Hprize & Hpos).
  rewrite Hprize. exists ref, prize.
  split; [done|]. split; [by apply Z.ltb_lt|]. split; [done|]. done.
Qed.

Lemma runInstantLottery_participants c r1 r2 res c1 :
  runInstantLottery c r1 r2 = Returned (res, c1) ->
  participants c1 = participants c /\ type c1 = type c /\
  status c1 = status c.
Proof.
  destruct (runInstantLottery_cases c r1 r2) as [H|(ref & prize & _ & _ & _ & H)];
    rewrite H; intros [= <- <-]; done.
Qed.

(** With a probability of 100 and a prize left, the instant draw is a win. *)
Lemma runInstantLottery_certain c r1 r2 prize :
  winProbability (rules c) = Some 100%Q ->
  prize ∈ prizes c -> 0 < remaining prize ->
  exists pid c1,
    runInstantLottery c r1 r2 =
      Returned ({| result_won := true; result_prizeId := Some pid |}, c1).
Proof.
  intros Hwp Hin Hrem.
  destruct (runInstantLottery_cases c r1 r2)
    as [H|(ref & prize' & _ & _ & _ & H)]; [|eauto].
  exfalso. revert H. unfold runInstantLottery.
  destruct (positions _ (prizes c)) as [|i av] eqn:Hav.
  { apply list_elem_of_lookup in Hin as [j Hj].
    assert (Hj' : j ∈ positions (fun p => 0 <? remaining p) (prizes c)).
    { apply elem_of_positions. exists prize. split; [done|]. by apply Z.ltb_lt. }
    rewrite Hav in Hj'. inversion Hj'. }
  assert (Hlt : js_lt (rnd_value r1 * 100)%Q
                  (effectiveWinProbability (rules c)) = true).
  { unfold effectiveWinProbability. rewrite Hwp. simpl.
    apply js_lt_true. destruct (rnd_value_bounds r1) as [_ H1].
    rewrite <- (Qmult_1_l 100) at 2. by apply Qmult_lt_compat_r. }
  rewrite Hlt.
  destruct (_ !! random_index r2 _) as [ref|]; [|discriminate].
  destruct (prizes c !! ref); discriminate.
Qed.

(** A probability that is not set, and one that is set to zero, both make
    the draw run at 10. *)
Lemma effectiveWinProbability_falsy rs :
  winProbability rs = None \/ winProbability rs = Some 0%Q ->
  effectiveWinProbability rs = 10%Q.
Proof. unfold effectiveWinProbability. by intros [-> | ->]. Qed.

(** *** Entering a campaign *)

Lemma already_entered_existsb c user :
  existsb (fun p => bool_decide (userId p = user_id user)) (participants c)
    = true <-> already_entered c user.
Proof.
  rewrite existsb_exists. unfold already_entered.
  split; intros (p & Hin & Hp); exists p.
  - apply bool_decide_eq_true in Hp. by rewrite list_elem_of_In.
  - rewrite bool_decide_eq_true, <- list_elem_of_In. done.
Qed.

(** What an accepted entry does: one participant with the user's id is
    appended, and the prizes are those left by the instant draw. *)
Lemma enterCampaign_accepted s campaignId c user now r1 r2 :
  s !! campaignId = Some c -> status c = active ->
  ~ already_entered c user ->
  exists p c1,
    enterCampaign s campaignId user now r1 r2 =
      (Returned true,
       <[campaignId := set_participants (participants c ++ [p]) c1]> s) /\
    userId p = user_id user /\
    (p = new_participant user now \/
     exists pid, p = set_won pid (new_participant user now)) /\
    (c1 = c \/
     exists ref prize,
       is_instant (type c) = true /\
       prizes c !! ref = Some prize /\ 0 < remaining prize /\
       c1 = set_prizes (alter decrement ref (prizes c)) c).
Proof.
  intros Hc Hact Hnew. unfold enterCampaign. rewrite Hc.
  rewrite bool_decide_eq_true_2 by done. simpl.
  destruct (existsb _ _) eqn:Hex.
  { by apply already_entered_existsb in Hex. }
  fold (new_participant user now).
  destruct (is_instant (type c)) eqn:Hty.
  - destruct (runInstantLottery_cases c r1 r2)
      as [H|(ref & prize & Hprize & Hpos & _ & H)]; rewrite H;
      unfold won_with_prize; simpl.
    + exists (new_participant user now), c. repeat split; eauto.
    + destruct (truthy_string (prize_id prize)).
      * eexists _, _. split; [reflexivity|]. split; [done|].
        split; [right; eauto|]. right. exists ref, prize. done.
      * eexists _, _. split; [reflexivity|]. split; [done|].
        split; [by left|]. right. exists ref, prize. done.
  - exists (new_participant user now), c. repeat split; eauto.
Qed.

Lemma enterCampaign_rejected s campaignId user now r1 r2 :
  (s !! campaignId = None \/
   exists c, s !! campaignId = Some c /\
             (status c <> active \/ already_entered c user)) ->
  enterCampaign s campaignId user now r1 r2 = (Returned false, s).
Proof.
  unfold enterCampaign. intros [->|(c & -> & [Hst|Hdup])]; [done| |].
  - by rewrite bool_decide_eq_false_2.
  - destruct (negb _); [done|].
    apply already_entered_existsb in Hdup. by rewrite Hdup.
Qed.

(** C7.  [endCampaign] on a campaign that is already ended returns the
    campaign (not [null]), its status is still [ended], and the stored
    campaign differs from the one before in its update time only. *)
Theorem endCampaign_on_ended s id c now :
  s !! id = Some c -> status c = ended ->
  exists c',
    endCampaign s id now = (Some c', <[id := c']> s) /\
    status c' = ended /\
    snd (endCampaign s id now) !! id = Some c' /\
    c' = set_status (status c) now c.
Proof.
  intros Hc Hst. unfold endCampaign. rewrite Hc. eexists. split; [done|].
  simpl. rewrite lookup_insert_eq, Hst. done.
Qed.


(** The instant draw does not read the period of the campaign. *)
Lemma runInstantLottery_set_dates c start_ end_ r1 r2 :
  runInstantLottery (set_dates start_ end_ c) r1 r2
  = match runInstantLottery c r1 r2 with
    | Returned (result, c1) => Returned (result, set_dates start_ end_ c1)
    | Threw => Threw
    end.
Proof.
  unfold runInstantLottery. simpl.
  destruct (positions _ (prizes c)); [reflexivity|].
  destruct (js_lt _ _); [|reflexivity].
  destruct (_ !! random_index r2 _) as [ref|]; [|reflexivity].
  destruct (prizes c !! ref) as [prize|]; reflexivity.
Qed.

Lemma alter_stored (f : Campaign -> Campaign) (s : store) id c :
  s !! id = Some c -> alter f id s = <[id := f c]> s.
Proof.
  intros Hc. apply map_eq. intros id'.
  destruct (decide (id = id')) as [<-|Hne].
  - by rewrite lookup_alter_eq, lookup_insert_eq, Hc.
  - by rewrite lookup_alter_ne, lookup_insert_ne.
Qed.

(** C9.  An active campaign accepts a user who has not entered, whatever the
    time of the call and whatever its period: the call returns [true] and
    the campaign stored afterwards has the participants it had, followed by
    one participant for the user, entered at the time of the call.  Result
    and store of [enterCampaign] are the same for a campaign and for that
    campaign with another period, the period apart.  The period is tested by
    [getActiveCampaigns] alone. *)
Theorem enterCampaign_ignores_dates s id c user now r1 r2 :
  s !! id = Some c ->
  (status c = active -> ~ already_entered c user ->
   exists p c1,
     enterCampaign s id user now r1 r2
     = (Returned true, <[id := set_participants (participants c ++ [p]) c1]> s)
     /\ userId p = user_id user /\ enteredAt p = now
     /\ startDate c1 = startDate c /\ endDate c1 = endDate c) /\
  (forall start_ end_,
     enterCampaign (<[id := set_dates start_ end_ c]> s) id user now r1 r2
     = ((enterCampaign s id user now r1 r2).1,
        alter (set_dates start_ end_) id
              (enterCampaign s id user now r1 r2).2)) /\
  (c ∈ getActiveCampaigns s now <->
   status c = active /\ startDate c <= now <= endDate c).
Proof.
  intros Hc. split; [|split].
  - intros Hact Hnew.
    destruct (enterCampaign_accepted s id c user now r1 r2 Hc Hact Hnew)
      as (p & c1 & Heq & Hid & Hp & Hc1).
    exists p, c1. split; [done|]. split; [done|]. split.
    + by destruct Hp as [->|(pid & ->)].
    + by destruct Hc1 as [->|(ref & prize & _ & _ & _ & ->)].
  - intros start_ end_. unfold enterCampaign.
    rewrite lookup_insert_eq, Hc. simpl.
    destruct (negb _); [by rewrite (alter_stored _ s id c)|].
    destruct (existsb _ _); [by rewrite (alter_stored _ s id c)|].
    destruct (is_instant (type c)).
    + rewrite runInstantLottery_set_dates.
      destruct (runInstantLottery c r1 r2) as [[result c1]|]; simpl.
      * destruct (won_with_prize result); simpl;
          rewrite insert_insert_eq,
            (alter_stored _ _ id _ (lookup_insert_eq _ _ _)), insert_insert_eq;
          reflexivity.
      * by rewrite (alter_stored _ s id c).
    + simpl.
      rewrite insert_insert_eq,
        (alter_stored _ _ id _ (lookup_insert_eq _ _ _)), insert_insert_eq.
      reflexivity.
  - unfold getActiveCampaigns, in_active_window.
    rewrite list_elem_of_filter, !andb_True, bool_decide_spec.
    rewrite Is_true_true, Is_true_true, Z.leb_le, Z.leb_le.
    split.
    + intros [[[??]?] _]. done.
    + intros (? & ? & ?). split; [done|].
      apply list_elem_of_fmap. exists (id, c). split; [done|].
      by apply elem_of_map_to_list.
Qed.

(** *** Invariants along sequences of operations *)

Lemma run_snoc ops o : run (ops ++ [o]) = exec (run ops) o.
Proof. unfold run. by rewrite fold_left_app. Qed.

(** A property of the store that holds for a new service and is kept by
    every admitted operation holds after every sequence of them. *)
Lemma run_invariant (P : store -> Prop) (admitted : op -> Prop) :
  P ∅ ->
  (forall s o, P s -> admitted o -> P (exec s o)) ->
  forall ops, Forall admitted ops -> P (run ops).
Proof.
  intros Hinit Hstep ops. induction ops as [|o ops IH] using rev_ind.
  - done.
  - rewrite Forall_app, Forall_singleton. intros [Hops Ho].
    rewrite run_snoc. auto.
Qed.

Lemma every_campaign_insert P s id c :
  every_campaign P s -> P c -> every_campaign P (<[id := c]> s).
Proof.
  intros Hs Hc id' c'. rewrite lookup_insert.
  case_decide; [by intros [= <-] | apply Hs].
Qed.

Lemma alter_set_won_userIds pid i (l : list Participant) :
  userId <$> alter (set_won pid) i l = userId <$> l.
Proof.
  apply list_eq. intros j. rewrite !list_lookup_fmap, list_lookup_alter.
  case_decide as Hij; [|done]. subst j. by destruct (l !! i).
Qed.

(** The later lottery assigns [won] and [prizeId] of participants and
    nothing else. *)
Lemma drawForPrize_userIds n pid rnd st :
  userId <$> ds_participants (drawForPrize n pid rnd st).2
  = userId <$> ds_participants st.
Proof.
  revert st. induction n as [|n IH]; intros st; simpl; [done|].
  destruct (ds_eligible st) as [|e el] eqn:Hel; [done|].
  destruct (_ !! _) as [winner|]; [|done].
  rewrite IH. simpl. apply alter_set_won_userIds.
Qed.

Lemma drawForPrizes_userIds ps rnd st :
  userId <$> ds_participants (drawForPrizes ps rnd st).2
  = userId <$> ds_participants st.
Proof.
  revert st. induction ps as [|p ps IH]; intros st; simpl; [done|].
  pose proof (drawForPrize_userIds (Z.to_nat (quantity p)) (prize_id p) rnd st)
    as Hp.
  destruct (drawForPrize _ _ _ st) as [[] st']; simpl in *; [done|].
  by rewrite IH.
Qed.

Lemma runLaterLottery_store s campaignId rnd :
  (runLaterLottery s campaignId rnd).2 = s \/
  exists c,
    s !! campaignId = Some c /\ type c = later_lottery /\
    (runLaterLottery s campaignId rnd).2 =
      <[campaignId :=
          set_participants (ds_participants (laterLotteryDraw c rnd).2) c]> s.
Proof.
  unfold runLaterLottery. destruct (s !! campaignId) as [c|]; [|by left].
  destruct (decide (type c = later_lottery)) as [Hty|Hty].
  - rewrite bool_decide_eq_true_2 by done. simpl. right. exists c.
    split; [done|]. split; [done|].
    by destruct (laterLotteryDraw c rnd) as [[] st].
  - rewrite bool_decide_eq_false_2 by done. by left.
Qed.

Lemma enterCampaign_store s campaignId user now r1 r2 :
  enterCampaign s campaignId user now r1 r2 = (Returned false, s) \/
  exists c p c1,
    s !! campaignId = Some c /\ status c = active /\
    ~ already_entered c user /\
    enterCampaign s campaignId user now r1 r2 =
      (Returned true,
       <[campaignId := set_participants (participants c ++ [p]) c1]> s) /\
    userId p = user_id user /\
    (c1 = c \/
     exists ref prize,
       is_instant (type c) = true /\
       prizes c !! ref = Some prize /\ 0 < remaining prize /\
       c1 = set_prizes (alter decrement ref (prizes c)) c).
Proof.
  destruct (s !! campaignId) as [c|] eqn:Hc.
  2: { left. apply enterCampaign_rejected. by left. }
  destruct (decide (status c = active)) as [Hact|Hact].
  2: { left. apply enterCampaign_rejected. right. exists c. auto. }
  destruct (existsb (fun p => bool_decide (userId p = user_id user))
                    (participants c)) eqn:Hex.
  { left. apply enterCampaign_rejected. right. exists c.
    split; [done|]. right. by apply already_entered_existsb. }
  assert (Hnew : ~ already_entered c user).
  { intros H. apply already_entered_existsb in H. congruence. }
  right.
  destruct (enterCampaign_accepted s campaignId c user now r1 r2 Hc Hact Hnew)
    as (p & c1 & Heq & Hp & _ & Hc1).
  exists c, p, c1. done.
Qed.

(** *** The counter of a prize *)

Lemma exec_in_range s o :
  every_campaign (fun c => Forall in_range (prizes c)) s ->
  well_stocked o ->
  every_campaign (fun c => Forall in_range (prizes c)) (exec s o).
Proof.
  intros Hs Ho.
  destruct o as [newId name ty descr start_ end_ ps rs now1 now2
                | id now | id now | cid user now r1 r2 | cid rnd]; simpl.
  - apply every_campaign_insert; [done|]. simpl.
    apply Forall_fmap. eapply Forall_impl; [exact Ho|].
    intros p Hp. unfold in_range, compose. simpl in *. lia.
  - unfold startCampaign. destruct (s !! id) as [c|] eqn:Hc; [|done].
    apply every_campaign_insert; [done|]. apply (Hs _ _ Hc).
  - unfold endCampaign. destruct (s !! id) as [c|] eqn:Hc; [|done].
    apply every_campaign_insert; [done|]. apply (Hs _ _ Hc).
  - destruct (enterCampaign_store s cid user now r1 r2)
      as [->|(c & p & c1 & Hc & _ & _ & -> & _ & Hc1)]; [done|].
    apply every_campaign_insert; [done|]. simpl.
    destruct Hc1 as [->|(ref & prize & _ & Hprize & Hpos & ->)].
    + apply (Hs _ _ Hc).
    + simpl. apply Forall_alter; [apply (Hs _ _ Hc)|].
      intros x Hx. unfold in_range. simpl.
      assert (x = prize) as -> by congruence. lia.
  - destruct (runLaterLottery_store s cid rnd) as [->|(c & Hc & _ & ->)];
      [done|].
    apply every_campaign_insert; [done|]. apply (Hs _ _ Hc).
Qed.

(** C4, as the code has it.  After any sequence of operations of the engine
    in which [createCampaign] is given no negative quantity, every prize of
    every campaign has [0 <= remaining <= quantity]. *)
Theorem remaining_within_quantity ops id c p :
  Forall well_stocked ops ->
  run ops !! id = Some c -> p ∈ prizes c ->
  0 <= remaining p <= quantity p.
Proof.
  intros Hops Hc Hp.
  assert (H : every_campaign (fun c => Forall in_range (prizes c)) (run ops)).
  { apply (run_invariant _ well_stocked); [done | apply exec_in_range | done]. }
  specialize (H id c Hc). rewrite Forall_forall in H. by apply H.
Qed.

(** C4 fails as it is written: a prize created with a negative quantity
    starts with a negative [remaining]. *)
Lemma remaining_negative_after_create :
  ~ (forall ops id c p,
       run ops !! id = Some c -> p ∈ prizes c ->
       0 <= remaining p <= quantity p).
Proof.
  intros H.
  specialize (H [CreateCampaign "c1" "Campaign" instant_web "demo" 100 200
                   [Examples.one_prize (-1)] (Examples.rules_with None) 0 0]
                "c1").
  assert (Hc : exists c, run [CreateCampaign "c1" "Campaign" instant_web
                   "demo" 100 200 [Examples.one_prize (-1)]
                   (Examples.rules_with None) 0 0] !! "c1" = Some c /\
                 prizes c = [Examples.one_prize (-1)]).
  { eexists. split; vm_compute; reflexivity. }
  destruct Hc as (c & Hc & Hps).
  specialize (H c (Examples.one_prize (-1)) Hc).
  rewrite Hps in H. specialize (H (list_elem_of_here _ _)).
  simpl in H. lia.
Qed.

(** *** One record per user *)

Lemma exec_unique_users s o :
  every_campaign (fun c => NoDup (userId <$> participants c)) s ->
  every_campaign (fun c => NoDup (userId <$> participants c)) (exec s o).
Proof.
  intros Hs.
  destruct o as [newId name ty descr start_ end_ ps rs now1 now2
                | id now | id now | cid user now r1 r2 | cid rnd]; simpl.
  - apply every_campaign_insert; [done|]. simpl. constructor.
  - unfold startCampaign. destruct (s !! id) as [c|] eqn:Hc; [|done].
    apply every_campaign_insert; [done|]. apply (Hs _ _ Hc).
  - unfold endCampaign. destruct (s !! id) as [c|] eqn:Hc; [|done].
    apply every_campaign_insert; [done|]. apply (Hs _ _ Hc).
  - destruct (enterCampaign_store s cid user now r1 r2)
      as [->|(c & p & c1 & Hc & _ & Hnew & -> & Hp & _)]; [done|].
    apply every_campaign_insert; [done|]. simpl.
    rewrite fmap_app. apply NoDup_app. split; [apply (Hs _ _ Hc)|].
    split; [|apply NoDup_singleton].
    intros x Hx Hx'. apply list_elem_of_singleton in Hx'. subst x.
    apply list_elem_of_fmap in Hx as (q & Hq & Hin).
    apply Hnew. exists q. split; [done|]. congruence.
  - destruct (runLaterLottery_store s cid rnd) as [->|(c & Hc & _ & ->)];
      [done|].
    apply every_campaign_insert; [done|]. simpl.
    unfold laterLotteryDraw. rewrite drawForPrizes_userIds. simpl.
    apply (Hs _ _ Hc).
Qed.

(** After any sequence of calls, each taken as a whole, no two participants
    of a campaign have the same user id. *)
Lemma run_unique_users ops id c :
  run ops !! id = Some c -> NoDup (userId <$> participants c).
Proof.
  intros Hc.
  assert (H : every_campaign (fun c => NoDup (userId <$> participants c))
                (run ops)).
  { apply (run_invariant _ (fun _ => True)).
    - done.
    - intros s' o Hs' _. by apply exec_unique_users.
    - by apply Forall_true. }
  by apply (H id c).
Qed.

(** *** The later lottery *)

Lemma draw_inv_initial c : draw_inv (participants c) (initialDraw c).
Proof.
  split; simpl.
  - rewrite app_nil_r. apply NoDup_positions.
  - intros i Hi. apply elem_of_positions in Hi as (p & Hp & Hw).
    exists p. by apply negb_true_iff in Hw.
  - intros i Hi. inversion Hi.
  - done.
  - lia.
Qed.

(** One draw: the participant at position [k] of the eligible ones wins. *)
Lemma draw_inv_step l0 st k winner pid :
  draw_inv l0 st ->
  ds_eligible st !! k = Some winner ->
  draw_inv l0
    {| ds_participants := alter (set_won pid) winner (ds_participants st);
       ds_eligible := delete k (ds_eligible st);
       ds_winners := ds_winners st ++ [winner];
       ds_draws := S (ds_draws st) |}.
Proof.
  intros [Hnd Hel Hws Hoth Hcnt] Hk.
  pose proof (delete_Permutation _ _ _ Hk) as Hperm.
  assert (Hwin_el : winner ∈ ds_eligible st)
    by (eapply list_elem_of_lookup_2, Hk).
  assert (Hnd' : NoDup (winner :: delete k (ds_eligible st) ++ ds_winners st)).
  { rewrite app_comm_cons, <- Hperm. done. }
  apply NoDup_cons in Hnd' as [Hfresh Hnd'].
  rewrite elem_of_app in Hfresh.
  split; simpl.
  - rewrite app_assoc. apply NoDup_app. split; [done|].
    split; [|apply NoDup_singleton].
    intros x Hx Hx'. apply list_elem_of_singleton in Hx'. subst x.
    apply Hfresh. by apply elem_of_app.
  - intros i Hi.
    assert (i <> winner) by (intros ->; apply Hfresh; by left).
    destruct (Hel i (list_elem_of_delete_inv _ _ _ Hi)) as (p & ? & ? & ?).
    exists p. by rewrite list_lookup_alter_ne.
  - intros i Hi. apply elem_of_app in Hi as [Hi|Hi].
    + assert (i <> winner) by (intros ->; apply Hfresh; by right).
      destruct (Hws i Hi) as (p & pid' & ? & ? & ?).
      exists p, pid'. by rewrite list_lookup_alter_ne.
    + apply list_elem_of_singleton in Hi. subst i.
      destruct (Hel winner Hwin_el) as (p & ? & ? & Hp).
      exists p, pid. by rewrite list_lookup_alter_eq, Hp.
  - intros i Hi. rewrite elem_of_app, list_elem_of_singleton in Hi.
    rewrite list_lookup_alter_ne by (intros ->; apply Hi; by right).
    apply Hoth. intros Hi'. apply Hi. by left.
  - rewrite length_app, length_delete by eauto. simpl.
    assert (0 < length (ds_eligible st))%nat
      by (eapply Nat.le_lt_trans; [|eapply lookup_lt_Some, Hk]; lia).
    lia.
Qed.

(** The draws for one prize do not throw and add at most [n] winners. *)
Lemma drawForPrize_inv l0 n pid rnd st :
  draw_inv l0 st ->
  exists st',
    drawForPrize n pid rnd st = (false, st') /\ draw_inv l0 st' /\
    (length (ds_winners st') <= length (ds_winners st) + n)%nat.
Proof.
  revert st. induction n as [|n IH]; intros st Hinv; simpl.
  { exists st. split; [done|]. split; [done|]. lia. }
  destruct (ds_eligible st) as [|e el] eqn:Hel.
  { exists st. split; [done|]. split; [done|]. lia. }
  destruct (lookup_lt_is_Some_2 (e :: el)
              (random_index (rnd (ds_draws st)) (length (e :: el))))
    as [winner Hw].
  { apply random_index_lt. simpl. lia. }
  rewrite Hw. rewrite <- Hel in Hw |- *.
  destruct (IH _ (draw_inv_step l0 st _ winner pid Hinv Hw))
    as (st' & Heq & Hinv' & Hlen).
  exists st'. split; [done|]. split; [done|].
  simpl in Hlen. rewrite length_app in Hlen. simpl in Hlen. lia.
Qed.

Lemma drawForPrizes_inv l0 ps rnd st :
  draw_inv l0 st ->
  exists st',
    drawForPrizes ps rnd st = (false, st') /\ draw_inv l0 st' /\
    (length (ds_winners st') <= length (ds_winners st) + drawsFor ps)%nat.
Proof.
  revert st. induction ps as [|p ps IH]; intros st Hinv; simpl.
  { exists st. split; [done|]. split; [done|]. lia. }
  destruct (drawForPrize_inv l0 (Z.to_nat (quantity p)) (prize_id p) rnd st Hinv)
    as (st1 & -> & Hinv1 & Hlen1).
  destruct (IH st1 Hinv1) as (st' & Heq & Hinv' & Hlen').
  exists st'. split; [done|]. split; [done|]. lia.
Qed.

Lemma fold_left_quantities (f : Z -> Z) ps a :
  fold_left (fun sum p => sum + f (quantity p)) ps a
  = a + fold_left (fun sum p => sum + f (quantity p)) ps 0.
Proof.
  revert a. induction ps as [|p ps IH]; intros a; simpl; [lia|].
  rewrite (IH (a + _)), (IH (0 + _)). lia.
Qed.

Lemma drawsFor_sum ps :
  Z.of_nat (drawsFor ps)
  = fold_left (fun sum p => sum + Z.max 0 (quantity p)) ps 0.
Proof.
  induction ps as [|p ps IH]; simpl; [done|].
  rewrite fold_left_quantities, <- IH. lia.
Qed.

Lemma totalPrizes_nonneg c :
  Forall (fun p => 0 <= quantity p) (prizes c) ->
  fold_left (fun sum p => sum + Z.max 0 (quantity p)) (prizes c) 0
  = totalPrizes c.
Proof.
  unfold totalPrizes. induction 1 as [|p ps Hp _ IH]; simpl; [done|].
  rewrite fold_left_quantities, IH.
  rewrite (fold_left_quantities (fun q => q) ps (0 + quantity p)). lia.
Qed.

Lemma length_omap_lookup {A} (l : list A) (refs : list nat) :
  (forall i, i ∈ refs -> is_Some (l !! i)) ->
  length (omap (fun i => l !! i) refs) = length refs.
Proof.
  induction refs as [|i refs IH]; intros H; simpl; [done|].
  destruct (H i (list_elem_of_here _ _)) as [x ->]. simpl.
  f_equal. apply IH. intros j Hj. apply H. by right.
Qed.

(** The call of [runLaterLottery] taken as a whole.  On a campaign of
    another type it returns no winner and leaves the store as it was.  On a
    later lottery it returns (it does not throw) the participants it marks,
    and
    - they are no more than the participants who had not won at the call;
    - they are no more than the sum of the quantities, a negative quantity
      counting as zero, hence no more than [totalPrizes] when no quantity is
      negative;
    - they are distinct participants, none of whom had won before the call,
      and every other participant, a winner of an earlier call among them,
      is left as it was. *)
Lemma runLaterLottery_bounds s campaignId c rnd :
  s !! campaignId = Some c ->
  (type c <> later_lottery ->
   runLaterLottery s campaignId rnd = (Returned [], s)) /\
  (type c = later_lottery ->
   exists st,
     laterLotteryDraw c rnd = (false, st) /\
     let winners := omap (fun i => ds_participants st !! i) (ds_winners st) in
     runLaterLottery s campaignId rnd =
       (Returned winners,
        <[campaignId := set_participants (ds_participants st) c]> s) /\
     length winners = length (ds_winners st) /\
     (length winners
      <= length (filter (fun p => won p = false) (participants c)))%nat /\
     Z.of_nat (length winners)
       <= fold_left (fun sum p => sum + Z.max 0 (quantity p)) (prizes c) 0 /\
     (Forall (fun p => 0 <= quantity p) (prizes c) ->
      Z.of_nat (length winners) <= totalPrizes c) /\
     NoDup (ds_winners st) /\
     (forall i, i ∈ ds_winners st ->
        exists p pid,
          participants c !! i = Some p /\ won p = false /\
          ds_participants st !! i = Some (set_won pid p)) /\
     (forall i, i ∉ ds_winners st ->
        ds_participants st !! i = participants c !! i)).
Proof.
  intros Hc. split.
  - intros Hty. unfold runLaterLottery.
    by rewrite Hc, bool_decide_eq_false_2.
  - intros Hty.
    destruct (drawForPrizes_inv (participants c) (prizes c) rnd (initialDraw c)
                (draw_inv_initial c))
      as (st & Hdraw & [Hnd Hel Hws Hoth Hcnt] & Hlen).
    exists st. split; [done|]. simpl.
    assert (Hlen_w :
      length (omap (fun i => ds_participants st !! i) (ds_winners st))
      = length (ds_winners st)).
    { apply length_omap_lookup. intros i Hi.
      destruct (Hws i Hi) as (p & pid & _ & _ & ->). eauto. }
    assert (Hbound :
      Z.of_nat (length (ds_winners st))
      <= fold_left (fun sum p => sum + Z.max 0 (quantity p)) (prizes c) 0).
    { rewrite <- drawsFor_sum. simpl in Hlen. lia. }
    split; [|split; [done|split; [|split; [|split; [|split; [|split]]]]]].
    + unfold runLaterLottery.
      rewrite Hc, bool_decide_eq_true_2 by done. simpl.
      unfold laterLotteryDraw in Hdraw |- *. by rewrite Hdraw.
    + rewrite Hlen_w, length_positions in *.
      rewrite (list_filter_iff _ (fun p => won p = false)) in Hcnt
        by (intros p; apply negb_true_iff).
      lia.
    + by rewrite Hlen_w.
    + intros Hq. rewrite Hlen_w, <- totalPrizes_nonneg by done. done.
    + by apply NoDup_app in Hnd as (_ & _ & ?).
    + done.
    + done.
Qed.

(** C5 fails as it is written: with a negative quantity the sum of the
    quantities is below the number of winners, even when there is none. *)
Lemma winners_above_negative_total :
  ~ (forall s campaignId c rnd winners s',
       s !! campaignId = Some c -> type c = later_lottery ->
       runLaterLottery s campaignId rnd = (Returned winners, s') ->
       Z.of_nat (length winners) <= totalPrizes c).
Proof.
  intros H.
  set (s0 := run [CreateCampaign "c1" "Campaign" later_lottery "demo" 100 200
                    [Examples.one_prize (-1)] (Examples.rules_with None) 0 0]).
  assert (Hc : exists c, s0 !! "c1" = Some c /\ type c = later_lottery /\
                         totalPrizes c = -1).
  { eexists. repeat split; vm_compute; reflexivity. }
  destruct Hc as (c & Hc & Hty & Htotal).
  destruct (runLaterLottery s0 "c1" Examples.draws_005) as [r s'] eqn:Hrun.
  assert (Hr : r = Returned []).
  { change r with (r, s').1. rewrite <- Hrun. vm_compute. reflexivity. }
  subst r.
  specialize (H s0 "c1" c Examples.draws_005 [] s' Hc Hty Hrun).
  rewrite Htotal in H. simpl in H. lia.
Qed.

(** *** A complete scenario *)

(** An [instant_auto] campaign with one prize of quantity 1 and a probability
    of 100 is started and one user enters: the call returns [true], the
    prize has nothing remaining and the participant has won. *)
Example instant_auto_scenario :
  let s := run (Examples.started instant_auto 1 (Some 100%Q)) in
  let r := enterCampaign s "c1" Examples.bob 3
             Examples.draw_099 Examples.draw_099 in
  r.1 = Returned true /\
  exists c p prize,
    r.2 !! "c1" = Some c /\ participants c = [p] /\ won p = true /\
    prizes c = [prize] /\ remaining prize = 0.
Proof.
  split; [vm_compute; reflexivity|].
  eexists _, _, _. repeat split; vm_compute; reflexivity.
Qed.

(** *** The two defects *)

(** C1 at a probability of zero.  [winProbability: 0] is taken for a missing
    probability, so the draw runs at 10: the entry of a user whose draw is
    0.05 (5 of 100) wins the prize. *)
Theorem zero_probability_entry_wins :
  let ops := Examples.started instant_web 1 (Some 0%Q)
             ++ [Examples.alice_enters] in
  effectiveWinProbability (Examples.rules_with (Some 0%Q)) = 10%Q /\
  exists c p prize,
    run ops !! "c1" = Some c /\
    winProbability (rules c) = Some 0%Q /\
    participants c = [p] /\ won p = true /\ prizeId p = Some "prize1" /\
    prizes c = [prize] /\ remaining prize = 0.
Proof.
  split; [reflexivity|].
  eexists _, _, _. repeat split; vm_compute; reflexivity.
Qed.

(** C2 on the later lottery.  [runLaterLottery] awards a prize without
    touching its counter: after the draw the participant holds the prize and
    [quantity - remaining] is still zero. *)
Theorem later_lottery_keeps_remaining :
  let ops := Examples.started later_lottery 1 None
             ++ [Examples.alice_enters;
                 RunLaterLottery "c1" Examples.draws_005] in
  exists c prize,
    run ops !! "c1" = Some c /\
    prizes c = [prize] /\
    awards c (prize_id prize) = 1 /\
    quantity prize - remaining prize = 0.
Proof.
  eexists _, _. repeat split; vm_compute; reflexivity.
Qed.

(** *** The theorems at concrete inputs *)

(** Ending twice the campaign of a started instant lottery. *)
Lemma endCampaign_on_ended_witness :
  let s := run (Examples.started instant_web 1 None ++ [EndCampaign "c1" 5]) in
  exists c c',
    s !! "c1" = Some c /\ status c = ended /\
    endCampaign s "c1" 9 = (Some c', <["c1" := c']> s) /\ status c' = ended.
Proof.
  simpl. eexists.
  assert (H : forall (s : store) c, s !! "c1" = Some c -> status c = ended ->
            exists c', s !! "c1" = Some c /\ status c = ended /\
              endCampaign s "c1" 9 = (Some c', <["c1" := c']> s) /\
              status c' = ended).
  { intros s c Hc Hst.
    destruct (endCampaign_on_ended s "c1" c 9 Hc Hst) as (c' & ? & ? & _).
    exists c'. done. }
  apply H; vm_compute; reflexivity.
Defined.


(** A campaign that ends at 200 accepts alice at 5000, when the list of
    active campaigns no longer has it: the campaign stored afterwards has
    alice as its participant, entered at 5000.  The same call on the
    campaign with the period 0 to 9000 gives the same answer. *)
Lemma enterCampaign_ignores_dates_witness :
  let s := run (Examples.started instant_web 1 None) in
  let r := enterCampaign s "c1" Examples.alice 5000
             Examples.draw_099 Examples.draw_099 in
  exists c c' p,
    s !! "c1" = Some c /\ endDate c = 200 /\
    ~ c ∈ getActiveCampaigns s 5000 /\
    r.1 = Returned true /\
    r.2 !! "c1" = Some c' /\
    participants c' = participants c ++ [p] /\
    userId p = "u1" /\ enteredAt p = 5000 /\
    (enterCampaign (<["c1" := set_dates 0 9000 c]> s) "c1" Examples.alice 5000
       Examples.draw_099 Examples.draw_099).1 = r.1.
Proof.
  cbv zeta.
  assert (H : forall (s : store) c, s !! "c1" = Some c -> endDate c = 200 ->
            status c = active -> ~ already_entered c Examples.alice ->
            exists c c' p,
              s !! "c1" = Some c /\ endDate c = 200 /\
              ~ c ∈ getActiveCampaigns s 5000 /\
              (enterCampaign s "c1" Examples.alice 5000
                 Examples.draw_099 Examples.draw_099).1 = Returned true /\
              (enterCampaign s "c1" Examples.alice 5000
                 Examples.draw_099 Examples.draw_099).2 !! "c1" = Some c' /\
              participants c' = participants c ++ [p] /\
              userId p = "u1" /\ enteredAt p = 5000 /\
              (enterCampaign (<["c1" := set_dates 0 9000 c]> s) "c1"
                 Examples.alice 5000 Examples.draw_099 Examples.draw_099).1
              = (enterCampaign s "c1" Examples.alice 5000
                   Examples.draw_099 Examples.draw_099).1).
  { intros s c Hc Hend Hact Hnew.
    destruct (enterCampaign_ignores_dates s "c1" c Examples.alice 5000
                Examples.draw_099 Examples.draw_099 Hc)
      as (Henter & Hdates & Hwin).
    destruct (Henter Hact Hnew) as (p & c1 & Heq & Hid & Hat & _).
    exists c, (set_participants (participants c ++ [p]) c1), p.
    split; [done|]. split; [done|].
    split; [rewrite Hwin, Hend; lia|].
    rewrite (Hdates 0 9000), Heq. simpl. rewrite lookup_insert_eq. done. }
  eapply H.
  - vm_compute. reflexivity.
  - reflexivity.
  - reflexivity.
  - intros (p & Hp & _). vm_compute in Hp. inversion Hp.
Defined.

(** An instant lottery with one prize and a probability of 100, after alice
    and bob have entered. *)
Lemma remaining_within_quantity_witness :
  let ops := Examples.started instant_web 1 (Some 100%Q)
             ++ [Examples.alice_enters; Examples.bob_enters] in
  exists c p,
    run ops !! "c1" = Some c /\ prizes c = [p] /\
    0 <= remaining p <= quantity p.
Proof.
  simpl.
  assert (H : forall ops c p,
            Forall well_stocked ops ->
            run ops !! "c1" = Some c -> prizes c = [p] ->
            exists c p, run ops !! "c1" = Some c /\ prizes c = [p] /\
                        0 <= remaining p <= quantity p).
  { intros ops c p Hops Hc Hp. exists c, p. split; [done|]. split; [done|].
    apply (remaining_within_quantity ops "c1" c p Hops Hc).
    rewrite Hp. apply list_elem_of_here. }
  eapply H.
  - repeat constructor. simpl. lia.
  - vm_compute. reflexivity.
  - reflexivity.
Defined.

End CampaignTheory.

(** ** Calls of the campaign engine that overlap *)

Module OverlapTheory.
Import Campaigns Overlap CampaignTheory.

(** *** Lists of suspended calls *)

Section omap_facts.
Context {A B : Type} (f : A -> option B).

Lemma omap_insert_same (l : list A) k x y :
  l !! k = Some x -> f y = f x -> omap f (<[k := y]> l) = omap f l.
Proof.
  revert k. induction l as [|a l IH]; intros [|k] Hk Hf; simpl in *;
    try discriminate.
  - injection Hk as ->. by rewrite Hf.
  - by rewrite IH.
Qed.

Lemma omap_delete_None (l : list A) k x :
  l !! k = Some x -> f x = None -> omap f (delete k l) = omap f l.
Proof.
  revert k. induction l as [|a l IH]; intros [|k] Hk Hf; simpl in *;
    try discriminate.
  - injection Hk as ->. by rewrite Hf.
  - by rewrite IH.
Qed.

Lemma omap_delete_Some (l : list A) k x b :
  l !! k = Some x -> f x = Some b -> omap f l ≡ₚ b :: omap f (delete k l).
Proof.
  revert k. induction l as [|a l IH]; intros [|k] Hk Hf; simpl in *;
    try discriminate.
  - injection Hk as ->. by rewrite Hf.
  - destruct (f a); [|by apply IH].
    rewrite (IH k Hk Hf). apply Permutation_swap.
Qed.
End omap_facts.

Lemma elem_of_insert_inv {A} (l : list A) k y z :
  z ∈ <[k := y]> l -> z = y \/ z ∈ l.
Proof.
  revert k. induction l as [|a l IH]; intros k; simpl; [by right|].
  destruct k as [|k]; simpl; rewrite !elem_of_cons.
  - intros [->|?]; auto.
  - intros [->|Hz]; [auto|]. destruct (IH k Hz); auto.
Qed.

(** *** The invariant of the entries *)

Lemma entering_fresh e :
  (forall t, t ∈ suspended e -> (call_ref t < nextRef e)%nat) ->
  entering e (nextRef e) = [].
Proof.
  unfold entering. induction (suspended e) as [|t ts IH]; intros H; [done|].
  assert (Ht : entering_into (nextRef e) t = None).
  { specialize (H t (list_elem_of_here _ _)).
    destruct t; simpl in *; try done; by rewrite decide_False by lia. }
  cbn [omap list_omap]. rewrite Ht. apply IH. intros t' Ht'. apply H. by right.
Qed.

Lemma not_entered_userIds c user :
  existsb (fun p => bool_decide (userId p = user_id user)) (participants c)
    = false ->
  user_id user ∉ userId <$> participants c.
Proof.
  intros Hex Hin. apply list_elem_of_fmap in Hin as (q & Hq & Hin).
  assert (already_entered c user) as Hdup by (exists q; auto).
  apply already_entered_existsb in Hdup. congruence.
Qed.

Lemma NoDup_snoc_fresh (l1 l2 : list string) u :
  NoDup (l1 ++ l2) -> u ∉ l1 -> u ∉ l2 -> NoDup (l1 ++ l2 ++ [u]).
Proof.
  intros Hnd H1 H2. rewrite app_assoc. apply NoDup_app.
  split; [done|]. split; [|apply NoDup_singleton].
  intros x Hx Hx'. apply list_elem_of_singleton in Hx'. subst x.
  apply elem_of_app in Hx as [?|?]; auto.
Qed.

(** A stretch of the loops of [runLaterLottery] keeps the invariant: it
    marks participants and pushes none. *)
Lemma runLaterLottery_loop_unique e slot cid ref n pid rest eligible winners r :
  unique_entries e -> (ref < nextRef e)%nat ->
  (forall k, slot = Some k ->
     exists t, suspended e !! k = Some t /\
               forall ref', entering_into ref' t = None) ->
  unique_entries
    (runLaterLottery_loop e slot cid ref n pid rest eligible winners r).
Proof.
  intros [Hu Hr Hc] Href Hslot. unfold runLaterLottery_loop.
  destruct (objects e !! ref) as [c|] eqn:Hobj; [|by split].
  assert (Hdrop : forall ref',
            omap (entering_into ref') (drop_call slot (suspended e))
            = entering e ref').
  { intros ref'. destruct slot as [k|]; [|done].
    destruct (Hslot k eq_refl) as (t & Ht & Hnone).
    by apply (omap_delete_None _ _ _ t). }
  assert (Hdrop_refs : forall t, t ∈ drop_call slot (suspended e) ->
                                 (call_ref t < nextRef e)%nat).
  { intros t Ht. apply Hr. destruct slot as [k|]; [|done].
    simpl in Ht. by apply list_elem_of_delete_inv in Ht. }
  destruct (match eligible with [] => None | _ :: _ => _ end)
    as [[[n' pid'] rest']|].
  - destruct (eligible !! _) as [winner|].
    + split; simpl.
      * intros ref' c'. unfold entering. simpl.
        assert (omap (entering_into ref')
                  (put_call slot
                     (LaterAwaitsNotify cid ref pid' n' rest'
                        (delete (random_index r (length eligible)) eligible)
                        (winners ++ [winner])) (suspended e))
                = entering e ref') as ->.
        { destruct slot as [k|]; simpl.
          - destruct (Hslot k eq_refl) as (t & Ht & Hnone).
            apply (omap_insert_same _ _ _ t); [done|]. by rewrite Hnone.
          - rewrite omap_app. simpl. apply app_nil_r. }
        rewrite lookup_insert. case_decide as Hrr.
        -- intros [= <-]. simpl. rewrite alter_set_won_userIds.
           subst ref'. by apply Hu.
        -- apply Hu.
      * intros t Ht. destruct slot as [k|]; simpl in Ht.
        -- apply elem_of_insert_inv in Ht as [->|Ht]; [done | by apply Hr].
        -- apply elem_of_app in Ht as [Ht|Ht]; [by apply Hr|].
           apply list_elem_of_singleton in Ht. by subst t.
      * done.
    + split; simpl.
      * intros ref' c' Hc'. unfold entering. simpl. rewrite Hdrop.
        by apply Hu.
      * done.
      * done.
  - split; simpl.
    + intros ref' c' Hc'. unfold entering. simpl. rewrite Hdrop. by apply Hu.
    + done.
    + intros id ref'. rewrite lookup_insert. case_decide; [|apply Hc].
      by intros [= <-].
Qed.

(** Every event that starts no overlapping entry keeps the invariant. *)
Lemma step_unique_entries e ev :
  unique_entries e -> no_overlap e ev -> unique_entries (step e ev).
Proof.
  intros Hinv Hev. pose proof Hinv as [Hu Hr Hc].
  destruct ev as [newId name ty descr start_ end_ ps rs now1 now2
                 | id now | id now | cid user now r1 r2 | cid r | k r]; simpl.
  - (* createCampaign *)
    split; simpl.
    + intros ref c. rewrite lookup_insert. case_decide as Href.
      * intros [= <-]. subst ref. simpl.
        change (entering _ (nextRef e)) with (entering e (nextRef e)).
        rewrite entering_fresh by done. constructor.
      * apply Hu.
    + intros t Ht. specialize (Hr t Ht). lia.
    + intros id ref. rewrite lookup_insert. case_decide.
      * intros [= <-]. lia.
      * intros Hid. specialize (Hc _ _ Hid). lia.
  - (* startCampaign *)
    unfold startCampaign, setCampaignStatus.
    destruct (campaigns e !! id) as [ref|] eqn:Hid; [|by split].
    destruct (objects e !! ref) as [c|] eqn:Hobj; [|done].
    split; simpl; [|done|].
    + intros ref' c'. rewrite lookup_insert. case_decide as Href; [|apply Hu].
      intros [= <-]. subst ref'. simpl. by apply Hu.
    + intros id' ref'. rewrite lookup_insert. case_decide; [|apply Hc].
      intros [= <-]. by apply (Hc id).
  - (* endCampaign *)
    unfold endCampaign, setCampaignStatus.
    destruct (campaigns e !! id) as [ref|] eqn:Hid; [|by split].
    destruct (objects e !! ref) as [c|] eqn:Hobj; [|done].
    split; simpl; [|done|].
    + intros ref' c'. rewrite lookup_insert. case_decide as Href; [|apply Hu].
      intros [= <-]. subst ref'. simpl. by apply Hu.
    + intros id' ref'. rewrite lookup_insert. case_decide; [|apply Hc].
      intros [= <-]. by apply (Hc id).
  - (* enterCampaign *)
    unfold enterCampaign.
    destruct (campaigns e !! cid) as [ref|] eqn:Hid; [|by split].
    destruct (objects e !! ref) as [c|] eqn:Hobj; [|done].
    destruct (negb _); [by split|].
    destruct (existsb _ _) eqn:Hex; [by split|].
    apply not_entered_userIds in Hex.
    simpl in Hev. specialize (Hev ref Hid).
    destruct (is_instant (type c)).
    + destruct (runInstantLottery c r1 r2) as [[result c1]|] eqn:Hdraw;
        [|by split].
      apply runInstantLottery_participants in Hdraw as (Hpart & _).
      split; simpl.
      * intros ref' c'. unfold entering. simpl. rewrite omap_app. simpl.
        rewrite lookup_insert. case_decide as Href.
        -- intros [= <-]. subst ref'. fold (entering e ref).
           rewrite Hpart. apply NoDup_snoc_fresh; auto.
        -- intros Hc'. rewrite app_nil_r. by apply Hu.
      * intros t Ht. apply elem_of_app in Ht as [Ht|Ht]; [by apply Hr|].
        apply list_elem_of_singleton in Ht. subst t. simpl. by apply (Hc cid).
      * done.
    + split; simpl; [|done|].
      * intros ref' c'. rewrite lookup_insert. case_decide as Href; [|apply Hu].
        intros [= <-]. subst ref'. simpl.
        change (entering _ ref) with (entering e ref).
        rewrite fmap_app, <- app_assoc, (Permutation_app_comm _ (entering e ref)).
        apply NoDup_snoc_fresh; auto.
      * intros id' ref'. rewrite lookup_insert. case_decide; [|apply Hc].
        intros [= <-]. by apply (Hc cid).
  - (* runLaterLottery *)
    unfold runLaterLottery.
    destruct (campaigns e !! cid) as [ref|] eqn:Hid; [|by split].
    destruct (objects e !! ref) as [c|] eqn:Hobj; [|done].
    destruct (negb _); [by split|].
    apply runLaterLottery_loop_unique; [done | by apply (Hc cid) | done].
  - (* a suspended call goes on *)
    unfold resume.
    destruct (suspended e !! k) as [t|] eqn:Hk; [|done].
    assert (Ht : t ∈ suspended e) by (eapply list_elem_of_lookup_2, Hk).
    destruct t as [cid ref p result | cid ref p
                  | cid ref pid n rest eligible winners].
    + unfold enterCampaign_drawn. split; simpl; [| |done].
      * intros ref' c' Hc'. unfold entering. simpl.
        rewrite (omap_insert_same _ _ _ _ _ Hk).
        -- by apply Hu.
        -- simpl. by destruct (won_with_prize result).
      * intros t' Ht'. apply elem_of_insert_inv in Ht' as [->|Ht'].
        -- apply (Hr _ Ht).
        -- by apply Hr.
    + unfold enterCampaign_notified.
      destruct (objects e !! ref) as [c|] eqn:Hobj; [|done].
      split; simpl.
      * intros ref' c'. unfold entering. simpl.
        rewrite lookup_insert. case_decide as Href.
        -- intros [= <-]. subst ref'. simpl.
           pose proof (omap_delete_Some (entering_into ref) _ k _ (userId p) Hk)
             as Hperm.
           simpl in Hperm. rewrite decide_True in Hperm by done.
           specialize (Hperm eq_refl).
           rewrite fmap_app, <- app_assoc. simpl.
           fold (entering e ref) in Hperm. rewrite <- Hperm. by apply Hu.
        -- intros Hc'.
           rewrite (omap_delete_None (entering_into ref') _ k _ Hk).
           ++ by apply Hu.
           ++ simpl. by rewrite decide_False.
      * intros t' Ht'. apply Hr. by apply list_elem_of_delete_inv in Ht'.
      * intros id' ref'. rewrite lookup_insert. case_decide; [|apply Hc].
        intros [= <-]. apply (Hr _ Ht).
    + apply runLaterLottery_loop_unique; [done | apply (Hr _ Ht) |].
      intros k' [= <-]. eexists. split; [done|]. done.
Qed.

Lemma initial_unique_entries : unique_entries initial.
Proof.
  split; simpl.
  - intros ref c Hc. by rewrite lookup_empty in Hc.
  - intros t Ht. inversion Ht.
  - intros id ref Hid. by rewrite lookup_empty in Hid.
Qed.

Lemma fold_unique_entries evs e :
  unique_entries e -> without_overlap e evs ->
  unique_entries (fold_left step evs e).
Proof.
  revert e. induction evs as [|ev evs IH]; intros e Hinv Hevs; [done|].
  destruct Hevs as [Hev Hevs]. simpl. apply IH; [|done].
  by apply step_unique_entries.
Qed.

(** A sequence of calls of which none waits for another: while no call is
    suspended, no event overlaps with anything. *)
Lemma no_overlap_idle e ev : suspended e = [] -> no_overlap e ev.
Proof.
  intros Hidle. destruct ev; simpl; try done.
  intros ref _. unfold entering. rewrite Hidle. simpl. apply not_elem_of_nil.
Qed.

(** *** Awaited calls are the calls of [Campaigns] *)

Lemma drawForPrize_none n pid rnd st :
  ds_eligible st = [] -> drawForPrize n pid rnd st = (false, st).
Proof. intros H. destruct n; simpl; [done|]. by rewrite H. Qed.

Lemma drawForPrizes_none ps rnd st :
  ds_eligible st = [] -> drawForPrizes ps rnd st = (false, st).
Proof.
  intros H. induction ps as [|p ps IH]; simpl; [done|].
  by rewrite drawForPrize_none.
Qed.

(** The loops of [Campaigns.runLaterLottery], one draw at a time. *)
Lemma drawFrom_next rest : forall n pid rnd st,
  drawFrom n pid rest rnd st =
  match match ds_eligible st with
        | [] => None
        | _ :: _ => next_draw rest n pid
        end with
  | None => (false, st)
  | Some (n', pid', rest') =>
      let randomIndex :=
        random_index (rnd (ds_draws st)) (length (ds_eligible st)) in
      match ds_eligible st !! randomIndex with
      | None => (true, st)
      | Some winner =>
          drawFrom n' pid' rest' rnd
            {| ds_participants :=
                 alter (set_won pid') winner (ds_participants st);
               ds_eligible := delete randomIndex (ds_eligible st);
               ds_winners := ds_winners st ++ [winner];
               ds_draws := S (ds_draws st) |}
      end
  end.
Proof.
  induction rest as [|p rest IH]; intros n pid rnd st.
  - unfold drawFrom. destruct (ds_eligible st) as [|x el] eqn:Hel.
    + by rewrite drawForPrize_none.
    + destruct n as [|n]; [done|].
      cbn [drawForPrize next_draw]. rewrite Hel.
      by destruct (_ !! _).
  - unfold drawFrom at 1. destruct (ds_eligible st) as [|x el] eqn:Hel.
    + rewrite drawForPrize_none by done. by rewrite drawForPrizes_none.
    + destruct n as [|n].
      * cbn [drawForPrize drawForPrizes next_draw].
        fold (drawFrom (Z.to_nat (quantity p)) (prize_id p) rest rnd st).
        by rewrite IH, Hel.
      * cbn [drawForPrize next_draw]. rewrite Hel.
        by destruct (_ !! _).
Qed.

Lemma set_participants_same c : set_participants (participants c) c = c.
Proof. by destruct c. Qed.

Lemma resume_to_end_idle fuel k rnd j e :
  suspended e = [] -> resume_to_end fuel k rnd j e = e.
Proof. intros H. destruct fuel; simpl; [done|]. by rewrite H. Qed.

Section awaited_draw.
Variables (cid : string) (ref : nat) (rnd : nat -> MathRandom).

(** The call of [runLaterLottery] from a point in its loops to its end,
    with nothing in between, does what the loops of
    [Campaigns.runLaterLottery] do from that point. *)
Lemma resume_to_end_loop fuel :
  forall e slot c n pid rest st stF,
    objects e !! ref = Some c -> participants c = ds_participants st ->
    (slot = None /\ suspended e = []) \/
    (slot = Some 0%nat /\ exists t, suspended e = [t]) ->
    (length (ds_eligible st) <= fuel)%nat ->
    drawFrom n pid rest rnd st = (false, stF) ->
    let eF :=
      resume_to_end fuel 0 rnd (S (ds_draws st))
        (runLaterLottery_loop e slot cid ref n pid rest
           (ds_eligible st) (ds_winners st) (rnd (ds_draws st))) in
    objects eF !! ref = Some (set_participants (ds_participants stF) c) /\
    (forall r, r <> ref -> objects eF !! r = objects e !! r) /\
    campaigns eF = <[cid := ref]> (campaigns e) /\
    nextRef eF = nextRef e /\ suspended eF = [] /\
    returned eF
    = returned e
      ++ [ReturnedWinners
            (omap (fun i => ds_participants stF !! i) (ds_winners stF))].
Proof.
  induction fuel as [|fuel IH];
    intros e slot c n pid rest st stF Hobj Hpart Hslot Hfuel Hdraw;
    rewrite drawFrom_next in Hdraw; cbv zeta;
    unfold runLaterLottery_loop; rewrite Hobj;
    destruct (match ds_eligible st with [] => None | _ :: _ => _ end)
      as [[[n' pid'] rest']|] eqn:Hnext.
  - destruct (ds_eligible st); [discriminate | simpl in Hfuel; lia].
  - injection Hdraw as <-. simpl.
    split; [by rewrite Hobj, <- Hpart, set_participants_same|].
    split; [done|]. split; [done|]. split; [done|].
    split; [by destruct Hslot as [[-> ->]|[-> [t ->]]]|].
    by rewrite Hpart.
  - cbv zeta in Hdraw.
    destruct (ds_eligible st !! _) as [winner|] eqn:Hw; [|discriminate].
    set (st' := {| ds_participants :=
                     alter (set_won pid') winner (ds_participants st) |})
      in Hdraw.
    set (c1 := set_participants
                 (alter (set_won pid') winner (participants c)) c).
    set (call := LaterAwaitsNotify cid ref pid' n' rest'
                   (delete (random_index (rnd (ds_draws st))
                              (length (ds_eligible st))) (ds_eligible st))
                   (ds_winners st ++ [winner])).
    assert (Hput : put_call slot call (suspended e) = [call])
      by (by destruct Hslot as [[-> ->]|[-> [t ->]]]).
    rewrite Hput.
    set (e1 := with_suspended [call] (assign ref c1 e)).
    assert (Hlen : (length (ds_eligible st') <= fuel)%nat).
    { subst st'. simpl. rewrite length_delete by eauto. lia. }
    destruct (IH e1 (Some 0%nat) c1 n' pid' rest' st' stF) as
      (H1 & H2 & H3 & H4 & H5 & H6).
    + subst e1. simpl. apply lookup_insert_eq.
    + subst c1 st'. simpl. by rewrite Hpart.
    + right. split; [done|]. by exists call.
    + done.
    + done.
    + cbn [resume_to_end]. change (suspended e1 !! 0%nat) with (Some call).
      cbv iota beta.
      change (resume e1 0 (rnd (S (ds_draws st))))
        with (runLaterLottery_loop e1 (Some 0%nat) cid ref n' pid' rest'
                (ds_eligible st') (ds_winners st') (rnd (ds_draws st'))).
      change (S (S (ds_draws st))) with (S (ds_draws st')).
      split; [exact H1|].
      split.
      { intros r Hr. rewrite (H2 r Hr). subst e1. simpl.
        by rewrite lookup_insert_ne. }
      split; [exact H3|]. split; [exact H4|]. split; [exact H5 | exact H6].
  - injection Hdraw as <-.
    assert (Hdrop : drop_call slot (suspended e) = [])
      by (by destruct Hslot as [[-> ->]|[-> [t ->]]]).
    rewrite Hdrop, resume_to_end_idle by done. simpl.
    split; [by rewrite Hobj, <- Hpart, set_participants_same|].
    split; [done|]. split; [done|]. split; [done|]. split; [done|].
    by rewrite Hpart.
Qed.
End awaited_draw.

Lemma represents_settle e s o : represents e s -> represents (settle o e) s.
Proof. intros [H1 H2 H3 H4]. by split. Qed.

(** An assignment to the campaign object of an id, on both sides. *)
Lemma represents_assign e e' s cid ref c' :
  represents e s -> campaigns e !! cid = Some ref ->
  objects e' !! ref = Some c' ->
  (forall r, r <> ref -> objects e' !! r = objects e !! r) ->
  campaigns e' = <[cid := ref]> (campaigns e) ->
  nextRef e' = nextRef e -> suspended e' = [] ->
  represents e' (<[cid := c']> s).
Proof.
  intros [Hidle Hcs Hrefs Hdist] Hcid Hobj Hother Hcamp Hnext Hsusp.
  rewrite insert_id in Hcamp by done.
  split; [done| | |].
  - intros id. unfold getCampaign. rewrite Hcamp.
    destruct (decide (id = cid)) as [->|Hne].
    + by rewrite Hcid, Hobj, lookup_insert_eq.
    + rewrite lookup_insert_ne by done. rewrite <- Hcs. unfold getCampaign.
      destruct (campaigns e !! id) as [r|] eqn:Hr; [|done].
      apply Hother. intros ->. apply Hne. by apply (Hdist id cid ref).
  - intros id r. rewrite Hcamp, Hnext. intros Hr.
    destruct (Hrefs id r Hr) as [Hsome Hlt]. split; [|done].
    destruct (decide (r = ref)) as [->|Hne]; [by rewrite Hobj|].
    by rewrite Hother.
  - intros id id' r. rewrite Hcamp. apply Hdist.
Qed.

Lemma represents_lookup e s id :
  represents e s ->
  match campaigns e !! id with
  | None => s !! id = None
  | Some ref => exists c, objects e !! ref = Some c /\ s !! id = Some c
  end.
Proof.
  intros [Hidle Hcs Hrefs Hdist]. specialize (Hcs id). unfold getCampaign in Hcs.
  destruct (campaigns e !! id) as [ref|] eqn:Hid; [|done].
  destruct (Hrefs id ref Hid) as [[c Hc] _]. exists c. split; [done|].
  by rewrite <- Hcs.
Qed.

Lemma represents_initial : represents initial ∅.
Proof. by split. Qed.

(** A call that is awaited does to the engine what the call of [Campaigns]
    does to the store, and returns what it returns. *)
Lemma awaited_exec e s o :
  represents e s ->
  represents (awaited e o) (exec s o) /\
  returned (awaited e o) = returned e ++ [outcome_of e s o].
Proof.
  intros Hrep. pose proof Hrep as [Hidle Hcs Hrefs Hdist].
  destruct o as [newId name ty descr start_ end_ ps rs now1 now2
                | id now | id now | cid user now r1 r2 | cid rnd];
    unfold awaited; rewrite ?Hidle; cbn [length].
  - (* createCampaign *)
    split; [|done]. split; [done| | |]; simpl.
    + intros id. unfold getCampaign. simpl.
      destruct (decide (id = newId)) as [->|Hne].
      * by rewrite !lookup_insert_eq.
      * rewrite !(lookup_insert_ne _ newId) by done.
        rewrite <- Hcs. unfold getCampaign.
        destruct (campaigns e !! id) as [r|] eqn:Hr; [|done].
        rewrite lookup_insert_ne; [done|].
        destruct (Hrefs id r Hr). lia.
    + intros id r. rewrite lookup_insert. case_decide.
      * intros [= <-]. rewrite lookup_insert_eq. split; [eauto | lia].
      * intros Hr. destruct (Hrefs id r Hr) as [Hsome Hlt].
        split; [|lia]. rewrite lookup_insert_ne by lia. done.
    + intros id id' r. rewrite !lookup_insert.
      repeat case_decide; subst.
      * done.
      * intros [= <-] Hr. destruct (Hrefs id' _ Hr). lia.
      * intros Hr [= <-]. destruct (Hrefs id _ Hr). lia.
      * apply Hdist.
  - (* startCampaign *)
    unfold startCampaign, setCampaignStatus. simpl.
    unfold Campaigns.startCampaign.
    pose proof (represents_lookup e s id Hrep) as Hlook.
    destruct (campaigns e !! id) as [ref|] eqn:Hid.
    + destruct Hlook as (c & Hc & ->). rewrite Hc. simpl. split; [|done].
      eapply (represents_assign e _ s id ref); try done; simpl.
      * apply lookup_insert_eq.
      * intros r Hr. by rewrite lookup_insert_ne.
    + rewrite Hlook. split; [by apply represents_settle | done].
  - (* endCampaign *)
    unfold endCampaign, setCampaignStatus. simpl.
    unfold Campaigns.endCampaign.
    pose proof (represents_lookup e s id Hrep) as Hlook.
    destruct (campaigns e !! id) as [ref|] eqn:Hid.
    + destruct Hlook as (c & Hc & ->). rewrite Hc. simpl. split; [|done].
      eapply (represents_assign e _ s id ref); try done; simpl.
      * apply lookup_insert_eq.
      * intros r Hr. by rewrite lookup_insert_ne.
    + rewrite Hlook. split; [by apply represents_settle | done].
  - (* enterCampaign *)
    unfold enterCampaign, outcome_of. simpl. unfold Campaigns.enterCampaign.
    pose proof (represents_lookup e s cid Hrep) as Hlook.
    assert (Hsettled : forall e', suspended e' = [] ->
              resume (resume e' 0 r1) 0 r1 = e').
    { intros e' He'.
      assert (resume e' 0 r1 = e') as Hone
        by (unfold resume; by rewrite He').
      by rewrite !Hone. }
    destruct (campaigns e !! cid) as [ref|] eqn:Hid.
    2: { rewrite Hlook, Hsettled by done.
         split; [by apply represents_settle | done]. }
    destruct Hlook as (c & Hc & ->). rewrite Hc.
    destruct (negb _).
    { rewrite Hsettled by done. split; [by apply represents_settle | done]. }
    destruct (existsb _ _).
    { rewrite Hsettled by done. split; [by apply represents_settle | done]. }
    destruct (is_instant (type c)).
    + destruct (runInstantLottery c r1 r2) as [[result c1]|].
      2: { rewrite Hsettled by done.
           split; [by apply represents_settle | done]. }
      rewrite Hidle. unfold resume. simpl.
      unfold enterCampaign_notified. simpl. rewrite lookup_insert_eq.
      destruct (won_with_prize result); simpl; (split; [|done]);
        eapply (represents_assign e _ s cid ref); try done; simpl;
        try apply lookup_insert_eq;
        intros r Hr; by rewrite !lookup_insert_ne.
    + rewrite Hsettled by done. simpl. split; [|done].
      eapply (represents_assign e _ s cid ref); try done; simpl.
      * apply lookup_insert_eq.
      * intros r Hr. by rewrite lookup_insert_ne.
  - (* runLaterLottery *)
    unfold runLaterLottery, outcome_of, getCampaign. simpl.
    unfold Campaigns.runLaterLottery.
    pose proof (represents_lookup e s cid Hrep) as Hlook.
    destruct (campaigns e !! cid) as [ref|] eqn:Hid.
    2: { rewrite Hlook. simpl. split; [by apply represents_settle | done]. }
    destruct Hlook as (c & Hc & ->). rewrite Hc.
    destruct (negb _).
    { rewrite resume_to_end_idle by done.
      split; [by apply represents_settle | done]. }
    destruct (drawForPrizes_inv (participants c) (prizes c) rnd (initialDraw c)
                (draw_inv_initial c)) as (stF & Hdraw & _ & _).
    unfold laterLotteryDraw. rewrite Hdraw.
    destruct (resume_to_end_loop cid ref rnd (length (participants c))
                e None c 0 EmptyString (prizes c) (initialDraw c) stF)
      as (H1 & H2 & H3 & H4 & H5 & H6); try done.
    + by left.
    + simpl. unfold positions. rewrite length_positions_from.
      apply length_filter.
    + simpl in *. split; [|done].
      by eapply (represents_assign e _ s cid ref).
Qed.

(** A sequence of calls, each awaited before the next is made, does to a
    new service what the sequence does in [Campaigns]. *)
Lemma awaited_run ops :
  represents (fold_left awaited ops initial) (run ops).
Proof.
  induction ops as [|o ops IH] using rev_ind.
  - apply represents_initial.
  - rewrite fold_left_app, run_snoc. simpl. by apply awaited_exec.
Qed.

(** *** Awaited calls as sequences of events *)

Lemma resumptions_resume_to_end fuel k rnd : forall j e,
  fold_left step (resumptions fuel k rnd j e) e = resume_to_end fuel k rnd j e.
Proof.
  induction fuel as [|fuel IH]; intros j e; simpl; [done|].
  destruct (suspended e !! k); [apply IH | done].
Qed.

Lemma awaited_events e o : awaited e o = fold_left step (events_of e o) e.
Proof.
  destruct o; try done.
  unfold awaited, events_of. cbn [fold_left step].
  by rewrite resumptions_resume_to_end.
Qed.

Lemma without_overlap_resumptions fuel k rnd : forall j e,
  without_overlap e (resumptions fuel k rnd j e).
Proof.
  induction fuel as [|fuel IH]; intros j e; simpl; [done|].
  destruct (suspended e !! k); [|done]. split; [done | apply IH].
Qed.

Lemma without_overlap_app evs1 : forall e evs2,
  without_overlap e evs1 -> without_overlap (fold_left step evs1 e) evs2 ->
  without_overlap e (evs1 ++ evs2).
Proof.
  induction evs1 as [|ev evs1 IH]; intros e evs2 H1 H2; [done|].
  destruct H1 as [Hev H1]. split; [done|]. by apply IH.
Qed.

(** The events of a call that is made while no call is suspended start no
    overlapping entry. *)
Lemma events_of_without_overlap e o :
  suspended e = [] -> without_overlap e (events_of e o).
Proof.
  intros Hidle. destruct o; unfold events_of; cbn [without_overlap].
  - by split.
  - by split.
  - by split.
  - split; [by apply no_overlap_idle|]. by repeat split.
  - split; [exact I|]. apply without_overlap_resumptions.
Qed.

(** A sequence of calls, each awaited before the next is made, is a
    sequence of events that starts no overlapping entry. *)
Lemma awaited_all ops : forall e s,
  represents e s ->
  fold_left awaited ops e = fold_left step (events_of_all e ops) e /\
  without_overlap e (events_of_all e ops).
Proof.
  induction ops as [|o ops IH]; intros e s Hrep; [done|].
  destruct (awaited_exec e s o Hrep) as [Hrep' _].
  destruct (IH _ _ Hrep') as [Heq Hwo].
  cbn [fold_left events_of_all]. rewrite fold_left_app, <- awaited_events.
  split; [done|].
  apply without_overlap_app.
  - apply events_of_without_overlap, (rep_idle _ _ Hrep).
  - by rewrite <- awaited_events.
Qed.

(** *** Entries *)

(** What [enterCampaign] does before it waits, when it refuses: nothing but
    return [false]. *)
Lemma enterCampaign_refuses e campaignId user now r1 r2 :
  (campaigns e !! campaignId = None \/
   exists ref c,
     campaigns e !! campaignId = Some ref /\ objects e !! ref = Some c /\
     (status c <> active \/ already_entered c user)) ->
  enterCampaign e campaignId user now r1 r2 = settle (ReturnedBool false) e.
Proof.
  unfold enterCampaign.
  intros [->|(ref & c & -> & -> & [Hst|Hdup])]; [done| |].
  - by rewrite bool_decide_eq_false_2.
  - destruct (negb _); [done|].
    apply already_entered_existsb in Hdup. by rewrite Hdup.
Qed.

(** C6 fails as it is written: two calls of [enterCampaign] for alice that
    are made before either is awaited both pass the test for an earlier
    entry, both return [true], and the campaign has two participants with
    her id. *)
Lemma overlapping_entries_duplicate :
  let e := trace Examples.overlapping_entries in
  (exists c, getCampaign e "c1" = Some c /\
             userId <$> participants c = ["u1"; "u1"]) /\
  returned e
  = [ReturnedCampaign (Some 0%nat); ReturnedCampaign (Some 0%nat);
     ReturnedBool true; ReturnedBool true] /\
  ~ (forall evs id c, getCampaign (trace evs) id = Some c ->
                      NoDup (userId <$> participants c)).
Proof.
  cbv zeta.
  assert (Hc : exists c,
            getCampaign (trace Examples.overlapping_entries) "c1" = Some c /\
            userId <$> participants c = ["u1"; "u1"]).
  { eexists. split; vm_compute; reflexivity. }
  split; [exact Hc|]. split; [vm_compute; reflexivity|].
  intros H. destruct Hc as (c & Hc & Hids).
  specialize (H _ _ _ Hc). rewrite Hids in H.
  apply NoDup_cons in H as [Hfresh _]. apply Hfresh, list_elem_of_here.
Qed.

(** C6, as the code has it.  [enterCampaign] for a campaign that is unknown
    or not active, or by a user who already has a participant record in it,
    returns [false] and changes nothing: so for the call taken as a whole,
    and so for the call in steps, which returns before it waits.  No two
    participants of a campaign have the same user id after any sequence of
    events in which no call of [enterCampaign] is made for a user while an
    earlier call for that user and that campaign is suspended.  A sequence
    of calls that are each awaited before the next is made is such a
    sequence of events, and after it the engine holds the campaigns of
    [Campaigns.run]. *)
Theorem entries_unique_without_overlap :
  (forall (s : store) campaignId user now r1 r2,
     (s !! campaignId = None \/
      exists c, s !! campaignId = Some c /\
                (status c <> active \/ already_entered c user)) ->
     Campaigns.enterCampaign s campaignId user now r1 r2
     = (Returned false, s)) /\
  (forall e campaignId user now r1 r2,
     (campaigns e !! campaignId = None \/
      exists ref c,
        campaigns e !! campaignId = Some ref /\ objects e !! ref = Some c /\
        (status c <> active \/ already_entered c user)) ->
     enterCampaign e campaignId user now r1 r2
     = settle (ReturnedBool false) e) /\
  (forall evs, without_overlap initial evs ->
     forall id c, getCampaign (trace evs) id = Some c ->
                  NoDup (userId <$> participants c)) /\
  (forall ops,
     fold_left awaited ops initial = trace (events_of_all initial ops) /\
     without_overlap initial (events_of_all initial ops) /\
     forall id c,
       getCampaign (fold_left awaited ops initial) id = Some c ->
       run ops !! id = Some c /\ NoDup (userId <$> participants c)) /\
  (forall ops id c,
     run ops !! id = Some c -> NoDup (userId <$> participants c)).
Proof.
  split; [intros; by apply enterCampaign_rejected|].
  split; [intros; by apply enterCampaign_refuses|].
  split; [|split].
  - intros evs Hevs id c. unfold getCampaign.
    destruct (campaigns (trace evs) !! id) as [ref|]; [|done].
    intros Hc.
    destruct (fold_unique_entries evs initial initial_unique_entries Hevs)
      as [Hu _ _].
    specialize (Hu ref c Hc). by apply NoDup_app in Hu as [? _].
  - intros ops.
    destruct (awaited_all ops initial ∅ represents_initial) as [Heq Hwo].
    split; [done|]. split; [done|].
    intros id c Hc.
    rewrite (rep_campaigns _ _ (awaited_run ops)) in Hc.
    split; [done|]. by apply (run_unique_users ops id).
  - apply run_unique_users.
Qed.

(** *** The later lottery *)

(** Two calls of [runLaterLottery] that are made before either is awaited:
    the first has drawn alice and waits; the second draws bob; the first,
    whose array of eligible participants still has bob, draws him again.
    Both calls return bob as a winner. *)
Lemma overlapping_draws_award_twice :
  let e := trace Examples.overlapping_draws in
  exists alice bob,
    userId alice = "u1" /\ userId bob = "u2" /\
    returned e
    = [ReturnedCampaign (Some 0%nat); ReturnedCampaign (Some 0%nat);
       ReturnedBool true; ReturnedBool true;
       ReturnedWinners [bob]; ReturnedWinners [alice; bob]].
Proof. cbv zeta. eexists _, _. repeat split; vm_compute; reflexivity. Qed.

(** C5, as the code has it, for a call of [runLaterLottery] that is awaited
    while no other call is under way (quantities are integers).  The call
    does to the engine what [Campaigns.runLaterLottery] does to the store.
    On a campaign of another type it returns no winner and changes
    nothing.  On a later lottery it returns (it does not throw) the
    participants it marks, and
    - they are no more than the participants who had not won at the call;
    - they are no more than the sum of the quantities, a negative quantity
      counting as zero, hence no more than [totalPrizes] when no quantity is
      negative;
    - they are distinct participants, none of whom had won before the call,
      and every other participant, a winner of an earlier call among them,
      is left as it was. *)
Theorem runLaterLottery_winners e s campaignId c rnd :
  represents e s -> s !! campaignId = Some c ->
  let e' := awaited e (Campaigns.RunLaterLottery campaignId rnd) in
  represents e' (Campaigns.runLaterLottery s campaignId rnd).2 /\
  (type c <> later_lottery ->
   Campaigns.runLaterLottery s campaignId rnd = (Returned [], s) /\
   returned e' = returned e ++ [ReturnedWinners []] /\
   getCampaign e' campaignId = Some c) /\
  (type c = later_lottery ->
   exists st,
     laterLotteryDraw c rnd = (false, st) /\
     let winners := omap (fun i => ds_participants st !! i) (ds_winners st) in
     Campaigns.runLaterLottery s campaignId rnd =
       (Returned winners,
        <[campaignId := set_participants (ds_participants st) c]> s) /\
     returned e' = returned e ++ [ReturnedWinners winners] /\
     getCampaign e' campaignId
     = Some (set_participants (ds_participants st) c) /\
     length winners = length (ds_winners st) /\
     (length winners
      <= length (filter (fun p => won p = false) (participants c)))%nat /\
     Z.of_nat (length winners)
       <= fold_left (fun sum p => sum + Z.max 0 (quantity p)) (prizes c) 0 /\
     (Forall (fun p => 0 <= quantity p) (prizes c) ->
      Z.of_nat (length winners) <= totalPrizes c) /\
     NoDup (ds_winners st) /\
     (forall i, i ∈ ds_winners st ->
        exists p pid,
          participants c !! i = Some p /\ won p = false /\
          ds_participants st !! i = Some (set_won pid p)) /\
     (forall i, i ∉ ds_winners st ->
        ds_participants st !! i = participants c !! i)).
Proof.
  intros Hrep Hc. cbv zeta.
  destruct (awaited_exec e s (Campaigns.RunLaterLottery campaignId rnd) Hrep)
    as [Hrep' Hret].
  unfold outcome_of in Hret.
  change (exec s (Campaigns.RunLaterLottery campaignId rnd))
    with (Campaigns.runLaterLottery s campaignId rnd).2 in Hrep'.
  destruct (runLaterLottery_bounds s campaignId c rnd Hc) as [Hother Hlater].
  split; [exact Hrep'|]. split.
  - intros Hty. specialize (Hother Hty). split; [done|].
    rewrite Hret, (rep_campaigns _ _ Hrep'), Hother. done.
  - intros Hty. destruct (Hlater Hty) as (st & Hdraw & Hrun & Hrest).
    exists st. split; [done|]. cbv zeta in Hrun, Hrest |- *.
    split; [done|].
    split; [by rewrite Hret, Hrun|].
    split; [|exact Hrest].
    rewrite (rep_campaigns _ _ Hrep'), Hrun. simpl. apply lookup_insert_eq.
Qed.

(** *** The theorems at concrete inputs *)

(** Alice enters a started instant lottery and the call is awaited; her
    second call is refused, and so is a third: the campaign has her once. *)
Lemma entries_unique_without_overlap_witness :
  let e := trace Examples.entries_in_turn in
  exists c,
    getCampaign e "c1" = Some c /\
    NoDup (userId <$> participants c) /\
    last (returned e) = Some (ReturnedBool false) /\
    enterCampaign e "c1" Examples.alice 9 Examples.draw_005 Examples.draw_005
    = settle (ReturnedBool false) e.
Proof.
  cbv zeta.
  destruct entries_unique_without_overlap as (_ & Hrefuse & Hunique & _).
  assert (Hc : exists ref c,
            campaigns (trace Examples.entries_in_turn) !! "c1" = Some ref /\
            objects (trace Examples.entries_in_turn) !! ref = Some c /\
            getCampaign (trace Examples.entries_in_turn) "c1" = Some c /\
            already_entered c Examples.alice /\
            last (returned (trace Examples.entries_in_turn))
            = Some (ReturnedBool false)).
  { eexists _, _. split; [vm_compute; reflexivity|].
    split; [vm_compute; reflexivity|]. split; [vm_compute; reflexivity|].
    split.
    - eexists. split; [apply list_elem_of_here | reflexivity].
    - vm_compute. reflexivity. }
  destruct Hc as (ref & c & Href & Hobj & Hc & Hdup & Hlast). exists c.
  split; [done|]. split; [|split; [done|]].
  - refine (Hunique Examples.entries_in_turn _ "c1" c Hc).
    repeat split; apply no_overlap_idle; vm_compute; reflexivity.
  - apply Hrefuse. right. exists ref, c. auto.
Defined.

(** A later lottery with one prize, drawn among alice and bob by an awaited
    call. *)
Lemma runLaterLottery_winners_witness :
  let ops := Examples.started later_lottery 1 None
             ++ [Examples.alice_enters; Examples.bob_enters] in
  let e := fold_left awaited ops initial in
  let e' := awaited e (Campaigns.RunLaterLottery "c1" Examples.draws_005) in
  exists c st,
    run ops !! "c1" = Some c /\ type c = later_lottery /\
    laterLotteryDraw c Examples.draws_005 = (false, st) /\
    returned e'
    = returned e
      ++ [ReturnedWinners
            (omap (fun i => ds_participants st !! i) (ds_winners st))] /\
    getCampaign e' "c1" = Some (set_participants (ds_participants st) c) /\
    (length (ds_winners st) <= 2)%nat /\
    Z.of_nat (length (ds_winners st)) <= totalPrizes c /\
    NoDup (ds_winners st).
Proof.
  cbv zeta.
  assert (H : forall ops c,
            run ops !! "c1" = Some c -> type c = later_lottery ->
            Forall (fun p => 0 <= quantity p) (prizes c) ->
            length (filter (fun p => won p = false) (participants c)) = 2%nat ->
            let e := fold_left awaited ops initial in
            let e' :=
              awaited e (Campaigns.RunLaterLottery "c1" Examples.draws_005) in
            exists c st,
              run ops !! "c1" = Some c /\ type c = later_lottery /\
              laterLotteryDraw c Examples.draws_005 = (false, st) /\
              returned e'
              = returned e
                ++ [ReturnedWinners
                      (omap (fun i => ds_participants st !! i)
                            (ds_winners st))] /\
              getCampaign e' "c1"
              = Some (set_participants (ds_participants st) c) /\
              (length (ds_winners st) <= 2)%nat /\
              Z.of_nat (length (ds_winners st)) <= totalPrizes c /\
              NoDup (ds_winners st)).
  { intros ops c Hc Hty Hq Hn. cbv zeta.
    destruct (runLaterLottery_winners (fold_left awaited ops initial)
                (run ops) "c1" c Examples.draws_005 (awaited_run ops) Hc)
      as (_ & _ & Hdraw).
    destruct (Hdraw Hty)
      as (st & Hst & _ & Hret & Hget & Hlen & Hel & _ & Htot & Hnd & _).
    exists c, st. rewrite <- Hlen, <- Hn. auto 10. }
  eapply H.
  - vm_compute. reflexivity.
  - reflexivity.
  - repeat constructor. simpl. lia.
  - vm_compute. reflexivity.
Defined.

End OverlapTheory.

(** ** The post scheduler *)

Module SchedulerTheory.
Import Scheduler.

Lemma map_get_set_eq k v m : map_get k (map_set k v m) = Some v.
Proof.
  induction m as [|[k' v'] m IH]; simpl.
  - by rewrite decide_True.
  - destruct (decide (k' = k)) as [->|Hne]; simpl.
    + by rewrite decide_True.
    + by rewrite decide_False.
Qed.

Lemma map_get_set_ne k k' v m :
  k <> k' -> map_get k' (map_set k v m) = map_get k' m.
Proof.
  intros Hne. induction m as [|[k0 v0] m IH]; simpl.
  - by rewrite decide_False.
  - destruct (decide (k0 = k)) as [->|Hk0]; simpl.
    + by rewrite !decide_False.
    + by rewrite IH.
Qed.

Lemma elem_of_map_set k v m : (k, v) ∈ map_set k v m.
Proof.
  induction m as [|[k' v'] m IH]; simpl.
  - apply list_elem_of_here.
  - destruct (decide (k' = k)); [apply list_elem_of_here | by right].
Qed.

(** [executePost] starts at most one publication and touches nothing else. *)
Lemma executePost_frame s postId :
  objects (executePost s postId) = objects s /\
  scheduledPosts (executePost s postId) = scheduledPosts s /\
  timers (executePost s postId) = timers s /\
  timeouts (executePost s postId) = timeouts s /\
  isRunning (executePost s postId) = isRunning s /\
  exists l, publishing (executePost s postId) = publishing s ++ l.
Proof.
  unfold executePost. destruct (map_get postId (scheduledPosts s)); simpl.
  - repeat split. by eexists.
  - repeat split. exists []. by rewrite app_nil_r.
Qed.

Lemma setupTimer_frame s post now :
  objects (setupTimer s post now) = objects s /\
  scheduledPosts (setupTimer s post now) = scheduledPosts s /\
  isRunning (setupTimer s post now) = isRunning s /\
  exists l, publishing (setupTimer s post now) = publishing s ++ l.
Proof.
  unfold setupTimer. destruct (_ <=? 0).
  - destruct (executePost_frame s (post_id post)) as (? & ? & _ & _ & ? & ?).
    done.
  - simpl. repeat split. exists []. by rewrite app_nil_r.
Qed.

(** A timer for a time still ahead is armed, and nothing is published. *)
Lemma setupTimer_ahead s post now :
  now < scheduledAt post ->
  publishing (setupTimer s post now) = publishing s /\
  timers (setupTimer s post now) !! post_id post = Some (nextHandle s).
Proof.
  intros Hlt. unfold setupTimer.
  destruct (_ <=? 0) eqn:Hd; [apply Z.leb_le in Hd; lia|].
  simpl. by rewrite lookup_insert_eq.
Qed.

Lemma cancelTimer_frame s id :
  objects (cancelTimer s id) = objects s /\
  nextRef (cancelTimer s id) = nextRef s /\
  scheduledPosts (cancelTimer s id) = scheduledPosts s /\
  isRunning (cancelTimer s id) = isRunning s /\
  publishing (cancelTimer s id) = publishing s /\
  timers (cancelTimer s id) !! id = None.
Proof.
  unfold cancelTimer. destruct (timers s !! id) eqn:Ht; simpl.
  - repeat split. apply lookup_delete_eq.
  - done.
Qed.

(** C10.  [updateScheduledPost] on a pending post stores, under the key it
    was called with, the post with every field of [updates] written over it:
    a status in [updates] becomes the status of the stored post, and an id
    in [updates] becomes its id while the key stays.  The call starts no
    publication, unless it re-arms the timer and the clock passes the new
    date between the test of the date and [setupTimer]. *)
Theorem updateScheduledPost_spreads_all s id post updates now now' :
  getScheduledPost s id = Some post -> status post = pending ->
  let updated := spread post updates in
  let s' := (updateScheduledPost s id updates now now').2 in
  (updateScheduledPost s id updates now now').1 = Some updated /\
  getScheduledPost s' id = Some updated /\
  (forall st, upd_status updates = Some st -> status updated = st) /\
  (forall newId, upd_id updates = Some newId -> post_id updated = newId) /\
  ((forall t, upd_scheduledAt updates = Some t -> now < t -> now' < t) ->
   publishing s' = publishing s).
Proof.
  intros Hget Hst. simpl. unfold updateScheduledPost. rewrite Hget.
  rewrite bool_decide_eq_true_2 by done. simpl.
  destruct (cancelTimer_frame s id) as (Hobj & Href & Hmap & _ & Hpub & _).
  set (s2 := {| objects := _ |}).
  assert (Hs2 : getScheduledPost s2 id = Some (spread post updates)).
  { unfold getScheduledPost. simpl. by rewrite map_get_set_eq, lookup_insert_eq. }
  split; [done|]. split; [|split; [|split]].
  - destruct (_ && _ && _); [|done].
    destruct (setupTimer_frame s2 (spread post updates) now') as (Ho & Hm & _).
    unfold getScheduledPost in *. by rewrite Ho, Hm.
  - intros st Hu. unfold spread. simpl. by rewrite Hu.
  - intros newId Hu. unfold spread. simpl. by rewrite Hu.
  - intros Hclock.
    destruct (bool_decide (is_Some (upd_scheduledAt updates))) eqn:Hsome;
      simpl; [|done].
    destruct (isRunning s); simpl; [|done].
    destruct (now <? _) eqn:Hlt; [|done].
    apply bool_decide_eq_true in Hsome as [t Ht].
    apply Z.ltb_lt in Hlt.
    assert (scheduledAt (spread post updates) = t) as Hat
      by (unfold spread; simpl; by rewrite Ht).
    destruct (setupTimer_ahead s2 (spread post updates) now') as [-> _].
    { rewrite Hat. apply Hclock; [done|]. by rewrite Ht in Hlt. }
    done.
Qed.

(** *** A post that is due and the reconciliation sweep *)

Section sweep.
(** A state [s1] at sweep time [t] in which the post object [post], stored
    under its own id [newId], is due, and is the only object with that id. *)
Context (s1 : State) (newId : string) (r : nat) (post : ScheduledPost)
        (t : Z).
Context (Hobj : objects s1 !! r = Some post)
        (Hid : post_id post = newId)
        (Hdue : scheduledAt post <= t)
        (Hkey : map_get newId (scheduledPosts s1) = Some r)
        (Honly : forall ref q, objects s1 !! ref = Some q ->
                               post_id q = newId -> q = post).

Local Abbreviation sweeping := (sweeping s1 newId r).

Lemma sweeping_executePost st postId :
  sweeping st -> sweeping (executePost st postId).
Proof.
  intros (Ho & Hm & Ht). unfold sweeping.
  destruct (executePost_frame st postId) as (-> & -> & -> & _ & _ & l & ->).
  split; [done|]. split; [done|].
  destruct Ht; [by left | right; apply elem_of_app; by left].
Qed.

Lemma sweepPost_sweeping now' st ref :
  sweeping st -> sweeping (sweepPost t now' st ref).
Proof.
  intros Hst. unfold sweepPost.
  destruct (objects st !! ref) as [q|] eqn:Hq; [|done].
  destruct (_ && _) eqn:E1; [by apply sweeping_executePost|].
  destruct ((t <? scheduledAt q) && _) eqn:E2; [|done].
  apply andb_true_iff in E2 as [Hlt _]. apply Z.ltb_lt in Hlt.
  unfold setupTimer.
  destruct (_ <=? 0); [by apply sweeping_executePost|].
  destruct Hst as (Ho & Hm & Ht). split; [done|]. split; [done|]. simpl.
  destruct Ht as [Ht|Ht]; [|by right]. left.
  rewrite lookup_insert_ne; [done|].
  intros Heq. rewrite Ho in Hq.
  assert (q = post) as -> by eauto. lia.
Qed.

Lemma sweepPost_publishing now' st ref x :
  x ∈ publishing st -> x ∈ publishing (sweepPost t now' st ref).
Proof.
  intros Hx. unfold sweepPost.
  destruct (objects st !! ref) as [q|]; [|done].
  destruct (_ && _).
  { destruct (executePost_frame st (post_id q)) as (_&_&_&_&_& l & ->).
    apply elem_of_app. by left. }
  destruct (_ && _); [|done].
  destruct (setupTimer_frame st q now') as (_&_&_& l & ->).
  apply elem_of_app. by left.
Qed.

Lemma sweepPost_due now' st :
  sweeping st -> (newId, r) ∈ publishing (sweepPost t now' st r).
Proof.
  intros (Ho & Hm & Ht). unfold sweepPost. rewrite Ho, Hobj, Hid.
  assert ((scheduledAt post <=? t) = true) as -> by (apply Z.leb_le; lia).
  assert ((t <? scheduledAt post) = false) as -> by (apply Z.ltb_ge; lia).
  simpl. destruct Ht as [Ht|Ht].
  - rewrite Ht. rewrite bool_decide_eq_false_2 by (by intros [? ?]). simpl.
    unfold executePost. rewrite Hm, Hkey. simpl.
    apply elem_of_app. right. apply list_elem_of_here.
  - destruct (negb _); [|done].
    destruct (executePost_frame st newId) as (_&_&_&_&_& l & ->).
    apply elem_of_app. by left.
Qed.

Lemma sweepPosts_publishing clock k st refs x :
  x ∈ publishing st -> x ∈ publishing (sweepPosts t clock k st refs).
Proof.
  revert k st. induction refs as [|ref refs IH]; intros k st Hx; simpl;
    [done|].
  by apply IH, sweepPost_publishing.
Qed.

Lemma sweepPosts_due clock k st refs :
  sweeping st -> r ∈ refs ->
  (newId, r) ∈ publishing (sweepPosts t clock k st refs).
Proof.
  revert k st. induction refs as [|ref refs IH]; intros k st Hst Hr; simpl.
  { inversion Hr. }
  destruct (decide (ref = r)) as [->|Hne].
  - by apply sweepPosts_publishing, sweepPost_due.
  - apply IH; [by apply sweepPost_sweeping|].
    apply elem_of_cons in Hr as [->|Hr]; done.
Qed.
End sweep.

(** C3, as the code has it.  [schedulePost] for a time that is not ahead of
    the clock, on a running scheduler, stores the post as pending and does
    nothing more: no publication is started and no timer is armed.  The
    publication of the post is started by the next reconciliation sweep. *)
Theorem schedulePost_overdue_waits s newId txt at_ media created now now' :
  isRunning s = true -> at_ <= now ->
  let post := (schedulePost s newId txt at_ media created now now').1 in
  let s1 := (schedulePost s newId txt at_ media created now now').2 in
  status post = pending /\
  getScheduledPost s1 newId = Some post /\
  publishing s1 = publishing s /\
  timers s1 = timers s /\ timeouts s1 = timeouts s /\
  (fresh_id s newId ->
   forall t clock, now <= t ->
     (newId, nextRef s) ∈ publishing (checkScheduledPosts s1 t clock)).
Proof.
  intros Hrun Hat. unfold schedulePost. simpl. rewrite Hrun. simpl.
  assert ((now <? at_) = false) as -> by (apply Z.ltb_ge; lia). simpl.
  set (post := {| post_id := newId |}).
  set (s1 := {| objects := _ |}).
  assert (Hget : getScheduledPost s1 newId = Some post).
  { unfold getScheduledPost. simpl. by rewrite map_get_set_eq, lookup_insert_eq. }
  do 5 (split; [done|]).
  intros [Htimer Hfresh] t clock Ht.
  unfold checkScheduledPosts. simpl.
  apply (sweepPosts_due s1 newId (nextRef s) post t).
  - apply lookup_insert_eq.
  - done.
  - simpl. lia.
  - apply map_get_set_eq.
  - intros ref q. simpl. rewrite lookup_insert.
    case_decide; [by intros [= <-]|].
    intros Hq Hidq. by destruct (Hfresh ref q Hq).
  - split; [done|]. split; [done|]. by left.
  - unfold pendingPosts. apply list_elem_of_filter. split.
    + unfold is_pending. simpl. by rewrite lookup_insert_eq.
    + apply list_elem_of_fmap. exists (newId, nextRef s). split; [done|].
      apply elem_of_map_set.
Qed.

(** C3 fails as it is written: on a running scheduler, [schedulePost] at
    time 100 for time 50 starts no publication and leaves the post pending. *)
Lemma overdue_post_not_executed :
  ~ (forall s newId txt at_ media created now now',
       isRunning s = true -> at_ <= now ->
       let s1 := (schedulePost s newId txt at_ media created now now').2 in
       (exists ref, (newId, ref) ∈ publishing s1) \/
       (exists post, getScheduledPost s1 newId = Some post /\
                     status post <> pending)).
Proof.
  intros H.
  specialize (H Examples.running "post1" "hello" 50 None 100 100 100
                eq_refl ltac:(lia)).
  simpl in H. destruct H as [[ref Href]|(post & Hpost & Hst)].
  - vm_compute in Href. inversion Href.
  - vm_compute in Hpost. injection Hpost as <-. by apply Hst.
Qed.

(** When the publication of a post settles, the object held by the call gets
    its final status and is the post stored under the id. *)
Lemma resumeExecutePost_settles s k postId ref post published :
  publishing s !! k = Some (postId, ref) ->
  objects s !! ref = Some post ->
  getScheduledPost (resumeExecutePost s k published) postId
  = Some (set_status (if published then posted else failed) post).
Proof.
  intros Hk Hobj. unfold resumeExecutePost, getScheduledPost. rewrite Hk.
  simpl. by rewrite map_get_set_eq, lookup_alter_eq, Hobj.
Qed.

(** *** The theorems at concrete inputs *)

(** A post for time 50 scheduled at time 100 on a running scheduler, and the
    sweep one minute after the start. *)
Lemma schedulePost_overdue_waits_witness :
  let r := schedulePost Examples.running "post1" "hello" 50 None 100 100 100 in
  status r.1 = pending /\
  getScheduledPost r.2 "post1" = Some r.1 /\
  publishing r.2 = [] /\
  ("post1", 0%nat) ∈ publishing (checkScheduledPosts r.2 60000 (fun _ => 60000)).
Proof.
  destruct (schedulePost_overdue_waits Examples.running "post1" "hello" 50
              None 100 100 100)
    as (Hst & Hget & Hpub & _ & _ & Hsweep);
    [reflexivity | lia |].
  split; [exact Hst|]. split; [exact Hget|]. split; [exact Hpub|].
  apply Hsweep.
  - split; [reflexivity|]. intros ref post Hpost.
    vm_compute in Hpost. discriminate.
  - lia.
Defined.

(** An update that carries a status and an id. *)
Lemma updateScheduledPost_spreads_all_witness :
  let r := schedulePost initial "post1" "hello" 500 None 100 100 100 in
  let updates :=
    {| upd_id := Some "other"; upd_text := None; upd_scheduledAt := None;
       upd_status := Some posted; upd_mediaUrls := None;
       upd_createdAt := None |} in
  exists updated,
    getScheduledPost (updateScheduledPost r.2 "post1" updates 200 200).2
                     "post1" = Some updated /\
    status updated = posted /\ post_id updated = "other" /\
    publishing (updateScheduledPost r.2 "post1" updates 200 200).2 = [].
Proof.
  simpl.
  edestruct (updateScheduledPost_spreads_all
               (schedulePost initial "post1" "hello" 500 None 100 100 100).2
               "post1"
               (schedulePost initial "post1" "hello" 500 None 100 100 100).1
               {| upd_id := Some "other"; upd_text := None;
                  upd_scheduledAt := None; upd_status := Some posted;
                  upd_mediaUrls := None; upd_createdAt := None |} 200 200)
    as (_ & Hget & Hst & Hid & Hpub); [reflexivity | reflexivity |].
  eexists. split; [exact Hget|].
  split; [by apply Hst|]. split; [by apply Hid|].
  apply Hpub. intros t Ht. discriminate.
Defined.

End SchedulerTheory.

(** ** The campaign engine: what no operation undoes *)

Module CampaignExtras.
Import Campaigns CampaignTheory.

Lemma fmap_alter_same {A B} (f : A -> B) (g : A -> A) i (l : list A) :
  (forall x, f (g x) = f x) -> f <$> alter g i l = f <$> l.
Proof.
  intros Hfg. apply list_eq. intros j.
  rewrite !list_lookup_fmap, list_lookup_alter.
  case_decide as Hij; [|done]. subst j. destruct (l !! i); simpl; [|done].
  by rewrite Hfg.
Qed.

Lemma Forall2_alter_same {A} (R : A -> A -> Prop) (g : A -> A) i (l : list A) :
  (forall x, R x x) -> (forall x, R x (g x)) -> Forall2 R l (alter g i l).
Proof.
  intros Hrefl Hg. revert i. induction l as [|x l IH]; intros i.
  - constructor.
  - destruct i as [|i]; simpl.
    + constructor; [apply Hg|]. clear IH. induction l; constructor; auto.
    + constructor; [apply Hrefl | apply IH].
Qed.

Lemma evolves_refl c : evolves c c.
Proof.
  split; try done.
  induction (prizes c); constructor; [lia | done].
Qed.

Lemma evolves_trans c1 c2 c3 : evolves c1 c2 -> evolves c2 c3 -> evolves c1 c3.
Proof.
  intros [] []. split; try congruence.
  - destruct ev_dates0, ev_dates1. split; congruence.
  - eapply Forall2_trans; [|eassumption|eassumption].
    simpl. intros. lia.
  - by etrans.
  - eauto.
Qed.

Lemma evolves_set_status st now c : evolves c (set_status st now c).
Proof.
  split; try done. simpl.
  induction (prizes c); constructor; [lia | done].
Qed.

(** An accepted entry: the prizes after the instant draw, then the new
    participant at the end. *)
Lemma evolves_entry c c1 p :
  c1 = c \/
  (exists ref, c1 = set_prizes (alter decrement ref (prizes c)) c) ->
  evolves c (set_participants (participants c ++ [p]) c1).
Proof.
  intros Hc1.
  split; simpl; try (destruct Hc1 as [->|[ref ->]]; done).
  - destruct Hc1 as [->|[ref ->]]; [done|]. simpl.
    by apply fmap_alter_same.
  - destruct Hc1 as [->|[ref ->]]; simpl.
    + induction (prizes c); constructor; [lia | done].
    + apply Forall2_alter_same; intros x; simpl; lia.
  - rewrite fmap_app. by apply prefix_app_r.
  - intros i q Hq _. by apply lookup_app_l_Some.
Qed.

(** A later lottery: the participants drawn are marked, in their places. *)
Lemma evolves_draw c st :
  draw_inv (participants c) st ->
  evolves c (set_participants (ds_participants st) c).
Proof.
  intros [Hnd Hel Hws Hoth Hcnt].
  assert (Hentries : entry_of <$> ds_participants st
                     = entry_of <$> participants c).
  { apply list_eq. intros i. rewrite !list_lookup_fmap.
    destruct (decide (i ∈ ds_winners st)) as [Hi|Hi].
    - destruct (Hws i Hi) as (p & pid & -> & _ & ->). done.
    - by rewrite Hoth. }
  split; simpl; try done.
  - induction (prizes c); constructor; [lia | done].
  - by rewrite Hentries.
  - intros i q Hq Hwon. rewrite Hoth; [done|].
    intros Hi. destruct (Hws i Hi) as (p & pid & Hp & Hnot & _). congruence.
Qed.

(** The store after an operation: as before, or with one campaign put under
    the id of the operation, which is new or a later state of the one that
    was there. *)
Lemma exec_cases s o :
  exec s o = s \/
  exists c', exec s o = <[target o := c']> s /\
    (creates o (target o) \/
     exists c, s !! target o = Some c /\ evolves c c').
Proof.
  destruct o as [newId name ty descr start_ end_ ps rs now1 now2
                | id now | id now | cid user now r1 r2 | cid rnd]; simpl.
  - right. eexists. split; [done|]. by left.
  - unfold startCampaign. destruct (s !! id) as [c|] eqn:Hc; [|by left].
    right. eexists. split; [done|]. right. exists c.
    split; [done | apply evolves_set_status].
  - unfold endCampaign. destruct (s !! id) as [c|] eqn:Hc; [|by left].
    right. eexists. split; [done|]. right. exists c.
    split; [done | apply evolves_set_status].
  - destruct (enterCampaign_store s cid user now r1 r2)
      as [->|(c & p & c1 & Hc & _ & _ & -> & _ & Hc1)]; [by left|].
    right. eexists. split; [done|]. right. exists c. split; [done|].
    apply evolves_entry.
    destruct Hc1 as [->|(ref & prize & _ & _ & _ & ->)]; eauto.
  - destruct (runLaterLottery_store s cid rnd) as [->|(c & Hc & _ & ->)];
      [by left|].
    right. eexists. split; [done|]. right. exists c. split; [done|].
    unfold laterLotteryDraw.
    destruct (drawForPrizes_inv (participants c) (prizes c) rnd
                (initialDraw c) (draw_inv_initial c)) as (st & -> & Hinv & _).
    by apply evolves_draw.
Qed.

(** X1.  An operation on one campaign leaves every other campaign of the
    store as it is. *)
Theorem exec_other_campaign s o id :
  id <> target o -> exec s o !! id = s !! id.
Proof.
  intros Hne. destruct (exec_cases s o) as [->|(c' & -> & _)]; [done|].
  by rewrite lookup_insert_ne.
Qed.

Lemma exec_evolves s o id c :
  s !! id = Some c -> ~ creates o id ->
  exists c', exec s o !! id = Some c' /\ evolves c c'.
Proof.
  intros Hc Hcr.
  destruct (exec_cases s o) as [->|(c' & -> & Hc')].
  { exists c. split; [done | apply evolves_refl]. }
  destruct (decide (id = target o)) as [->|Hne].
  - rewrite lookup_insert_eq. exists c'. split; [done|].
    destruct Hc' as [Hcr'|(c0 & Hc0 & Hev)]; [done|]. congruence.
  - rewrite lookup_insert_ne by done. exists c.
    split; [done | apply evolves_refl].
Qed.

(** X2.  No operation deletes a campaign.  Through any operations that do
    not create its id again, a campaign keeps its id, name, type,
    description, period, rules and creation time, and its prizes with their
    ids, names and quantities; no prize gets more remaining; the
    participants stay in their places with their entry data, new ones come
    after them; and who has won keeps the win and the prize. *)
Theorem campaign_evolves ops s id c :
  s !! id = Some c ->
  is_Some (fold_left exec ops s !! id) /\
  (Forall (fun o => ~ creates o id) ops ->
   exists c', fold_left exec ops s !! id = Some c' /\ evolves c c').
Proof.
  intros Hc. split.
  - revert s c Hc. induction ops as [|o ops IH]; intros s c Hc; simpl; [eauto|].
    destruct (exec_cases s o) as [->|(c' & -> & _)]; [eauto|].
    destruct (decide (id = target o)) as [->|Hne].
    + eapply IH. apply lookup_insert_eq.
    + eapply IH. by rewrite lookup_insert_ne.
  - revert s c Hc. induction ops as [|o ops IH]; intros s c Hc Hops; simpl.
    { exists c. split; [done | apply evolves_refl]. }
    apply Forall_cons in Hops as [Ho Hops].
    destruct (exec_evolves s o id c Hc Ho) as (c1 & Hc1 & Hev1).
    destruct (IH _ _ Hc1 Hops) as (c' & Hc' & Hev').
    exists c'. split; [done|]. by eapply evolves_trans.
Qed.

(** *** What an accepted entry does *)

(** An accepted entry, by the draws: when the instant draw is a win, the
    prize at the drawn position of the available ones, which has some
    remaining, goes down by one and the participant holds it (unless the id
    of the prize is the empty string: then the prize goes down and the
    participant has not won).  Otherwise the participant has not won and
    nothing else changes. *)
Lemma enterCampaign_by_draw s campaignId c user now r1 r2 :
  s !! campaignId = Some c -> status c = active ->
  ~ already_entered c user ->
  let available := positions (fun p => 0 <? remaining p) (prizes c) in
  if instant_win c r1 then
    exists ref prize,
      available !! random_index r2 (length available) = Some ref /\
      prizes c !! ref = Some prize /\ 0 < remaining prize /\
      enterCampaign s campaignId user now r1 r2 =
        (Returned true,
         <[campaignId :=
             set_participants
               (participants c ++
                [if truthy_string (prize_id prize)
                 then set_won (prize_id prize) (new_participant user now)
                 else new_participant user now])
               (set_prizes (alter decrement ref (prizes c)) c)]> s)
  else
    enterCampaign s campaignId user now r1 r2 =
      (Returned true,
       <[campaignId :=
           set_participants (participants c ++ [new_participant user now]) c]>
         s).
Proof.
  intros Hc Hact Hnew. simpl. unfold instant_win, enterCampaign.
  rewrite Hc, bool_decide_eq_true_2 by done. simpl.
  destruct (existsb _ _) eqn:Hex.
  { by apply already_entered_existsb in Hex. }
  destruct (is_instant (type c)); simpl; [|done].
  unfold runInstantLottery.
  destruct (positions _ (prizes c)) as [|i av] eqn:Hav; simpl; [done|].
  destruct (js_lt _ _); simpl; [|done].
  destruct (lookup_lt_is_Some_2 (i :: av)
              (random_index r2 (length (i :: av)))) as [ref Href].
  { apply random_index_lt. simpl. lia. }
  simpl in Href. rewrite Href.
  assert (Hin : ref ∈ positions (fun p => 0 <? remaining p) (prizes c)).
  { rewrite Hav. eapply list_elem_of_lookup_2, Href. }
  apply elem_of_positions in Hin as (prize & Hprize & Hpos).
  rewrite Hprize. exists ref, prize.
  split; [done|]. split; [done|]. split; [by apply Z.ltb_lt|].
  unfold won_with_prize. simpl.
  by destruct (truthy_string (prize_id prize)).
Qed.

Lemma no_prize_available ps :
  Forall (fun p => remaining p <= 0) ps ->
  positions (fun p => 0 <? remaining p) ps = [].
Proof.
  intros Hall.
  destruct (positions _ ps) as [|i av] eqn:Hav; [done|]. exfalso.
  assert (Hi : i ∈ positions (fun p => 0 <? remaining p) ps)
    by (rewrite Hav; apply list_elem_of_here).
  apply elem_of_positions in Hi as (p & Hp & Hpos).
  apply Z.ltb_lt in Hpos.
  apply list_elem_of_lookup_2 in Hp.
  rewrite Forall_forall in Hall. specialize (Hall p Hp). simpl in Hall. lia.
Qed.

(** X3.  An entry that is accepted returns [true] and appends exactly one
    participant, in one of two ways, whatever the draws.  Either the
    participant has not won and nothing else changes; or the campaign is an
    instant one and one prize that had some remaining goes down by one, and
    the participant holds that prize (unless the id of the prize is the
    empty string: then the prize goes down and the participant has not
    won).  In a later lottery, and when no prize has anything remaining, it
    is the first. *)
Theorem enterCampaign_outcome s campaignId c user now r1 r2 :
  s !! campaignId = Some c -> status c = active ->
  ~ already_entered c user ->
  let entry := new_participant user now in
  let loss :=
    (Returned true,
     <[campaignId := set_participants (participants c ++ [entry]) c]> s) in
  (enterCampaign s campaignId user now r1 r2 = loss \/
   exists ref prize,
     is_instant (type c) = true /\
     prizes c !! ref = Some prize /\ 0 < remaining prize /\
     enterCampaign s campaignId user now r1 r2 =
       (Returned true,
        <[campaignId :=
            set_participants
              (participants c ++
               [if truthy_string (prize_id prize)
                then set_won (prize_id prize) entry
                else entry])
              (set_prizes (alter decrement ref (prizes c)) c)]> s)) /\
  (is_instant (type c) = false \/
   Forall (fun p => remaining p <= 0) (prizes c) ->
   enterCampaign s campaignId user now r1 r2 = loss).
Proof.
  intros Hc Hact Hnew.
  pose proof (enterCampaign_by_draw s campaignId c user now r1 r2 Hc Hact Hnew)
    as H.
  cbv zeta in H |- *. split.
  - destruct (instant_win c r1) eqn:Hwin; [|by left].
    right. destruct H as (ref & prize & _ & Hprize & Hpos & Heq).
    exists ref, prize. split; [|done].
    unfold instant_win in Hwin. by destruct (is_instant (type c)).
  - intros Hno.
    assert (Hwin : instant_win c r1 = false).
    { unfold instant_win. destruct Hno as [->|Hall]; [done|].
      rewrite (no_prize_available _ Hall). simpl. by rewrite andb_false_r. }
    by rewrite Hwin in H.
Qed.

(** *** The prize of a winner *)

Lemma prize_recorded_new ids user now :
  prize_recorded ids (new_participant user now).
Proof.
  split; simpl.
  - split; [done | by intros [? ?]].
  - done.
Qed.

Lemma prize_recorded_set_won ids pid q :
  pid ∈ ids -> prize_recorded ids (set_won pid q).
Proof.
  intros Hpid. split; simpl.
  - split; eauto.
  - by intros ? [= <-].
Qed.

Lemma drawForPrize_recorded ids n pid rnd st :
  pid ∈ ids ->
  Forall (prize_recorded ids) (ds_participants st) ->
  Forall (prize_recorded ids) (ds_participants (drawForPrize n pid rnd st).2).
Proof.
  intros Hpid. revert st. induction n as [|n IH]; intros st Hst; simpl;
    [done|].
  destruct (ds_eligible st); [done|].
  destruct (_ !! _) as [winner|]; [|done].
  apply IH. simpl. apply Forall_alter; [done|].
  intros q _ _. by apply prize_recorded_set_won.
Qed.

Lemma drawForPrizes_recorded ids ps rnd st :
  Forall (fun p => prize_id p ∈ ids) ps ->
  Forall (prize_recorded ids) (ds_participants st) ->
  Forall (prize_recorded ids) (ds_participants (drawForPrizes ps rnd st).2).
Proof.
  intros Hps. revert st. induction Hps as [|p ps Hp _ IH]; intros st Hst;
    simpl; [done|].
  pose proof (drawForPrize_recorded ids (Z.to_nat (quantity p)) (prize_id p)
                rnd st Hp Hst) as H1.
  destruct (drawForPrize _ _ _ st) as [[] st1]; simpl in *; [done|].
  by apply IH.
Qed.

Lemma exec_prize_recorded s o :
  every_campaign
    (fun c => Forall (prize_recorded (prize_id <$> prizes c)) (participants c))
    s ->
  every_campaign
    (fun c => Forall (prize_recorded (prize_id <$> prizes c)) (participants c))
    (exec s o).
Proof.
  intros Hs.
  destruct o as [newId name ty descr start_ end_ ps rs now1 now2
                | id now | id now | cid user now r1 r2 | cid rnd]; simpl.
  - apply every_campaign_insert; [done|]. simpl. constructor.
  - unfold startCampaign. destruct (s !! id) as [c|] eqn:Hc; [|done].
    apply every_campaign_insert; [done|]. apply (Hs _ _ Hc).
  - unfold endCampaign. destruct (s !! id) as [c|] eqn:Hc; [|done].
    apply every_campaign_insert; [done|]. apply (Hs _ _ Hc).
  - destruct (enterCampaign_store s cid user now r1 r2)
      as [->|(c & p & c1 & Hc & Hact & Hnew & _)]; [done|].
    pose proof (enterCampaign_by_draw s cid c user now r1 r2 Hc Hact Hnew)
      as Hout. simpl in Hout.
    destruct (instant_win c r1).
    + destruct Hout as (ref & prize & _ & Hprize & _ & ->).
      apply every_campaign_insert; [done|]. simpl.
      rewrite (fmap_alter_same prize_id) by done.
      apply Forall_app. split; [apply (Hs _ _ Hc)|].
      apply Forall_singleton.
      destruct (truthy_string _); [|apply prize_recorded_new].
      apply prize_recorded_set_won, list_elem_of_fmap.
      exists prize. split; [done|]. by eapply list_elem_of_lookup_2.
    + rewrite Hout. apply every_campaign_insert; [done|]. simpl.
      apply Forall_app. split; [apply (Hs _ _ Hc)|].
      apply Forall_singleton, prize_recorded_new.
  - destruct (runLaterLottery_store s cid rnd) as [->|(c & Hc & _ & ->)];
      [done|].
    apply every_campaign_insert; [done|]. simpl.
    unfold laterLotteryDraw. apply drawForPrizes_recorded; [|apply (Hs _ _ Hc)].
    apply Forall_forall. intros p Hp. apply list_elem_of_fmap. eauto.
Qed.

(** X4.  After any sequence of operations, a participant has [won = true]
    exactly when a [prizeId] is recorded, and a recorded [prizeId] is the id
    of a prize of the campaign. *)
Theorem winner_holds_a_prize ops id c q :
  run ops !! id = Some c -> q ∈ participants c ->
  (won q = true <-> is_Some (prizeId q)) /\
  forall pid, prizeId q = Some pid ->
    exists prize, prize ∈ prizes c /\ prize_id prize = pid.
Proof.
  intros Hc Hq.
  assert (H : every_campaign
            (fun c => Forall (prize_recorded (prize_id <$> prizes c))
                             (participants c)) (run ops)).
  { apply (run_invariant _ (fun _ => True)).
    - done.
    - intros s o Hs _. by apply exec_prize_recorded.
    - by apply Forall_true. }
  specialize (H id c Hc). rewrite Forall_forall in H.
  destruct (H q Hq) as [Hiff Hids]. split; [done|].
  intros pid Hpid. apply Hids, list_elem_of_fmap in Hpid as (prize & ? & ?).
  eauto.
Qed.

(** *** Statistics *)

Lemma fold_left_sum (f : Prize -> Z) ps a :
  fold_left (fun sum p => sum + f p) ps a
  = a + fold_left (fun sum p => sum + f p) ps 0.
Proof.
  revert a. induction ps as [|p ps IH]; intros a; simpl; [lia|].
  rewrite (IH (a + _)), (IH (0 + _)). lia.
Qed.

Lemma sum_alter_decrement (f : Prize -> Z) (d : Z) ps ref prize :
  (forall p, f (decrement p) = f p + d) ->
  ps !! ref = Some prize ->
  fold_left (fun sum p => sum + f p) (alter decrement ref ps) 0
  = fold_left (fun sum p => sum + f p) ps 0 + d.
Proof.
  intros Hf. revert ref. induction ps as [|p ps IH]; intros ref Href;
    [done|].
  destruct ref as [|ref].
  - change (alter decrement 0%nat (p :: ps)) with (decrement p :: ps).
    cbn [fold_left].
    rewrite (fold_left_sum f ps (0 + f (decrement p))).
    rewrite (fold_left_sum f ps (0 + f p)), Hf. lia.
  - change (alter decrement (S ref) (p :: ps))
      with (p :: alter decrement ref ps).
    cbn [fold_left].
    rewrite (fold_left_sum f _ (0 + f p)), (IH _ Href).
    rewrite (fold_left_sum f ps (0 + f p)). lia.
Qed.

Lemma winners_of_snoc c c1 p :
  length (winners_of (set_participants (participants c ++ [p]) c1))
  = (length (winners_of c) + if won p then 1 else 0)%nat.
Proof.
  unfold winners_of. simpl. rewrite filter_app, length_app. f_equal.
  rewrite filter_cons, filter_nil. destruct (won p); simpl; done.
Qed.

Lemma exec_counters_agree s o :
  every_campaign counters_agree s -> well_labelled o ->
  every_campaign counters_agree (exec s o).
Proof.
  intros Hs Ho.
  destruct o as [newId name ty descr start_ end_ ps rs now1 now2
                | id now | id now | cid user now r1 r2 | cid rnd]; simpl.
  - apply every_campaign_insert; [done|]. split; simpl.
    { apply Forall_fmap. eapply Forall_impl; [exact Ho|]. done. }
    assert (Hall : Forall (fun p => remaining p = quantity p)
                     (map (fun p => set_remaining (quantity p) p) ps)).
    { apply Forall_fmap, Forall_true. done. }
    destruct (is_instant ty); [|done].
    unfold totalPrizes, prizesRemaining, winners_of. simpl.
    induction Hall as [|p l Hp _ IH]; simpl; [done|].
    rewrite (fold_left_sum quantity l), (fold_left_sum remaining l).
    simpl in IH. lia.
  - unfold startCampaign. destruct (s !! id) as [c|] eqn:Hc; [|done].
    apply every_campaign_insert; [done|]. apply (Hs _ _ Hc).
  - unfold endCampaign. destruct (s !! id) as [c|] eqn:Hc; [|done].
    apply every_campaign_insert; [done|]. apply (Hs _ _ Hc).
  - destruct (enterCampaign_store s cid user now r1 r2)
      as [->|(c & p & c1 & Hc & Hact & Hnew & _)]; [done|].
    pose proof (enterCampaign_by_draw s cid c user now r1 r2 Hc Hact Hnew)
      as Hout. simpl in Hout.
    destruct (Hs _ _ Hc) as [Hids Hagree].
    destruct (instant_win c r1) eqn:Hwin.
    + destruct Hout as (ref & prize & _ & Hprize & _ & ->).
      apply every_campaign_insert; [done|].
      unfold instant_win in Hwin.
      destruct (is_instant (type c)) eqn:Hty; [|done].
      assert (Hid : truthy_string (prize_id prize) = true).
      { rewrite Forall_forall in Hids. apply Hids.
        by eapply list_elem_of_lookup_2. }
      split; simpl.
      { apply Forall_alter; [done|]. by intros x _ Hx. }
      rewrite Hty, winners_of_snoc, Hid. simpl.
      unfold totalPrizes, prizesRemaining in *. simpl.
      rewrite (sum_alter_decrement quantity 0 _ _ prize)
        by (done || (intros; simpl; lia)).
      rewrite (sum_alter_decrement remaining (-1) _ _ prize)
        by (done || (intros; simpl; lia)).
      lia.
    + rewrite Hout. apply every_campaign_insert; [done|].
      split; simpl; [done|].
      destruct (is_instant (type c)); [|done].
      rewrite winners_of_snoc. simpl.
      unfold totalPrizes, prizesRemaining in *. simpl. lia.
  - destruct (runLaterLottery_store s cid rnd) as [->|(c & Hc & Hty & ->)];
      [done|].
    apply every_campaign_insert; [done|].
    destruct (Hs _ _ Hc) as [Hids Hagree].
    split; simpl; [done|]. by rewrite Hty in *.
Qed.

(** X5.  After any sequence of operations that creates no prize with an
    empty id, [getCampaignStats] of an instant campaign reports as many
    prizes distributed as winners; of a later lottery it reports none
    distributed, whatever was drawn, and every prize has its whole quantity
    remaining. *)
Theorem prizes_distributed_agree ops id c stats :
  Forall well_labelled ops ->
  run ops !! id = Some c ->
  getCampaignStats (run ops) id = Some stats ->
  if is_instant (type c)
  then stats_prizesDistributed stats = stats_totalWinners stats
  else stats_prizesDistributed stats = 0 /\
       Forall (fun p => remaining p = quantity p) (prizes c).
Proof.
  intros Hops Hc Hstats.
  assert (H : every_campaign counters_agree (run ops)).
  { apply (run_invariant _ well_labelled);
      [done | apply exec_counters_agree | done]. }
  destruct (H id c Hc) as [_ Hagree].
  unfold getCampaignStats in Hstats. rewrite Hc in Hstats.
  injection Hstats as <-. simpl.
  destruct (is_instant (type c)); [done|]. split; [|done].
  unfold totalPrizes, prizesRemaining.
  induction Hagree as [|p l Hp _ IH]; simpl; [done|].
  rewrite (fold_left_sum quantity l), (fold_left_sum remaining l). lia.
Qed.

(** X6.  [getCampaignStats] is [null] exactly for an unknown id.  Of a
    known campaign it reports no more winners than participants, a win rate
    between 0 and 100 that is 0 without participants, and remaining and
    distributed prizes that add up to the sum of the quantities. *)
Theorem getCampaignStats_bounds (s : store) id :
  match getCampaignStats s id with
  | None => s !! id = None
  | Some stats =>
      exists c, s !! id = Some c /\
      0 <= stats_totalWinners stats <= stats_totalParticipants stats /\
      (0 <= stats_winRate stats)%Q /\ (stats_winRate stats <= 100)%Q /\
      (stats_totalParticipants stats = 0 -> stats_winRate stats = 0%Q) /\
      stats_prizesRemaining stats + stats_prizesDistributed stats
        = totalPrizes c
  end.
Proof.
  unfold getCampaignStats. destruct (s !! id) as [c|]; [|done].
  exists c. split; [done|]. simpl.
  assert (Hle : (length (winners_of c) <= length (participants c))%nat)
    by apply length_filter.
  split; [lia|].
  destruct (0 <? Z.of_nat (length (participants c))) eqn:Hpos.
  - apply Z.ltb_lt in Hpos.
    set (w := Z.of_nat (length (winners_of c))).
    set (n := Z.of_nat (length (participants c))).
    assert (Hn : (0 < inject_Z n)%Q) by (rewrite <- (Zlt_Qlt 0); lia).
    assert (Hw : (0 <= inject_Z w)%Q) by (rewrite <- (Zle_Qle 0); lia).
    assert (Hwn : (inject_Z w <= inject_Z n)%Q) by (rewrite <- Zle_Qle; lia).
    assert (Hq0 : (0 <= inject_Z w / inject_Z n)%Q).
    { apply Qle_shift_div_l; [done|]. by rewrite Qmult_0_l. }
    assert (Hq1 : (inject_Z w / inject_Z n <= 1)%Q).
    { apply Qle_shift_div_r; [done|]. by rewrite Qmult_1_l. }
    split; [|split; [|split; [lia|lia]]].
    + apply Qmult_le_0_compat; done.
    + rewrite <- (Qmult_1_l 100) at 2. apply Qmult_le_compat_r; done.
  - split; [done|]. split; [done|]. split; [done|lia].
Qed.

(** *** How many the later lottery draws *)

Lemma drawForPrize_count l0 n pid rnd st :
  draw_inv l0 st ->
  exists st',
    drawForPrize n pid rnd st = (false, st') /\ draw_inv l0 st' /\
    length (ds_winners st')
      = (length (ds_winners st) + n `min` length (ds_eligible st))%nat /\
    length (ds_eligible st')
      = (length (ds_eligible st) - n `min` length (ds_eligible st))%nat.
Proof.
  revert st. induction n as [|n IH]; intros st Hinv; cbn [drawForPrize].
  { exists st. split; [done|]. split; [done|]. lia. }
  destruct (ds_eligible st) as [|e el] eqn:Hel.
  { exists st. split; [done|]. split; [done|]. rewrite Hel. simpl. lia. }
  destruct (lookup_lt_is_Some_2 (e :: el)
              (random_index (rnd (ds_draws st)) (length (e :: el))))
    as [winner Hw].
  { apply random_index_lt. simpl. lia. }
  rewrite Hw. rewrite <- Hel in Hw |- *.
  destruct (IH _ (draw_inv_step l0 st _ winner pid Hinv Hw))
    as (st' & Heq & Hinv' & Hws & Hes).
  exists st'. split; [done|]. split; [done|].
  simpl in Hws, Hes. rewrite length_app in Hws.
  rewrite length_delete in Hes, Hws by eauto. simpl in Hws.
  assert (0 < length (ds_eligible st))%nat by (rewrite Hel; simpl; lia).
  lia.
Qed.

Lemma drawForPrizes_count l0 ps rnd st :
  draw_inv l0 st ->
  exists st',
    drawForPrizes ps rnd st = (false, st') /\ draw_inv l0 st' /\
    length (ds_winners st')
      = (length (ds_winners st)
         + drawsFor ps `min` length (ds_eligible st))%nat /\
    length (ds_eligible st')
      = (length (ds_eligible st)
         - drawsFor ps `min` length (ds_eligible st))%nat.
Proof.
  revert st. induction ps as [|p ps IH]; intros st Hinv; simpl.
  { exists st. split; [done|]. split; [done|]. lia. }
  destruct (drawForPrize_count l0 (Z.to_nat (quantity p)) (prize_id p) rnd st
              Hinv) as (st1 & -> & Hinv1 & Hw1 & He1).
  destruct (IH st1 Hinv1) as (st' & Heq & Hinv' & Hw' & He').
  exists st'. split; [done|]. split; [done|]. lia.
Qed.

(** The participants who have not won are the eligible ones. *)
Lemma draw_inv_eligible l0 st :
  draw_inv l0 st ->
  length (filter (fun p => won p = false) (ds_participants st))
  = length (ds_eligible st).
Proof.
  intros [Hnd Hel Hws Hoth Hcnt].
  rewrite (list_filter_iff _ (fun p => negb (won p) = true))
    by (intros p; symmetry; apply negb_true_iff).
  rewrite <- length_positions.
  assert (Hall : ds_eligible st ++ ds_winners st
                 ≡ₚ positions (fun p => negb (won p)) l0).
  { apply submseteq_length_Permutation; [|rewrite length_app; lia].
    apply NoDup_submseteq; [done|]. intros i Hi.
    apply elem_of_positions. apply elem_of_app in Hi as [Hi|Hi].
    - destruct (Hel i Hi) as (p & ? & Hp & _). exists p.
      by rewrite Hp.
    - destruct (Hws i Hi) as (p & pid & ? & Hp & _). exists p.
      by rewrite Hp. }
  apply Permutation_length, NoDup_Permutation;
    [apply NoDup_positions | by apply NoDup_app in Hnd as (? & _) |].
  intros i. rewrite elem_of_positions. split.
  - intros (p & Hp & Hnot). apply negb_true_iff in Hnot.
    assert (Hi : i ∉ ds_winners st).
    { intros Hi. destruct (Hws i Hi) as (q & pid & _ & _ & Hq).
      rewrite Hq in Hp. injection Hp as <-. done. }
    assert (Hin : i ∈ ds_eligible st ++ ds_winners st).
    { rewrite Hall. apply elem_of_positions. exists p.
      rewrite <- Hoth by done. by rewrite Hnot. }
    apply elem_of_app in Hin as [?|?]; done.
  - intros Hi. destruct (Hel i Hi) as (p & _ & Hp & ?). exists p.
    by rewrite Hp.
Qed.

(** What one call of [runLaterLottery] on a later lottery returns and
    stores. *)
Lemma runLaterLottery_exact s campaignId c rnd :
  s !! campaignId = Some c -> type c = later_lottery ->
  exists winners c',
    runLaterLottery s campaignId rnd
      = (Returned winners, <[campaignId := c']> s) /\
    length winners = Nat.min (drawsFor (prizes c)) (eligible_count c) /\
    Forall (fun w => won w = true /\ is_Some (prizeId w)) winners /\
    eligible_count c' = (eligible_count c - length winners)%nat /\
    prizes c' = prizes c /\ type c' = type c /\ status c' = status c.
Proof.
  intros Hc Hty.
  destruct (drawForPrizes_count (participants c) (prizes c) rnd
              (initialDraw c) (draw_inv_initial c))
    as (st & Hdraw & Hinv & Hw & He).
  pose proof (draw_inv_eligible _ _ Hinv) as Hcount.
  pose proof (draw_inv_eligible _ _ (draw_inv_initial c)) as Hcount0.
  destruct Hinv as [Hnd Hel Hws Hoth Hcnt].
  simpl in Hw, He, Hcount0.
  exists (omap (fun i => ds_participants st !! i) (ds_winners st)),
         (set_participants (ds_participants st) c).
  split; [|split; [|split; [|split]]].
  - unfold runLaterLottery, laterLotteryDraw.
    by rewrite Hc, bool_decide_eq_true_2, Hdraw.
  - rewrite length_omap_lookup.
    + unfold eligible_count. rewrite Hcount0. lia.
    + intros i Hi. destruct (Hws i Hi) as (p & pid & _ & _ & ->). eauto.
  - apply Forall_forall. intros w Hw'.
    apply list_elem_of_omap in Hw' as (i & Hi & Hlook).
    destruct (Hws i Hi) as (p & pid & _ & _ & Hp).
    rewrite Hp in Hlook. injection Hlook as <-. simpl. eauto.
  - unfold eligible_count. simpl. rewrite Hcount, He, length_omap_lookup.
    + rewrite Hcount0. lia.
    + intros i Hi. destruct (Hws i Hi) as (p & pid & _ & _ & ->). eauto.
  - done.
Qed.

(** X7.  On a later lottery whose quantities are integers, a call of
    [runLaterLottery] that is awaited before any other call is made draws
    exactly as many winners as there are prizes to draw (the quantities, a
    negative one counting as zero) or participants who have not won,
    whichever is less.  Every winner returned is marked as won; the
    participants who have not won are fewer by the number of winners; the
    prizes are as before. *)
Theorem runLaterLottery_count s campaignId c rnd :
  s !! campaignId = Some c -> type c = later_lottery ->
  exists winners c',
    runLaterLottery s campaignId rnd
      = (Returned winners, <[campaignId := c']> s) /\
    length winners = Nat.min (drawsFor (prizes c)) (eligible_count c) /\
    Forall (fun w => won w = true /\ is_Some (prizeId w)) winners /\
    eligible_count c' = (eligible_count c - length winners)%nat /\
    prizes c' = prizes c /\ type c' = type c /\ status c' = status c.
Proof. exact (runLaterLottery_exact s campaignId c rnd). Qed.

(** X8.  Nothing records that a later lottery was drawn: a second call
    draws again among those who have not won, so that two calls made one
    after the other, each awaited, on a later lottery whose quantities are
    integers award up to twice the prizes, exactly
    [min (2 * prizes) eligible]. *)
Theorem runLaterLottery_twice s campaignId c rnd rnd' :
  s !! campaignId = Some c -> type c = later_lottery ->
  exists winners winners' s1 s2,
    runLaterLottery s campaignId rnd = (Returned winners, s1) /\
    runLaterLottery s1 campaignId rnd' = (Returned winners', s2) /\
    (length winners + length winners')%nat
    = Nat.min (2 * drawsFor (prizes c)) (eligible_count c).
Proof.
  intros Hc Hty.
  destruct (runLaterLottery_exact s campaignId c rnd Hc Hty)
    as (ws & c1 & Hrun & Hlen & _ & Hel & Hps & Hty1 & _).
  destruct (runLaterLottery_exact (<[campaignId := c1]> s) campaignId c1 rnd'
              (lookup_insert_eq _ _ _)) as (ws' & c2 & Hrun' & Hlen' & _);
    [congruence|].
  exists ws, ws', (<[campaignId := c1]> s),
         (<[campaignId := c2]> (<[campaignId := c1]> s)).
  split; [done|]. split; [done|].
  rewrite Hlen', Hps, Hel, Hlen. lia.
Qed.

(** *** The theorems at concrete inputs *)

(** Alice enters campaign c1; a campaign c2 is not touched. *)
Lemma exec_other_campaign_witness :
  let s := run (Examples.started instant_web 1 None) in
  exec s Examples.alice_enters !! "c2" = s !! "c2".
Proof. apply exec_other_campaign. simpl. discriminate. Defined.

(** An instant lottery through an entry and its end. *)
Lemma campaign_evolves_witness :
  let s := run (Examples.started instant_web 1 (Some 100%Q)) in
  let ops := [Examples.alice_enters; EndCampaign "c1" 9] in
  exists c c',
    s !! "c1" = Some c /\ fold_left exec ops s !! "c1" = Some c' /\
    evolves c c'.
Proof.
  cbv zeta.
  assert (H : forall (s : store) ops c,
            s !! "c1" = Some c ->
            Forall (fun o => ~ creates o "c1") ops ->
            exists c c', s !! "c1" = Some c /\
              fold_left exec ops s !! "c1" = Some c' /\ evolves c c').
  { intros s ops c Hc Hops.
    destruct (campaign_evolves ops s "c1" c Hc) as [_ Hev].
    destruct (Hev Hops) as (c' & ? & ?). eauto. }
  eapply H.
  - vm_compute. reflexivity.
  - repeat constructor; simpl; tauto.
Defined.

(** The one prize of an instant lottery went to alice; bob enters next and
    is stored as a participant who has not won, beside the prize that has
    nothing remaining. *)
Lemma enterCampaign_outcome_witness :
  let s := run (Examples.started instant_web 1 (Some 100%Q)
                ++ [Examples.alice_enters]) in
  let r := enterCampaign s "c1" Examples.bob 3
             Examples.draw_005 Examples.draw_005 in
  exists c c',
    s !! "c1" = Some c /\
    r.1 = Returned true /\
    r.2 !! "c1" = Some c' /\
    participants c' = participants c ++ [new_participant Examples.bob 3] /\
    prizes c' = prizes c.
Proof.
  cbv zeta.
  assert (H : forall (s : store) c,
            s !! "c1" = Some c -> status c = active ->
            ~ already_entered c Examples.bob ->
            Forall (fun p => remaining p <= 0) (prizes c) ->
            exists c c',
              s !! "c1" = Some c /\
              (enterCampaign s "c1" Examples.bob 3
                 Examples.draw_005 Examples.draw_005).1 = Returned true /\
              (enterCampaign s "c1" Examples.bob 3
                 Examples.draw_005 Examples.draw_005).2 !! "c1" = Some c' /\
              participants c'
              = participants c ++ [new_participant Examples.bob 3] /\
              prizes c' = prizes c).
  { intros s c Hc Hact Hnew Hnone.
    destruct (enterCampaign_outcome s "c1" c Examples.bob 3
                Examples.draw_005 Examples.draw_005 Hc Hact Hnew)
      as [_ Hloss].
    rewrite Hloss by (by right). simpl. rewrite lookup_insert_eq.
    eexists _, _. split; [done|]. split; [done|]. split; [done|]. done. }
  eapply H.
  - vm_compute. reflexivity.
  - reflexivity.
  - intros (p & Hp & Hid). vm_compute in Hp.
    apply list_elem_of_singleton in Hp. subst p. discriminate.
  - repeat constructor. simpl. lia.
Defined.

(** Alice has won the prize of an instant lottery. *)
Lemma winner_holds_a_prize_witness :
  let ops := Examples.started instant_web 1 (Some 100%Q)
             ++ [Examples.alice_enters] in
  exists c q,
    run ops !! "c1" = Some c /\ participants c = [q] /\
    (won q = true <-> is_Some (prizeId q)).
Proof.
  cbv zeta.
  assert (H : forall ops c q,
            run ops !! "c1" = Some c -> participants c = [q] ->
            exists c q, run ops !! "c1" = Some c /\ participants c = [q] /\
                        (won q = true <-> is_Some (prizeId q))).
  { intros ops c q Hc Hq. exists c, q. split; [done|]. split; [done|].
    apply (winner_holds_a_prize ops "c1" c q Hc).
    rewrite Hq. apply list_elem_of_here. }
  eapply H; vm_compute; reflexivity.
Defined.

(** The statistics after alice has won. *)
Lemma prizes_distributed_agree_witness :
  let ops := Examples.started instant_web 1 (Some 100%Q)
             ++ [Examples.alice_enters] in
  exists stats,
    getCampaignStats (run ops) "c1" = Some stats /\
    stats_prizesDistributed stats = stats_totalWinners stats.
Proof.
  cbv zeta.
  assert (H : forall ops c stats,
            Forall well_labelled ops ->
            run ops !! "c1" = Some c -> is_instant (type c) = true ->
            getCampaignStats (run ops) "c1" = Some stats ->
            exists stats, getCampaignStats (run ops) "c1" = Some stats /\
              stats_prizesDistributed stats = stats_totalWinners stats).
  { intros ops c stats Hops Hc Hty Hstats. exists stats. split; [done|].
    pose proof (prizes_distributed_agree ops "c1" c stats Hops Hc Hstats) as H.
    by rewrite Hty in H. }
  eapply H.
  - repeat constructor.
  - vm_compute. reflexivity.
  - reflexivity.
  - vm_compute. reflexivity.
Defined.

(** A later lottery with one prize, drawn among alice and bob. *)
Lemma runLaterLottery_count_witness :
  let s := run (Examples.started later_lottery 1 None
                ++ [Examples.alice_enters; Examples.bob_enters]) in
  exists winners s',
    runLaterLottery s "c1" Examples.draws_005 = (Returned winners, s') /\
    length winners = 1%nat.
Proof.
  cbv zeta.
  assert (H : forall (s : store) c,
            s !! "c1" = Some c -> type c = later_lottery ->
            Nat.min (drawsFor (prizes c)) (eligible_count c) = 1%nat ->
            exists winners s',
              runLaterLottery s "c1" Examples.draws_005
                = (Returned winners, s') /\ length winners = 1%nat).
  { intros s c Hc Hty Hmin.
    destruct (runLaterLottery_count s "c1" c Examples.draws_005 Hc Hty)
      as (ws & c' & Hrun & Hlen & _).
    exists ws, (<["c1" := c']> s). split; [done | congruence]. }
  eapply H.
  - vm_compute. reflexivity.
  - reflexivity.
  - vm_compute. reflexivity.
Defined.

(** The same lottery drawn twice: both alice and bob win the one prize. *)
Lemma runLaterLottery_twice_witness :
  let s := run (Examples.started later_lottery 1 None
                ++ [Examples.alice_enters; Examples.bob_enters]) in
  exists winners winners' s1 s2,
    runLaterLottery s "c1" Examples.draws_005 = (Returned winners, s1) /\
    runLaterLottery s1 "c1" Examples.draws_005 = (Returned winners', s2) /\
    (length winners + length winners')%nat = 2%nat.
Proof.
  cbv zeta.
  assert (H : forall (s : store) c,
            s !! "c1" = Some c -> type c = later_lottery ->
            Nat.min (2 * drawsFor (prizes c)) (eligible_count c) = 2%nat ->
            exists winners winners' s1 s2,
              runLaterLottery s "c1" Examples.draws_005
                = (Returned winners, s1) /\
              runLaterLottery s1 "c1" Examples.draws_005
                = (Returned winners', s2) /\
              (length winners + length winners')%nat = 2%nat).
  { intros s c Hc Hty Hmin.
    destruct (runLaterLottery_twice s "c1" c Examples.draws_005
                Examples.draws_005 Hc Hty)
      as (ws & ws' & s1 & s2 & ? & ? & Hlen).
    exists ws, ws', s1, s2. split; [done|]. split; [done | congruence]. }
  eapply H.
  - vm_compute. reflexivity.
  - reflexivity.
  - vm_compute. reflexivity.
Defined.

End CampaignExtras.

(** ** The post scheduler: states, timers and queries *)

Module SchedulerExtras.
Import Scheduler SchedulerTheory.

(** *** The map of posts *)

Lemma map_get_Some k r (m : PostMap) : map_get k m = Some r -> (k, r) ∈ m.
Proof.
  induction m as [|[k' v'] m IH]; simpl; [done|].
  destruct (decide (k' = k)) as [->|Hne].
  - intros [= ->]. apply list_elem_of_here.
  - intros H. right. by apply IH.
Qed.

Lemma map_get_None k (m : PostMap) : map_get k m = None <-> k ∉ m.*1.
Proof.
  induction m as [|[k' v'] m IH]; simpl.
  - split; [intros _ H; inversion H | done].
  - rewrite not_elem_of_cons. destruct (decide (k' = k)) as [->|Hne].
    + split; [done | by intros [? _]].
    + rewrite IH. split; [by split | by intros [_ ?]].
Qed.

Lemma map_get_elem k r (m : PostMap) :
  NoDup m.*1 -> (k, r) ∈ m -> map_get k m = Some r.
Proof.
  induction m as [|[k' v'] m IH]; simpl; intros Hnd Hin.
  { inversion Hin. }
  apply NoDup_cons in Hnd as [Hk' Hnd].
  apply elem_of_cons in Hin as [[= <- <-]|Hin].
  - by rewrite decide_True.
  - rewrite decide_False; [by apply IH|].
    intros ->. apply Hk'. apply list_elem_of_fmap. by exists (k, r).
Qed.

Lemma elem_of_map_set_inv k v k' r' (m : PostMap) :
  (k', r') ∈ map_set k v m -> (k' = k /\ r' = v) \/ (k', r') ∈ m.
Proof.
  induction m as [|[k0 v0] m IH]; simpl.
  - intros H. apply list_elem_of_singleton in H as [= -> ->]. by left.
  - destruct (decide (k0 = k)) as [->|Hne]; intros H;
      apply elem_of_cons in H as [[= -> ->]|H].
    + by left.
    + right. by right.
    + right. apply list_elem_of_here.
    + destruct (IH H) as [?|?]; [by left | right; by right].
Qed.

Lemma keys_map_set_in k v (m : PostMap) :
  k ∈ m.*1 -> (map_set k v m).*1 = m.*1.
Proof.
  induction m as [|[k0 v0] m IH]; simpl; intros Hin.
  { inversion Hin. }
  destruct (decide (k0 = k)) as [->|Hne]; simpl; [done|].
  apply elem_of_cons in Hin as [->|Hin]; [done|]. f_equal. by apply IH.
Qed.

Lemma keys_map_set_notin k v (m : PostMap) :
  k ∉ m.*1 -> (map_set k v m).*1 = m.*1 ++ [k].
Proof.
  induction m as [|[k0 v0] m IH]; simpl; intros Hin; [done|].
  apply not_elem_of_cons in Hin as [Hne Hin].
  rewrite decide_False by done. simpl. f_equal. by apply IH.
Qed.

Lemma NoDup_map_set k v (m : PostMap) :
  NoDup m.*1 -> NoDup (map_set k v m).*1.
Proof.
  intros Hnd. destruct (decide (k ∈ m.*1)) as [Hin|Hin].
  - by rewrite keys_map_set_in.
  - rewrite keys_map_set_notin by done.
    apply NoDup_app. split; [done|]. split; [|apply NoDup_singleton].
    intros x Hx Hx'. apply list_elem_of_singleton in Hx'. by subst.
Qed.

Lemma map_delete_sublist k (m : PostMap) : map_delete k m `sublist_of` m.
Proof.
  induction m as [|[k0 v0] m IH]; simpl; [done|].
  destruct (decide (k0 = k)); [by apply sublist_cons | by apply sublist_skip].
Qed.

Lemma map_get_delete_eq k (m : PostMap) :
  NoDup m.*1 -> map_get k (map_delete k m) = None.
Proof.
  induction m as [|[k0 v0] m IH]; simpl; intros Hnd; [done|].
  apply NoDup_cons in Hnd as [Hk0 Hnd].
  destruct (decide (k0 = k)) as [->|Hne].
  - by apply map_get_None.
  - simpl. rewrite decide_False by done. by apply IH.
Qed.

Lemma map_get_delete_ne k k' (m : PostMap) :
  k <> k' -> map_get k' (map_delete k m) = map_get k' m.
Proof.
  intros Hne. induction m as [|[k0 v0] m IH]; simpl; [done|].
  destruct (decide (k0 = k)) as [->|Hk0]; simpl.
  - by rewrite decide_False.
  - by rewrite IH.
Qed.

(** *** Every state of the service is well formed *)

Lemma wf_initial : wf initial.
Proof.
  split; simpl; try (intros; lia).
  - constructor.
  - intros k r H. inversion H.
  - intros k r H. inversion H.
  - intros id h H. by rewrite lookup_empty in H.
  - intros h [t H]. by rewrite lookup_empty in H.
Qed.

Lemma wf_executePost s postId : wf s -> wf (executePost s postId).
Proof.
  intros [Hk Hr Hp Ho Ht Hto]. unfold executePost.
  destruct (map_get postId (scheduledPosts s)) as [ref|] eqn:Hget;
    [|by split].
  split; simpl; try done.
  intros k r Hin. apply elem_of_app in Hin as [Hin|Hin]; [eauto|].
  apply list_elem_of_singleton in Hin as [= -> ->].
  eapply Hr, map_get_Some, Hget.
Qed.

Lemma wf_setupTimer s post now : wf s -> wf (setupTimer s post now).
Proof.
  intros Hwf. unfold setupTimer.
  destruct (_ <=? 0); [by apply wf_executePost|].
  destruct Hwf as [Hk Hr Hp Ho Ht Hto]. split; simpl; try done.
  - intros id h. rewrite lookup_insert. case_decide.
    + intros [= <-]. lia.
    + intros H'. apply Ht in H'. lia.
  - intros h. rewrite lookup_insert. case_decide; [subst; lia|].
    intros H'. apply Hto in H'. lia.
Qed.

Lemma wf_cancelTimer s id : wf s -> wf (cancelTimer s id).
Proof.
  intros [Hk Hr Hp Ho Ht Hto]. unfold cancelTimer.
  destruct (timers s !! id) as [h|] eqn:Hh; [|by split].
  split; simpl; try done.
  - intros id' h'. rewrite lookup_delete. case_decide; [done|]. apply Ht.
  - intros h'. rewrite lookup_delete. case_decide; [by intros [? ?]|].
    apply Hto.
Qed.

(** A new object is made and put in the map under [k]. *)
Lemma wf_store s k post :
  wf s ->
  wf {| objects := <[nextRef s := post]> (objects s);
        nextRef := S (nextRef s);
        scheduledPosts := map_set k (nextRef s) (scheduledPosts s);
        timers := timers s; isRunning := isRunning s;
        timeouts := timeouts s; nextHandle := nextHandle s;
        publishing := publishing s |}.
Proof.
  intros [Hk Hr Hp Ho Ht Hto]. split; simpl; try done.
  - by apply NoDup_map_set.
  - intros k' r Hin. apply elem_of_map_set_inv in Hin as [[_ ->]|Hin];
      [lia|]. apply Hr in Hin. lia.
  - intros k' r Hin. apply Hp in Hin. lia.
  - intros r Hlt. rewrite lookup_insert. case_decide; [eauto|].
    apply Ho. lia.
Qed.

(** The object [ref], already there, is changed in place and put back in
    the map under [k]. *)
Lemma wf_restore s k ref (f : ScheduledPost -> ScheduledPost) :
  wf s -> (ref < nextRef s)%nat ->
  wf {| objects := alter f ref (objects s);
        nextRef := nextRef s;
        scheduledPosts := map_set k ref (scheduledPosts s);
        timers := timers s; isRunning := isRunning s;
        timeouts := timeouts s; nextHandle := nextHandle s;
        publishing := publishing s |}.
Proof.
  intros [Hk Hr Hp Ho Ht Hto] Href. split; simpl; try done.
  - by apply NoDup_map_set.
  - intros k' r Hin. apply elem_of_map_set_inv in Hin as [[_ ->]|Hin]; eauto.
  - intros r Hlt. rewrite lookup_alter. case_decide; [subst|]; [|eauto].
    destruct (Ho r Hlt) as [x ->]. eauto.
Qed.

Lemma wf_resumeExecutePost s k published :
  wf s -> wf (resumeExecutePost s k published).
Proof.
  intros Hwf. unfold resumeExecutePost.
  destruct (publishing s !! k) as [[postId ref]|] eqn:Hk; [|done].
  assert (Href : (ref < nextRef s)%nat).
  { eapply (wf_publishing _ Hwf), list_elem_of_lookup_2, Hk. }
  pose proof (wf_restore s postId ref
                (set_status (if published then posted else failed)) Hwf Href)
    as [Hk' Hr Hp Ho Ht Hto].
  split; simpl in *; try done.
  - intros k' r Hin. eapply Hp, list_elem_of_delete_inv, Hin.
  - intros id h. rewrite lookup_delete. case_decide; [done|]. apply Ht.
Qed.

Lemma wf_sweepPost now now' s ref : wf s -> wf (sweepPost now now' s ref).
Proof.
  intros Hwf. unfold sweepPost. destruct (objects s !! ref); [|done].
  destruct (_ && _); [by apply wf_executePost|].
  destruct (_ && _); [by apply wf_setupTimer | done].
Qed.

Lemma wf_sweepPosts now clock k s refs :
  wf s -> wf (sweepPosts now clock k s refs).
Proof.
  revert k s. induction refs as [|ref refs IH]; intros k s Hwf; simpl;
    [done|].
  by apply IH, wf_sweepPost.
Qed.

Lemma wf_checkScheduledPosts s now clock :
  wf s -> wf (checkScheduledPosts s now clock).
Proof.
  intros Hwf. unfold checkScheduledPosts. destruct (negb _); [done|].
  destruct (wf_sweepPosts now clock 0 s (pendingPosts s) Hwf)
    as [Hk Hr Hp Ho Ht Hto].
  split; simpl; try done.
  - intros id h H'. apply Ht in H'. lia.
  - intros h. rewrite lookup_insert. case_decide; [subst; lia|].
    intros H'. apply Hto in H'. lia.
Qed.

(** What [stop] leaves of the armed timeouts: those that are the timeout of
    no timer. *)
Lemma stop_timeouts_lookup (tm : gmap string nat) (to : gmap nat Timeout) h :
  ((exists id, tm !! id = Some h) ->
   map_fold (fun _ h acc => delete h acc) to tm !! h = None) /\
  ((forall id, tm !! id <> Some h) ->
   map_fold (fun _ h acc => delete h acc) to tm !! h = to !! h).
Proof.
  apply (map_fold_weak_ind
    (fun (r : gmap nat Timeout) (m : gmap string nat) =>
       ((exists id, m !! id = Some h) -> r !! h = None) /\
       ((forall id, m !! id <> Some h) -> r !! h = to !! h))).
  - split; [|done]. intros [id Hid]. by rewrite lookup_empty in Hid.
  - intros id h' m r Hfresh [IH1 IH2]. split.
    + intros [id' Hid']. rewrite lookup_delete.
      destruct (decide (h' = h)) as [->|Hh]; [done|].
      apply IH1. exists id'.
      destruct (decide (id = id')) as [->|Hne].
      * rewrite lookup_insert_eq in Hid'. congruence.
      * by rewrite lookup_insert_ne in Hid'.
    + intros Hnone. rewrite lookup_delete.
      destruct (decide (h' = h)) as [->|Hh].
      * specialize (Hnone id). by rewrite lookup_insert_eq in Hnone.
      * apply IH2. intros id' Hid'. apply (Hnone id').
        rewrite lookup_insert_ne; [done|]. congruence.
Qed.

Lemma stop_timeouts_subset (tm : gmap string nat) (to : gmap nat Timeout) h :
  is_Some (map_fold (fun _ h acc => delete h acc) to tm !! h) ->
  is_Some (to !! h).
Proof.
  apply (map_fold_weak_ind
    (fun (r : gmap nat Timeout) (m : gmap string nat) =>
       is_Some (r !! h) -> is_Some (to !! h))); [done|].
  intros id h' m r _ IH. rewrite lookup_delete.
  case_decide; [by intros [? ?] | done].
Qed.

Lemma wf_stop s : wf s -> wf (stop s).
Proof.
  intros [Hk Hr Hp Ho Ht Hto]. unfold stop. destruct (negb _); [by split|].
  split; simpl; try done.
  intros h H'. by apply Hto, (stop_timeouts_subset (timers s)).
Qed.

Lemma wf_start s now clock : wf s -> wf (start s now clock).
Proof.
  intros Hwf. unfold start. destruct (isRunning s); [done|].
  apply wf_checkScheduledPosts. by destruct Hwf.
Qed.

Lemma wf_schedulePost s newId txt at_ media created now now' :
  wf s -> wf (schedulePost s newId txt at_ media created now now').2.
Proof.
  intros Hwf. unfold schedulePost. simpl.
  destruct (_ && _); [apply wf_setupTimer|]; by apply wf_store.
Qed.

Lemma wf_updateScheduledPost s id updates now now' :
  wf s -> wf (updateScheduledPost s id updates now now').2.
Proof.
  intros Hwf. unfold updateScheduledPost.
  destruct (getScheduledPost s id) as [post|]; [|done].
  destruct (negb _); [done|]. simpl.
  destruct (_ && _); [apply wf_setupTimer|];
    by apply (wf_store (cancelTimer s id)), wf_cancelTimer.
Qed.

Lemma wf_deleteScheduledPost s id : wf s -> wf (deleteScheduledPost s id).2.
Proof.
  intros Hwf. unfold deleteScheduledPost.
  destruct (getScheduledPost s id) as [post|]; [|done].
  destruct (negb _); [done|]. simpl.
  destruct (wf_cancelTimer s id Hwf) as [Hk Hr Hp Ho Ht Hto].
  split; simpl; try done.
  - eapply sublist_NoDup; [exact Hk|].
    apply fmap_sublist, map_delete_sublist.
  - intros k r Hin. eapply Hr, elem_of_sublist; [exact Hin|].
    apply map_delete_sublist.
Qed.

Lemma wf_retryPost s postId now : wf s -> wf (retryPost s postId now).2.
Proof.
  intros Hwf. unfold retryPost.
  destruct (map_get postId (scheduledPosts s)) as [ref|] eqn:Hget; [|done].
  destruct (objects s !! ref); [|done]. destruct (negb _); [done|]. simpl.
  assert (Href : (ref < nextRef s)%nat).
  { eapply (wf_refs _ Hwf), map_get_Some, Hget. }
  pose proof (wf_restore s postId ref
                (fun p => set_scheduledAt now (set_status pending p))
                Hwf Href) as Hs1.
  destruct (isRunning s); [apply wf_executePost|]; exact Hs1.
Qed.

Lemma wf_fireTimeout s h now clock : wf s -> wf (fireTimeout s h now clock).
Proof.
  intros Hwf. unfold fireTimeout. destruct (timeouts s !! h) as [t|]; [|done].
  assert (Hwf' : wf {| objects := objects s; nextRef := nextRef s;
                       scheduledPosts := scheduledPosts s;
                       timers := timers s; isRunning := isRunning s;
                       timeouts := delete h (timeouts s);
                       nextHandle := nextHandle s;
                       publishing := publishing s |}).
  { destruct Hwf as [Hk Hr Hp Ho Ht Hto]. split; simpl; try done.
    intros h'. rewrite lookup_delete. case_decide; [by intros [? ?]|].
    apply Hto. }
  destruct (timeout_callback t);
    [by apply wf_executePost | by apply wf_checkScheduledPosts].
Qed.

Lemma wf_perform s a : wf s -> wf (perform s a).
Proof.
  intros Hwf. destruct a; simpl.
  - by apply wf_start.
  - by apply wf_stop.
  - by apply wf_schedulePost.
  - by apply wf_updateScheduledPost.
  - by apply wf_deleteScheduledPost.
  - by apply wf_retryPost.
  - by apply wf_fireTimeout.
  - by apply wf_resumeExecutePost.
Qed.

Lemma wf_fold acts s : wf s -> wf (fold_left perform acts s).
Proof.
  revert s. induction acts as [|a acts IH]; intros s Hwf; simpl; [done|].
  by apply IH, wf_perform.
Qed.

Lemma wf_runs acts : wf (runs acts).
Proof. apply wf_fold, wf_initial. Qed.

(** *** Scheduling, the timer and the publication *)

Lemma getScheduledPost_setupTimer s post now id :
  getScheduledPost (setupTimer s post now) id = getScheduledPost s id.
Proof.
  unfold getScheduledPost.
  destruct (setupTimer_frame s post now) as (-> & -> & _). done.
Qed.

Lemma delete_last {A} (l : list A) x : delete (length l) (l ++ [x]) = l.
Proof. induction l as [|y l IH]; simpl; [done | by rewrite IH]. Qed.

(** X9.  [schedulePost] returns a pending post with the id, text, time and
    media given, which [getScheduledPost] finds under its id; every other
    post is as before. *)
Theorem schedulePost_stores s newId txt at_ media created now now' :
  wf s ->
  let post := (schedulePost s newId txt at_ media created now now').1 in
  let s1 := (schedulePost s newId txt at_ media created now now').2 in
  post = {| post_id := newId; text := txt; scheduledAt := at_;
            status := pending; mediaUrls := media; createdAt := created |} /\
  getScheduledPost s1 newId = Some post /\
  forall id, id <> newId -> getScheduledPost s1 id = getScheduledPost s id.
Proof.
  intros Hwf. unfold schedulePost. simpl.
  set (post := {| post_id := newId |}).
  set (s1 := {| objects := _ |}).
  assert (H1 : getScheduledPost s1 newId = Some post).
  { unfold getScheduledPost. simpl. by rewrite map_get_set_eq, lookup_insert_eq. }
  assert (H2 : forall id, id <> newId ->
                 getScheduledPost s1 id = getScheduledPost s id).
  { intros id Hne. unfold getScheduledPost. simpl.
    rewrite map_get_set_ne by done.
    destruct (map_get id (scheduledPosts s)) as [r|] eqn:Hr; [|done].
    rewrite lookup_insert_ne; [done|].
    apply map_get_Some, (wf_refs _ Hwf) in Hr. lia. }
  split; [done|].
  destruct (_ && _); [|done].
  split; [by rewrite getScheduledPost_setupTimer|].
  intros id Hne. rewrite getScheduledPost_setupTimer. by apply H2.
Qed.

(** The delay that the runtime arms for a delay asked of it. *)
Lemma setTimeout_delay_within ms :
  1 <= ms <= TIMEOUT_MAX -> setTimeout_delay ms = ms.
Proof.
  intros [H1 H2]. unfold setTimeout_delay.
  assert ((1 <=? ms) = true) as -> by by apply Z.leb_le.
  assert ((ms <=? TIMEOUT_MAX) = true) as -> by by apply Z.leb_le.
  done.
Qed.

Lemma setTimeout_delay_above ms :
  TIMEOUT_MAX < ms -> setTimeout_delay ms = 1.
Proof.
  intros H. unfold setTimeout_delay.
  assert ((ms <=? TIMEOUT_MAX) = false) as -> by by apply Z.leb_gt.
  by rewrite andb_false_r.
Qed.

(** X10.  The life of a post scheduled for a time ahead of both readings of
    the clock, on a running scheduler: [schedulePost] arms one timeout for
    [executePost] of the new id, registers it under the id and starts no
    publication.  The delay armed is the one that the runtime makes of the
    time left: the time left itself when that is at most 2^31 - 1
    milliseconds, one millisecond when it is more.  When the timeout fires
    the publication starts; when it settles the post is [posted] or
    [failed], under its id, and the id has no timer any more. *)
Theorem scheduled_post_lifecycle
    s newId txt at_ media created now now' t clock published :
  isRunning s = true -> now < at_ -> now' < at_ ->
  let post := (schedulePost s newId txt at_ media created now now').1 in
  let s1 := (schedulePost s newId txt at_ media created now now').2 in
  let h := nextHandle s in
  let s2 := fireTimeout s1 h t clock in
  let s3 := resumeExecutePost s2 (length (publishing s)) published in
  timers s1 !! newId = Some h /\
  timeouts s1 !! h
    = Some {| timeout_delay := setTimeout_delay (at_ - now');
              timeout_callback := CallExecutePost newId |} /\
  (at_ - now' <= TIMEOUT_MAX -> setTimeout_delay (at_ - now') = at_ - now') /\
  (TIMEOUT_MAX < at_ - now' -> setTimeout_delay (at_ - now') = 1) /\
  publishing s1 = publishing s /\
  timeouts s2 !! h = None /\
  publishing s2 = publishing s ++ [(newId, nextRef s)] /\
  getScheduledPost s3 newId
    = Some (set_status (if published then posted else failed) post) /\
  timers s3 !! newId = None /\
  publishing s3 = publishing s.
Proof.
  intros Hrun Hlt Hlt'. unfold schedulePost. simpl.
  rewrite Hrun. simpl.
  assert ((now <? at_) = true) as -> by by apply Z.ltb_lt.
  unfold setupTimer. simpl.
  assert ((at_ - now' <=? 0) = false) as -> by (apply Z.leb_gt; lia).
  simpl. rewrite !lookup_insert_eq.
  split; [done|]. split; [done|].
  split; [intros Hmax; apply setTimeout_delay_within; lia|].
  split; [apply setTimeout_delay_above|].
  split; [done|].
  unfold fireTimeout. simpl. rewrite lookup_insert_eq. simpl.
  unfold executePost. simpl. rewrite map_get_set_eq. simpl.
  rewrite lookup_delete_eq.
  split; [done|]. split; [done|].
  unfold resumeExecutePost, getScheduledPost. simpl.
  rewrite lookup_app_r, Nat.sub_diag by done. simpl.
  rewrite map_get_set_eq, lookup_alter_eq, lookup_insert_eq, lookup_delete_eq.
  split; [done|]. split; [done|].
  apply delete_last.
Qed.

(** *** Deleting and re-arming *)

Lemma cancelTimer_timeouts s id h :
  wf s -> timers s !! id = Some h -> timeouts (cancelTimer s id) !! h = None.
Proof.
  intros _ Hh. unfold cancelTimer. rewrite Hh. simpl. apply lookup_delete_eq.
Qed.

Lemma cancelTimer_other s id id' :
  id <> id' -> timers (cancelTimer s id) !! id' = timers s !! id'.
Proof.
  intros Hne. unfold cancelTimer. destruct (timers s !! id); [|done].
  simpl. by rewrite lookup_delete_ne.
Qed.

(** What [deleteScheduledPost] does, by the state of the post. *)
Lemma deleteScheduledPost_cases s id :
  wf s ->
  match getScheduledPost s id with
  | None => deleteScheduledPost s id = (false, s)
  | Some post =>
      if decide (status post = pending) then
        let s' := (deleteScheduledPost s id).2 in
        (deleteScheduledPost s id).1 = true /\
        getScheduledPost s' id = None /\
        timers s' !! id = None /\
        (forall h, timers s !! id = Some h -> timeouts s' !! h = None) /\
        (forall id', id' <> id ->
           getScheduledPost s' id' = getScheduledPost s id' /\
           timers s' !! id' = timers s !! id') /\
        publishing s' = publishing s
      else deleteScheduledPost s id = (false, s)
  end.
Proof.
  intros Hwf. unfold deleteScheduledPost.
  destruct (getScheduledPost s id) as [post|] eqn:Hget; [|done].
  destruct (decide (status post = pending)) as [Hst|Hst].
  2: { by rewrite bool_decide_eq_false_2. }
  rewrite bool_decide_eq_true_2 by done. simpl.
  destruct (cancelTimer_frame s id) as (Hobj & Href & Hmap & _ & Hpub & Htim).
  split; [done|]. unfold getScheduledPost. simpl. rewrite Hmap, Hobj.
  split; [|split; [done|split; [|split; [|done]]]].
  - rewrite map_get_delete_eq; [done | apply (wf_keys _ Hwf)].
  - intros h Hh. by apply cancelTimer_timeouts.
  - intros id' Hne. rewrite map_get_delete_ne by done.
    split; [done|]. by apply cancelTimer_other.
Qed.

(** X11.  [deleteScheduledPost] refuses (returns [false], changes nothing)
    when the id is unknown or the post is not pending.  Otherwise the post
    is gone, its timer and the timeout of that timer too; the other posts,
    the other timers and the publications under way are as before. *)
Theorem deleteScheduledPost_removes s id :
  wf s ->
  match getScheduledPost s id with
  | None => deleteScheduledPost s id = (false, s)
  | Some post =>
      if decide (status post = pending) then
        let s' := (deleteScheduledPost s id).2 in
        (deleteScheduledPost s id).1 = true /\
        getScheduledPost s' id = None /\
        timers s' !! id = None /\
        (forall h, timers s !! id = Some h -> timeouts s' !! h = None) /\
        (forall id', id' <> id ->
           getScheduledPost s' id' = getScheduledPost s id' /\
           timers s' !! id' = timers s !! id') /\
        publishing s' = publishing s
      else deleteScheduledPost s id = (false, s)
  end.
Proof. exact (deleteScheduledPost_cases s id). Qed.

Lemma cancelTimer_timers s id :
  timers (cancelTimer s id) = delete id (timers s).
Proof.
  unfold cancelTimer. destruct (timers s !! id) as [h|] eqn:Hh; [done|].
  symmetry. by apply delete_id.
Qed.

(** X12.  Updating the time of a pending post on a running scheduler, to a
    time ahead of both readings of the clock, re-arms a timer: the timer
    registered under the key of the call is forgotten and its timeout
    disarmed; one timeout for [executePost] of the id field of the updated
    post is armed and registered under that id field, which is the key
    unless the post carried another id or the updates carry one; no other
    timer and no other timeout changes, and no publication starts.  The
    delay armed is the one that the runtime makes of the time left: the time
    left itself when that is at most 2^31 - 1 milliseconds, one millisecond
    when it is more. *)
Theorem updateScheduledPost_rearms s id post updates t now now' :
  wf s ->
  getScheduledPost s id = Some post -> status post = pending ->
  upd_scheduledAt updates = Some t ->
  isRunning s = true -> now < t -> now' < t ->
  let s' := (updateScheduledPost s id updates now now').2 in
  let pid := default (post_id post) (upd_id updates) in
  let h := nextHandle s in
  timers s' = <[pid := h]> (delete id (timers s)) /\
  timeouts s' !! h
    = Some {| timeout_delay := setTimeout_delay (t - now');
              timeout_callback := CallExecutePost pid |} /\
  (t - now' <= TIMEOUT_MAX -> setTimeout_delay (t - now') = t - now') /\
  (TIMEOUT_MAX < t - now' -> setTimeout_delay (t - now') = 1) /\
  (forall h', timers s !! id = Some h' -> timeouts s' !! h' = None) /\
  (forall h', (forall h'', timers s !! id = Some h'' -> h' <> h'') ->
              h' <> h -> timeouts s' !! h' = timeouts s !! h') /\
  publishing s' = publishing s.
Proof.
  intros Hwf Hget Hst Hut Hrun Hlt Hlt'.
  unfold updateScheduledPost. rewrite Hget, Hrun.
  rewrite bool_decide_eq_true_2 by done. simpl.
  rewrite Hut. simpl.
  assert ((now <? t) = true) as -> by by apply Z.ltb_lt.
  unfold setupTimer. simpl. rewrite Hut. simpl.
  assert ((t - now' <=? 0) = false) as -> by (apply Z.leb_gt; lia).
  simpl.
  assert (Hnh : nextHandle (cancelTimer s id) = nextHandle s)
    by (unfold cancelTimer; by destruct (timers s !! id)).
  assert (Hpub : publishing (cancelTimer s id) = publishing s)
    by (unfold cancelTimer; by destruct (timers s !! id)).
  rewrite Hnh, cancelTimer_timers, !lookup_insert_eq.
  split; [done|]. split; [done|].
  split; [intros Hmax; apply setTimeout_delay_within; lia|].
  split; [apply setTimeout_delay_above|].
  split; [|split; [|done]].
  - intros h' Hh. rewrite lookup_insert_ne.
    + by apply cancelTimer_timeouts.
    + apply (wf_timers _ Hwf) in Hh. lia.
  - intros h' Hold Hnew. rewrite lookup_insert_ne by done.
    unfold cancelTimer. destruct (timers s !! id) as [h''|] eqn:Hh'; [|done].
    simpl. rewrite lookup_delete_ne; [done|]. intros ->. by apply (Hold h').
Qed.

(** *** Stopping and starting *)

(** X13.  [stop] on a stopped scheduler does nothing.  On a running one it
    forgets all timers and disarms their timeouts, and touches nothing
    else: the posts and the publications under way are as before, and so is
    every timeout that is not the timeout of a timer, the timeout of the
    sweep among them.  When that one fires on the stopped scheduler it is
    consumed and nothing is armed again. *)
Theorem stop_disarms_timers s :
  (isRunning s = false -> stop s = s) /\
  (isRunning s = true ->
   let s' := stop s in
   isRunning s' = false /\ timers s' = ∅ /\
   scheduledPosts s' = scheduledPosts s /\ objects s' = objects s /\
   publishing s' = publishing s /\
   (forall h, (exists id, timers s !! id = Some h) ->
              timeouts s' !! h = None) /\
   (forall h, (forall id, timers s !! id <> Some h) ->
              timeouts s' !! h = timeouts s !! h) /\
   (forall h t now clock,
      timeouts s' !! h = Some t ->
      timeout_callback t = CallCheckScheduledPosts ->
      timeouts (fireTimeout s' h now clock) = delete h (timeouts s') /\
      publishing (fireTimeout s' h now clock) = publishing s /\
      timers (fireTimeout s' h now clock) = ∅ /\
      isRunning (fireTimeout s' h now clock) = false)).
Proof.
  unfold stop. split; intros ->; simpl; [done|].
  do 5 (split; [done|]).
  split; [intros h; apply stop_timeouts_lookup|].
  split; [intros h; apply stop_timeouts_lookup|].
  intros h t now clock Ht Hcb. unfold fireTimeout. simpl.
  rewrite Ht, Hcb. done.
Qed.

Lemma sweepPost_frame now now' st ref :
  objects (sweepPost now now' st ref) = objects st /\
  scheduledPosts (sweepPost now now' st ref) = scheduledPosts st /\
  isRunning (sweepPost now now' st ref) = isRunning st /\
  (forall id, is_Some (timers st !! id) ->
              is_Some (timers (sweepPost now now' st ref) !! id)).
Proof.
  unfold sweepPost. destruct (objects st !! ref) as [q|]; [|done].
  destruct (_ && _).
  { destruct (executePost_frame st (post_id q)) as (-> & -> & -> & _ & -> & _).
    done. }
  destruct (_ && _); [|done].
  destruct (setupTimer_frame st q now') as (-> & -> & -> & _).
  do 3 (split; [done|]). intros id Hid. unfold setupTimer.
  destruct (_ <=? 0).
  - by destruct (executePost_frame st (post_id q)) as (_ & _ & -> & _).
  - simpl. rewrite lookup_insert. case_decide; [eauto | done].
Qed.

Lemma sweepPosts_frame now clock k st refs :
  objects (sweepPosts now clock k st refs) = objects st /\
  scheduledPosts (sweepPosts now clock k st refs) = scheduledPosts st /\
  isRunning (sweepPosts now clock k st refs) = isRunning st /\
  (forall id, is_Some (timers st !! id) ->
              is_Some (timers (sweepPosts now clock k st refs) !! id)).
Proof.
  revert k st. induction refs as [|ref refs IH]; intros k st; simpl; [done|].
  destruct (IH (S k) (sweepPost now (clock k) st ref)) as (-> & -> & -> & Ht).
  destruct (sweepPost_frame now (clock k) st ref) as (-> & -> & -> & Ht').
  do 3 (split; [done|]). intros id Hid. by apply Ht, Ht'.
Qed.

(** The post object [r], stored under its own id, is taken care of by the
    iteration of the sweep that visits it. *)
Lemma sweepPost_covers now now' st r post :
  objects st !! r = Some post ->
  map_get (post_id post) (scheduledPosts st) = Some r ->
  is_Some (timers (sweepPost now now' st r) !! post_id post) \/
  (post_id post, r) ∈ publishing (sweepPost now now' st r).
Proof.
  intros Hobj Hkey. unfold sweepPost. rewrite Hobj.
  assert (Hexec : (post_id post, r)
                  ∈ publishing (executePost st (post_id post))).
  { unfold executePost. rewrite Hkey. simpl.
    apply elem_of_app. right. apply list_elem_of_here. }
  destruct (timers st !! post_id post) as [h|] eqn:Hh.
  { rewrite bool_decide_eq_true_2 by eauto. simpl. rewrite !andb_false_r.
    left. eauto. }
  rewrite bool_decide_eq_false_2 by (by intros [? ?]). simpl.
  rewrite !andb_true_r.
  destruct (scheduledAt post <=? now) eqn:Hdue; [by right|].
  apply Z.leb_gt in Hdue.
  assert ((now <? scheduledAt post) = true) as -> by by apply Z.ltb_lt.
  unfold setupTimer. destruct (_ <=? 0); [by right|].
  left. simpl. rewrite lookup_insert_eq. eauto.
Qed.

Lemma sweepPosts_covers now clock k st refs r post :
  r ∈ refs ->
  objects st !! r = Some post ->
  map_get (post_id post) (scheduledPosts st) = Some r ->
  is_Some (timers (sweepPosts now clock k st refs) !! post_id post) \/
  (post_id post, r) ∈ publishing (sweepPosts now clock k st refs).
Proof.
  revert k st. induction refs as [|ref refs IH]; intros k st Hr Hobj Hkey;
    simpl.
  { inversion Hr. }
  destruct (sweepPost_frame now (clock k) st ref) as (Ho & Hm & _ & _).
  destruct (decide (r ∈ refs)) as [Hin|Hnin].
  { apply IH; [done | by rewrite Ho | by rewrite Hm]. }
  apply elem_of_cons in Hr as [->|?]; [|done].
  destruct (sweepPost_covers now (clock k) st ref post Hobj Hkey) as [Ht|Hp].
  - left. by apply sweepPosts_frame.
  - right. by apply sweepPosts_publishing.
Qed.

(** X14.  [start] on a running scheduler does nothing.  On a stopped one it
    makes it running, sweeps and arms the next sweep, one minute later; the
    posts are as before, and every pending post that the map has under the
    post's own id has a timer or is being published. *)
Theorem start_sweeps s now clock :
  (isRunning s = true -> start s now clock = s) /\
  (isRunning s = false ->
   let s' := start s now clock in
   isRunning s' = true /\
   scheduledPosts s' = scheduledPosts s /\ objects s' = objects s /\
   (exists h, timeouts s' !! h
              = Some {| timeout_delay := 60000;
                        timeout_callback := CallCheckScheduledPosts |}) /\
   start s' now clock = s' /\
   (forall r post,
      map_get (post_id post) (scheduledPosts s) = Some r ->
      objects s !! r = Some post -> status post = pending ->
      is_Some (timers s' !! post_id post) \/
      (post_id post, r) ∈ publishing s')).
Proof.
  unfold start. split; intros Hrun; rewrite Hrun; [done|].
  unfold checkScheduledPosts. simpl.
  set (s0 := {| objects := objects s |}).
  destruct (sweepPosts_frame now clock 0 s0 (pendingPosts s0))
    as (Ho & Hm & Hr & _).
  rewrite Ho, Hm, Hr. simpl.
  do 3 (split; [done|]).
  split; [eexists; apply lookup_insert_eq|].
  split; [done|].
  intros r post Hkey Hobj Hst.
  apply (sweepPosts_covers now clock 0 s0 (pendingPosts s0) r post);
    [|done|done].
  unfold pendingPosts. apply list_elem_of_filter. split.
  - unfold is_pending. simpl. rewrite Hobj. by rewrite bool_decide_eq_true_2.
  - apply list_elem_of_fmap. exists (post_id post, r). split; [done|].
    by apply map_get_Some.
Qed.

(** *** Calls made while a publication is under way *)

(** X15.  A post that is being published is still pending, so it can be
    deleted or updated; but when the publication settles, the object that
    the suspended call holds is put back under the id.  A post deleted
    meanwhile is in the map again, and the updates made meanwhile are gone:
    the stored post is the post as it was when the publication started,
    with the final status. *)
Theorem settle_overrides s k id ref post updates now now' (published : bool) :
  wf s ->
  publishing s !! k = Some (id, ref) ->
  map_get id (scheduledPosts s) = Some ref ->
  objects s !! ref = Some post -> status post = pending ->
  let final := set_status (if published then posted else failed) post in
  let deleted := (deleteScheduledPost s id).2 in
  let updated := (updateScheduledPost s id updates now now').2 in
  (deleteScheduledPost s id).1 = true /\
  getScheduledPost deleted id = None /\
  getScheduledPost (resumeExecutePost deleted k published) id = Some final /\
  getScheduledPost updated id = Some (spread post updates) /\
  getScheduledPost (resumeExecutePost updated k published) id = Some final.
Proof.
  intros Hwf Hk Hkey Hobj Hst. simpl.
  assert (Hget : getScheduledPost s id = Some post).
  { unfold getScheduledPost. by rewrite Hkey. }
  pose proof (deleteScheduledPost_cases s id Hwf) as Hdel.
  rewrite Hget, decide_True in Hdel by done.
  destruct Hdel as (Htrue & Hgone & _ & _ & _ & Hpub).
  split; [done|]. split; [done|]. split.
  { apply (resumeExecutePost_settles _ k id ref post).
    - by rewrite Hpub.
    - unfold deleteScheduledPost. rewrite Hget.
      rewrite bool_decide_eq_true_2 by done. simpl.
      by destruct (cancelTimer_frame s id) as (-> & _). }
  assert (Href : (ref < nextRef s)%nat).
  { eapply (wf_refs _ Hwf), map_get_Some, Hkey. }
  unfold updateScheduledPost. rewrite Hget.
  rewrite bool_decide_eq_true_2 by done. simpl.
  destruct (cancelTimer_frame s id) as (Ho & Hn & Hm & _ & Hp & _).
  set (s2 := {| objects := _ |}).
  assert (Hs2 : getScheduledPost s2 id = Some (spread post updates)).
  { unfold getScheduledPost. simpl. by rewrite map_get_set_eq, lookup_insert_eq. }
  assert (Hobj2 : objects s2 !! ref = Some post).
  { simpl. rewrite lookup_insert_ne by (rewrite Hn; lia). by rewrite Ho. }
  assert (Hk2 : publishing s2 !! k = Some (id, ref)) by (simpl; by rewrite Hp).
  destruct (_ && _ && _).
  - rewrite getScheduledPost_setupTimer. split; [done|].
    destruct (setupTimer_frame s2 (spread post updates) now')
      as (Ho' & _ & _ & l & Hl).
    apply (resumeExecutePost_settles _ k id ref post).
    + rewrite Hl. by apply lookup_app_l_Some.
    + by rewrite Ho'.
  - split; [done|]. by apply (resumeExecutePost_settles _ k id ref post).
Qed.

(** *** Retrying *)

(** X16.  [retryPost] refuses (returns [false], changes nothing) when the
    id is unknown or the post is not failed.  Otherwise the post is pending
    again with the time of the call as its time; on a running scheduler its
    publication starts at once, and when that settles well the post is
    posted; on a stopped scheduler nothing starts. *)
Theorem retryPost_republishes s postId ref post now :
  map_get postId (scheduledPosts s) = Some ref ->
  objects s !! ref = Some post ->
  let retried := set_scheduledAt now (set_status pending post) in
  let s' := (retryPost s postId now).2 in
  if decide (status post = failed) then
    (retryPost s postId now).1 = true /\
    getScheduledPost s' postId = Some retried /\
    if isRunning s then
      publishing s' = publishing s ++ [(postId, ref)] /\
      getScheduledPost (resumeExecutePost s' (length (publishing s)) true)
                       postId
        = Some (set_status posted retried)
    else publishing s' = publishing s
  else retryPost s postId now = (false, s).
Proof.
  intros Hkey Hobj. simpl. unfold retryPost. rewrite Hkey, Hobj.
  destruct (decide (status post = failed)) as [Hst|Hst].
  2: { by rewrite bool_decide_eq_false_2. }
  rewrite bool_decide_eq_true_2 by done. simpl. split; [done|].
  set (s1 := {| objects := _ |}).
  assert (Hs1 : getScheduledPost s1 postId
                = Some (set_scheduledAt now (set_status pending post))).
  { unfold getScheduledPost. simpl.
    by rewrite map_get_set_eq, lookup_alter_eq, Hobj. }
  destruct (isRunning s).
  - assert (Hex : executePost s1 postId
                  = {| objects := objects s1; nextRef := nextRef s1;
                       scheduledPosts := scheduledPosts s1;
                       timers := timers s1; isRunning := isRunning s1;
                       timeouts := timeouts s1; nextHandle := nextHandle s1;
                       publishing := publishing s ++ [(postId, ref)] |}).
    { unfold executePost. simpl. by rewrite map_get_set_eq. }
    rewrite Hex. split; [exact Hs1|]. split; [done|].
    apply (resumeExecutePost_settles _ _ postId ref).
    + simpl. by rewrite lookup_app_r, Nat.sub_diag.
    + simpl. by rewrite lookup_alter_eq, Hobj.
  - done.
Qed.

Lemma retryPost_unknown s postId now :
  map_get postId (scheduledPosts s) = None ->
  retryPost s postId now = (false, s).
Proof. intros H. unfold retryPost. by rewrite H. Qed.

(** *** Sorting and the queries *)

Section sorting.
Context {A : Type} (cmp : A -> A -> Z).
Context (cmp_total : forall x y, cmp x y <= 0 \/ cmp y x <= 0).
Context (cmp_trans : forall x y z, cmp x y <= 0 -> cmp y z <= 0 -> cmp x z <= 0).

Lemma sort_insert_Permutation x l : sort_insert cmp x l ≡ₚ x :: l.
Proof.
  induction l as [|y l IH]; simpl; [done|].
  destruct (cmp x y <=? 0); [done|]. rewrite IH. apply Permutation_swap.
Qed.

Lemma js_sort_Permutation l : js_sort cmp l ≡ₚ l.
Proof.
  induction l as [|x l IH]; simpl; [done|].
  by rewrite sort_insert_Permutation, IH.
Qed.

Lemma sort_insert_sorted x l :
  StronglySorted (fun a b => cmp a b <= 0) l ->
  StronglySorted (fun a b => cmp a b <= 0) (sort_insert cmp x l).
Proof.
  induction 1 as [|y l Hl IH Hy]; simpl.
  { repeat constructor. }
  destruct (cmp x y <=? 0) eqn:Hxy.
  - apply Z.leb_le in Hxy. constructor; [by constructor|].
    constructor; [done|]. eapply Forall_impl; [exact Hy|].
    intros z Hz. by eapply cmp_trans.
  - apply Z.leb_gt in Hxy. constructor; [done|].
    rewrite sort_insert_Permutation. constructor; [|done].
    destruct (cmp_total x y); [lia | done].
Qed.

Lemma js_sort_sorted l :
  StronglySorted (fun a b => cmp a b <= 0) (js_sort cmp l).
Proof.
  induction l as [|x l IH]; simpl; [constructor | by apply sort_insert_sorted].
Qed.

(** The sort is stable: the elements of a class that the comparator does
    not separate keep their order. *)
Lemma sort_insert_stable (P : A -> Prop) `{!forall x, Decision (P x)} x l :
  (forall a b, P a -> 0 < cmp a b -> ~ P b) ->
  filter P (sort_insert cmp x l) = filter P (x :: l).
Proof.
  intros HP. induction l as [|y l IH]; simpl; [done|].
  destruct (cmp x y <=? 0) eqn:Hxy; [done|]. apply Z.leb_gt in Hxy.
  rewrite (filter_cons _ y), IH, !filter_cons.
  destruct (decide (P x)) as [Hx|Hx]; [|done].
  rewrite !decide_False by (by eapply HP). done.
Qed.

Lemma js_sort_stable (P : A -> Prop) `{!forall x, Decision (P x)} l :
  (forall a b, P a -> 0 < cmp a b -> ~ P b) ->
  filter P (js_sort cmp l) = filter P l.
Proof.
  intros HP. induction l as [|x l IH]; simpl; [done|].
  rewrite sort_insert_stable by done. by rewrite !filter_cons, IH.
Qed.
End sorting.

Lemma StronglySorted_impl {A} (R1 R2 : A -> A -> Prop) l :
  (forall a b, R1 a b -> R2 a b) ->
  StronglySorted R1 l -> StronglySorted R2 l.
Proof.
  intros HR. induction 1 as [|x l _ IH Hx]; constructor; [done|].
  eapply Forall_impl; [exact Hx|]. apply HR.
Qed.

Lemma slice_to_take {A} n (l : list A) : exists k, slice_to n l = take k l.
Proof. unfold slice_to. destruct (n <? 0); eauto. Qed.

Lemma length_slice_to {A} n (l : list A) :
  Z.of_nat (length (slice_to n l))
  = if n <? 0 then Z.max 0 (Z.of_nat (length l) + n)
    else Z.min n (Z.of_nat (length l)).
Proof.
  unfold slice_to. destruct (n <? 0) eqn:Hn; rewrite length_take.
  - apply Z.ltb_lt in Hn. lia.
  - apply Z.ltb_ge in Hn. lia.
Qed.

Lemma take_sorted {A} (R : A -> A -> Prop) k l :
  StronglySorted R l -> StronglySorted R (take k l).
Proof.
  intros H. rewrite <- (take_drop k l) in H.
  by apply StronglySorted_app_1_l in H.
Qed.

(** X17.  [getScheduledPosts] without a status returns all posts of the
    map, ordered by time, those of the same time in the order of the map. *)
Theorem getScheduledPosts_sorted s :
  getScheduledPosts s None ≡ₚ values s /\
  StronglySorted (fun a b => scheduledAt a <= scheduledAt b)
                 (getScheduledPosts s None) /\
  forall t,
    filter (fun p => scheduledAt p = t) (getScheduledPosts s None)
    = filter (fun p => scheduledAt p = t) (values s).
Proof.
  unfold getScheduledPosts. split; [apply js_sort_Permutation|]. split.
  - eapply StronglySorted_impl;
      [|apply (js_sort_sorted ascending); unfold ascending; intros; lia].
    unfold ascending. intros a b. simpl. lia.
  - intros t. apply js_sort_stable. unfold ascending. intros a b. lia.
Qed.


(** X19.  [getPastPosts] returns posted and failed posts, latest first.
    Without a limit, and with the limit zero, it returns all of them; with
    a limit above zero that many, or all if there are fewer. *)
Theorem getPastPosts_limited s limit :
  let result := getPastPosts s limit in
  let past :=
    filter (fun p => status p = posted \/ status p = failed) (values s) in
  Forall (fun p => status p = posted \/ status p = failed) result /\
  StronglySorted (fun a b => scheduledAt b <= scheduledAt a) result /\
  (limit = None \/ limit = Some 0 -> result ≡ₚ past) /\
  (forall n, limit = Some n -> 0 < n ->
     Z.of_nat (length result) = Z.min n (Z.of_nat (length past))).
Proof.
  simpl. unfold getPastPosts.
  set (past := filter _ (values s)).
  assert (Hall : Forall (fun p => status p = posted \/ status p = failed)
                   (js_sort descending past)).
  { rewrite js_sort_Permutation. apply Forall_forall. intros p Hp.
    by apply list_elem_of_filter in Hp as [? _]. }
  assert (Hsorted : StronglySorted (fun a b => scheduledAt b <= scheduledAt a)
                      (js_sort descending past)).
  { eapply StronglySorted_impl;
      [|apply (js_sort_sorted descending); unfold descending; intros; lia].
    unfold descending. intros a b. simpl. lia. }
  split; [|split; [|split]].
  - destruct limit as [n|]; [|done]. destruct (n =? 0); [done|].
    destruct (slice_to_take n (js_sort descending past)) as [k ->].
    by apply Forall_take.
  - destruct limit as [n|]; [|done]. destruct (n =? 0); [done|].
    destruct (slice_to_take n (js_sort descending past)) as [k ->].
    by apply take_sorted.
  - intros [->| ->]; simpl; apply js_sort_Permutation.
  - intros n -> Hn.
    assert ((n =? 0) = false) as -> by (apply Z.eqb_neq; lia).
    rewrite length_slice_to.
    assert ((n <? 0) = false) as -> by (apply Z.ltb_ge; lia).
    by rewrite (Permutation_length (js_sort_Permutation descending past)).
Qed.

(** X20.  In [getStatistics] the pending, posted and failed posts add up to
    all scheduled posts, and the posts upcoming today are among the pending
    ones. *)
Theorem getStatistics_partition s today tomorrow :
  let st := getStatistics s today tomorrow in
  count_pending st + count_posted st + count_failed st = totalScheduled st /\
  0 <= upcomingToday st <= count_pending st.
Proof.
  simpl. unfold getStatistics. simpl. split.
  - induction (values s) as [|p l IH]; simpl; [done|].
    rewrite !filter_cons.
    destruct (status p); simpl;
      repeat (first [rewrite decide_True by done
                    | rewrite decide_False by done]); simpl length; lia.
  - split; [lia|]. apply Nat2Z.inj_le.
    induction (values s) as [|p l IH]; simpl; [done|].
    rewrite !filter_cons.
    destruct (decide (status p = pending /\ _)) as [[Hst _]|Hno].
    + rewrite decide_True by done. simpl. lia.
    + destruct (decide (status p = pending)); simpl; lia.
Qed.

(** *** The theorems at concrete inputs *)

(** A second post scheduled beside a first one. *)
Lemma schedulePost_stores_witness :
  let s := runs Examples.timer_armed in
  let r := schedulePost s "post2" "again" 700 None 200 200 200 in
  getScheduledPost r.2 "post2" = Some r.1 /\
  getScheduledPost r.2 "post1" = getScheduledPost s "post1".
Proof.
  cbv zeta.
  destruct (schedulePost_stores (runs Examples.timer_armed) "post2" "again"
              700 None 200 200 200 (wf_runs _)) as (_ & H1 & H2).
  split; [exact H1|]. apply H2. discriminate.
Defined.

(** A post for time 500 scheduled at time 100, published at time 500; and a
    post for a time more than 2^31 - 1 milliseconds ahead, whose timeout is
    armed with one millisecond. *)
Lemma scheduled_post_lifecycle_witness :
  let s := Examples.running in
  let r := schedulePost s "post1" "hello" 500 None 100 100 100 in
  let s3 := resumeExecutePost (fireTimeout r.2 (nextHandle s) 500
                                 (fun _ => 500)) 0 true in
  let far := schedulePost s "post2" "later" 3000000100 None 100 100 100 in
  (timers r.2 !! "post1" = Some (nextHandle s) /\
   timeouts r.2 !! nextHandle s
     = Some {| timeout_delay := 400;
               timeout_callback := CallExecutePost "post1" |} /\
   getScheduledPost s3 "post1" = Some (set_status posted r.1) /\
   timers s3 !! "post1" = None) /\
  timeouts far.2 !! nextHandle s
    = Some {| timeout_delay := 1;
              timeout_callback := CallExecutePost "post2" |}.
Proof.
  cbv zeta. split.
  - destruct (scheduled_post_lifecycle Examples.running "post1" "hello" 500
                None 100 100 100 500 (fun _ => 500) true)
      as (H1 & Hd & Hin & _ & _ & _ & _ & H2 & H3 & _);
      [reflexivity | lia | lia |].
    rewrite Hin in Hd by (unfold TIMEOUT_MAX; lia).
    split; [exact H1|]. split; [exact Hd|]. split; [exact H2 | exact H3].
  - destruct (scheduled_post_lifecycle Examples.running "post2" "later"
                3000000100 None 100 100 100 500 (fun _ => 500) true)
      as (_ & Hd & _ & Hout & _); [reflexivity | lia | lia |].
    rewrite Hout in Hd by (unfold TIMEOUT_MAX; lia). exact Hd.
Defined.

(** The post with an armed timer is deleted. *)
Lemma deleteScheduledPost_removes_witness :
  let s := runs Examples.timer_armed in
  (deleteScheduledPost s "post1").1 = true /\
  getScheduledPost (deleteScheduledPost s "post1").2 "post1" = None /\
  timers (deleteScheduledPost s "post1").2 !! "post1" = None.
Proof.
  cbv zeta.
  pose proof (deleteScheduledPost_removes (runs Examples.timer_armed) "post1"
                (wf_runs _)) as H.
  assert (Hget : exists post,
            getScheduledPost (runs Examples.timer_armed) "post1" = Some post /\
            status post = pending).
  { eexists. split; vm_compute; reflexivity. }
  destruct Hget as (post & Hget & Hst).
  rewrite Hget, decide_True in H by done.
  destruct H as (H1 & H2 & H3 & _). done.
Defined.

(** The post with an armed timer gets the new time 900 at time 200; then
    an update that also carries another id registers the timer under that
    id and leaves the key without one. *)
Lemma updateScheduledPost_rearms_witness :
  let s := runs Examples.timer_armed in
  let s' := (updateScheduledPost s "post1" (Examples.new_time 900) 200 200).2 in
  let s'' :=
    (updateScheduledPost s "post1" (Examples.new_time_and_id 900 "other")
       200 200).2 in
  (timers s' !! "post1" = Some (nextHandle s) /\
   timeouts s' !! nextHandle s
     = Some {| timeout_delay := 700;
               timeout_callback := CallExecutePost "post1" |} /\
   timeouts s' !! 1%nat = None) /\
  (timers s'' !! "post1" = None /\
   timers s'' !! "other" = Some (nextHandle s)).
Proof.
  cbv zeta.
  assert (Hget : exists post,
            getScheduledPost (runs Examples.timer_armed) "post1" = Some post /\
            status post = pending /\ post_id post = "post1" /\
            timers (runs Examples.timer_armed) !! "post1" = Some 1%nat).
  { eexists. repeat split; vm_compute; reflexivity. }
  destruct Hget as (post & Hget & Hst & Hid & Hh). split.
  - destruct (updateScheduledPost_rearms (runs Examples.timer_armed) "post1"
                post (Examples.new_time 900) 900 200 200 (wf_runs _)
                Hget Hst)
      as (H1 & H2 & Hin & _ & H3 & _); [reflexivity | reflexivity | lia | lia |].
    rewrite Hin in H2 by (unfold TIMEOUT_MAX; lia).
    simpl in H1, H2. rewrite Hid in H1, H2.
    split; [by rewrite H1, lookup_insert_eq|].
    split; [exact H2 | by apply H3].
  - destruct (updateScheduledPost_rearms (runs Examples.timer_armed) "post1"
                post (Examples.new_time_and_id 900 "other") 900 200 200
                (wf_runs _) Hget Hst)
      as (H1 & _); [reflexivity | reflexivity | lia | lia |].
    simpl in H1. rewrite H1.
    split.
    + rewrite lookup_insert_ne by discriminate. apply lookup_delete_eq.
    + apply lookup_insert_eq.
Defined.

(** The scheduler with an armed timer is stopped. *)
Lemma stop_disarms_timers_witness :
  let s := runs Examples.timer_armed in
  isRunning (stop s) = false /\ timers (stop s) = ∅ /\
  scheduledPosts (stop s) = scheduledPosts s.
Proof.
  cbv zeta.
  destruct (stop_disarms_timers (runs Examples.timer_armed)) as [_ H].
  destruct H as (H1 & H2 & H3 & _); [reflexivity|].
  split; [exact H1|]. split; [exact H2 | exact H3].
Defined.

(** A post scheduled on a stopped scheduler, which is then started. *)
Lemma start_sweeps_witness :
  let s := runs [SchedulePost "post1" "hello" 50 None 100 100 100] in
  let s' := start s 200 (fun _ => 200) in
  isRunning s' = true /\
  (is_Some (timers s' !! "post1") \/ ("post1", 0%nat) ∈ publishing s').
Proof.
  cbv zeta.
  destruct (start_sweeps
              (runs [SchedulePost "post1" "hello" 50 None 100 100 100])
              200 (fun _ => 200)) as [_ H].
  destruct H as (H1 & _ & _ & _ & _ & H2); [reflexivity|].
  split; [exact H1|].
  apply (H2 0%nat {| post_id := "post1"; text := "hello"; scheduledAt := 50;
                     status := pending; mediaUrls := None;
                     createdAt := 100 |}); reflexivity.
Defined.

(** The post that the sweep is publishing is deleted, and is back when the
    publication settles. *)
Lemma settle_overrides_witness :
  let s := runs Examples.being_published in
  getScheduledPost (deleteScheduledPost s "post1").2 "post1" = None /\
  exists post,
    getScheduledPost
      (resumeExecutePost (deleteScheduledPost s "post1").2 0 true) "post1"
    = Some post /\ status post = posted.
Proof.
  cbv zeta.
  assert (Hobj : exists post,
            objects (runs Examples.being_published) !! 0%nat = Some post /\
            status post = pending).
  { eexists. split; vm_compute; reflexivity. }
  destruct Hobj as (post & Hobj & Hst).
  destruct (settle_overrides (runs Examples.being_published) 0 "post1" 0%nat
              post (Examples.new_time 900) 200 200 true (wf_runs _))
    as (_ & H1 & H2 & _); [reflexivity | reflexivity | exact Hobj | exact Hst |].
  split; [exact H1|]. eexists. split; [exact H2 | reflexivity].
Defined.

(** The post whose publication failed is retried on the running scheduler. *)
Lemma retryPost_republishes_witness :
  let s := runs Examples.publication_failed in
  (retryPost s "post1" 70000).1 = true /\
  exists post,
    getScheduledPost (retryPost s "post1" 70000).2 "post1" = Some post /\
    status post = pending /\ scheduledAt post = 70000.
Proof.
  cbv zeta.
  assert (Hobj : exists post,
            objects (runs Examples.publication_failed) !! 0%nat = Some post /\
            status post = failed).
  { eexists. split; vm_compute; reflexivity. }
  destruct Hobj as (post & Hobj & Hst).
  pose proof (retryPost_republishes (runs Examples.publication_failed)
                "post1" 0%nat post 70000 eq_refl Hobj) as H.
  cbv zeta in H. rewrite decide_True in H by done.
  destruct H as (H1 & H2 & _).
  split; [exact H1|]. eexists. split; [exact H2|]. split; reflexivity.
Defined.

(** The past posts of a scheduler with one failed post, with the limit 0. *)
Lemma getPastPosts_limited_witness :
  let s := runs Examples.publication_failed in
  getPastPosts s (Some 0)
  ≡ₚ filter (fun p => status p = posted \/ status p = failed) (values s).
Proof.
  cbv zeta.
  destruct (getPastPosts_limited (runs Examples.publication_failed) (Some 0))
    as (_ & _ & H & _).
  apply H. by right.
Defined.

End SchedulerExtras.
